(** * Earn Agent: the operation-execution pipeline of [src/main.ts]

    A shallow embedding of the agent's driver: intake of the reasoning
    service's answer ([parseOpFromCodeBlock], [runAiScenario]), the step
    executor ([runScenarioStep]), the transaction lifecycle
    ([processTransactions]), the account-state refresh
    ([refreshEarnAgentData]) and the busy-flag gate of [main].

    - The outside world.  The program talks to three parties: the
      aggregator's HTTP API, the wallet signer and the chat-completion
      service.  They are modelled by an environment [Env] that answers each
      call from the history of all earlier calls.  Every call (with its
      answer), every delay and every console line is appended to a trace,
      so that "which calls are made, in which order" is a statement about
      that trace.
    - Data.  The bodies the aggregator answers with are records with the
      fields the program reads; a field is optional where the program
      guards its access ([?.], [??], [||], [!x]).  What the reasoning
      service sends is untrusted text: the object parsed from it is kept
      as a [JSON] value and read dynamically.
    - Effects.  Async functions are computations in a state-and-exception
      monad [M] over the busy flag, the account data and the trace.
      [while (true)] loops take fuel; running out of it is the outcome
      [OutOfFuel], which no [catch] or [finally] sees.
    - Built-ins.  [JSON.parse], [parseFloat], [trim], [toLowerCase] and the
      number conversions belong to the JavaScript run time; they are the
      fields of the class [Builtins] and all statements hold for any
      implementation.  [Reference] implements them for running examples.
    - Scheduling.  A handler (the interval callback, one turn of the prompt
      loop) is a computation of its own; a trigger that arrives while a
      cycle is suspended is the handler run in the state of that moment. *)

From Stdlib Require Import String Ascii List ZArith QArith Bool Arith Lia.
From Stdlib Require Import Sorted Permutation.
Import ListNotations.
Set Warnings "-register-all".
Local Close Scope Q_scope.
Local Open Scope string_scope.
Local Open Scope list_scope.

(** ** JavaScript values that come out of [JSON.parse] *)

(** A JSON number is held as the exact rational value of the double that
    [JSON.parse] produced. *)
Inductive JSON : Type :=
| JNull
| JBool (b : bool)
| JNum (n : Q)
| JStr (s : string)
| JArr (items : list JSON)
| JObj (members : list (string * JSON)).

(** [None] is JavaScript's [undefined]. *)
Definition JSValue : Type := option JSON.

(** Truthiness, as used by [!x], [x || y] and [if (x)]. *)
Definition truthy (v : JSValue) : bool :=
  match v with
  | None => false
  | Some JNull => false
  | Some (JBool b) => b
  | Some (JNum n) => negb (Qeq_bool n 0%Q)
  | Some (JStr s) => negb (s =? "")
  | Some (JArr _) => true
  | Some (JObj _) => true
  end.

(** [v === "lit"] for a string literal. *)
Definition strict_eq_str (v : JSValue) (lit : string) : bool :=
  match v with
  | Some (JStr s) => s =? lit
  | _ => false
  end.

(** Own property [k] of an object produced by [JSON.parse]; for a repeated
    member name the last one wins. *)
Fixpoint lookup_member (k : string) (members : list (string * JSON)) : JSValue :=
  match members with
  | [] => None
  | (k', v) :: rest =>
      match lookup_member k rest with
      | Some v' => Some v'
      | None => if k' =? k then Some v else None
      end
  end.

(** [Object.keys(v).length] for a non-null value (for a string, the number
    of its bytes here: only whether it is zero is ever asked). *)
Definition keys_length (v : JSON) : nat :=
  match v with
  | JObj members => List.length (nodup string_dec (map fst members))
  | JArr items => List.length items
  | JStr s => String.length s
  | _ => 0
  end.

(** The sign of an IEEE double, which is all that [x <= 0] and [x > 0] look at. *)
Inductive FloatSign : Type := FNaN | FNeg | FZero | FPos.

Definition le0 (f : FloatSign) : bool :=
  match f with FNeg | FZero => true | _ => false end.

Definition gt0 (f : FloatSign) : bool :=
  match f with FPos => true | _ => false end.

(** Built-ins of the JavaScript run time that the program calls.  They are
    not code of the repository; every statement below holds for any
    implementation of them. *)
Class Builtins : Type := {
  JSON_parse : string -> option JSON;       (* [None]: a SyntaxError is thrown *)
  parseFloat : string -> FloatSign;
  trim : string -> string;                  (* String.prototype.trim *)
  toLowerCase : string -> string;           (* String.prototype.toLowerCase *)
  Number_toString : Q -> string;            (* template conversion of a number *)
  percent_toFixed2 : Q -> string            (* [(x * 100).toFixed(2)] *)
}.

(** String conversion of a template literal, [`${v}`]. *)
Section Template.
Context {B : Builtins}.

Fixpoint to_string (v : JSON) : string :=
  match v with
  | JNull => "null"
  | JBool true => "true"
  | JBool false => "false"
  | JNum n => Number_toString n
  | JStr s => s
  | JArr items =>
      (fix join (l : list JSON) : string :=
         match l with
         | [] => ""
         | x :: rest =>
             let sx := match x with JNull => "" | _ => to_string x end in
             match rest with
             | [] => sx
             | _ => (sx ++ "," ++ join rest)%string
             end
         end) items
  | JObj _ => "[object Object]"
  end.

Definition template (v : JSValue) : string :=
  match v with
  | None => "undefined"
  | Some j => to_string j
  end.
End Template.

(** ** Data model (the interfaces of [main.ts] and the aggregator's payloads) *)

Record Token : Type := mkToken {
  token_address : option string;
  token_symbol : string }.

Record Period : Type := mkPeriod { days : Q }.

Record Metadata : Type := mkMetadata {
  name : string;
  cooldownPeriod : option Period;
  warmupPeriod : option Period;
  withdrawPeriod : option Period }.

Record YieldStatus : Type := mkYieldStatus { enter : bool; exit : bool }.

Record YieldOpportunity : Type := mkYield {
  id : string;
  apy : Q;
  token : option Token;       (* read through [token?.address] *)
  metadata : Metadata;
  status : YieldStatus }.

Record EarningPosition : Type := mkPosition {
  pos_integrationId : string;
  pos_amount : string }.

(** One entry of a yield's balance list. *)
Record Balance : Type := mkBalance {
  bal_type : string;
  bal_amount : string }.

(** One item of the answer of [POST /v1/yields/balances]. *)
Record YieldBalances : Type := mkYieldBalances {
  yb_integrationId : string;
  balances : list Balance }.

(** One entry of the answer of [POST /v1/tokens/balances]. *)
Record TokenBalance : Type := mkTokenBalance {
  tb_amount : string;
  tb_token : Token }.

(** One address entry of the body of [POST /v1/tokens/balances]. *)
Record TokenQuery : Type := mkTokenQuery {
  tq_network : string;
  tq_address : string;
  tq_tokenAddress : option string }.

Record Transaction : Type := mkTx {
  tx_id : string;
  tx_type : string;
  tx_status : string }.

Record Session : Type := mkSession { transactions : list Transaction }.

Record UnsignedTx : Type := mkUnsigned { unsignedTransaction : string }.

Record TxStatus : Type := mkTxStatus {
  st_status : string;
  st_url : option string }.

Record YieldsPage : Type := mkPage { data : list YieldOpportunity }.

Record Message : Type := mkMessage { content : option string }.
Record Choice : Type := mkChoice { message : option Message }.
Record ChatCompletion : Type := mkChat { choices : list Choice }.

Record Wallet : Type := mkWallet { wallet_address : string }.

Record EarnAgentData : Type := mkData {
  yields : list YieldOpportunity;
  earningPositions : list EarningPosition;
  idleTokenBalances : list (string * string) }.

Definition NETWORK : string := "arbitrum".

(** The period of the interval timer, in milliseconds. *)
Definition CHECK_INTERVAL : Z := 5 * 60000.

(** ** The outside world *)

Inductive Method : Type := GET | POST | PATCH.

(** The aggregator requests the program issues.  Each constructor stands for
    one call site of [get], [post] or [patch]; [method_of] and [path_of]
    give the verb and the path the source builds for it, the remaining
    arguments are the JSON body. *)
Inductive Request : Type :=
| ListYields
| YieldDetail (integrationId : JSValue)
| PositionBalance (integrationId : JSValue) (address : string)
| PositionBalances (payload : list (string * string))   (* (address, integrationId) *)
| IdleBalances (addresses : list TokenQuery)
| ActionSession (endpoint : string) (integrationId : JSValue) (address : string)
                (amount : JSValue)
| ConstructTx (txId : string)
| SubmitTx (txId : string) (signedTransaction : string)
| StatusTx (txId : string).

Definition method_of (r : Request) : Method :=
  match r with
  | ListYields | YieldDetail _ | StatusTx _ => GET
  | ConstructTx _ => PATCH
  | _ => POST
  end.

Section Paths.
Context {B : Builtins}.

Definition path_of (r : Request) : string :=
  (match r with
   | ListYields => "/v2/yields?network=" ++ NETWORK
   | YieldDetail i => "/v2/yields/" ++ template i
   | PositionBalance i _ => "/v1/yields/" ++ template i ++ "/balances"
   | PositionBalances _ => "/v1/yields/balances"
   | IdleBalances _ => "/v1/tokens/balances"
   | ActionSession endpoint _ _ _ => "/v1/actions/" ++ endpoint
   | ConstructTx t => "/v1/transactions/" ++ t
   | SubmitTx t _ => "/v1/transactions/" ++ t ++ "/submit"
   | StatusTx t => "/v1/transactions/" ++ t ++ "/status"
   end)%string.
End Paths.

(** The decoded body of a successful answer, per request. *)
Definition resp_type (r : Request) : Type :=
  match r with
  | ListYields => YieldsPage
  | YieldDetail _ => YieldOpportunity
  | PositionBalance _ _ => list Balance
  | PositionBalances _ => list YieldBalances
  | IdleBalances _ => list TokenBalance
  | ActionSession _ _ _ _ => Session
  | ConstructTx _ => option UnsignedTx      (* [None]: a falsy body such as null *)
  | SubmitTx _ _ => JSON
  | StatusTx _ => option TxStatus           (* [None]: a falsy body such as null *)
  end.

(** What [fetch] followed by [response.json()] can give. *)
Inductive Response (A : Type) : Type :=
| Ok (body : A)            (* [response.ok] *)
| NotOk (code : Z)         (* [!response.ok], with [response.status] *)
| Unreachable.             (* the promise of [fetch] or of [json()] rejects *)
Arguments Ok {A} body.
Arguments NotOk {A} code.
Arguments Unreachable {A}.

(** Outcome of a promise of the signer or of the chat service. *)
Inductive Promise (A : Type) : Type :=
| Resolved (value : A)
| Rejected.
Arguments Resolved {A} value.
Arguments Rejected {A}.

(** Console lines, one constructor per [console.log]/[console.error] site. *)
Inductive LogLine : Type :=
| LogStarted
| LogUsingAddress (address : string)
| LogBusySkipInterval
| LogIntervalError
| LogInitialError
| LogBusyPleaseWait
| LogChatError
| LogScanning
| LogAgentSays (text : string)
| LogMissingSteps
| LogFailedToParse
| LogStep (type integrationId amount : JSValue)
| LogNoStaked
| LogNoBalance
| LogStepDone (type integrationId : JSValue)
| LogTx (type : string)
| LogRetrying (attempt : nat)
| LogCannotConstruct
| LogSubmitted (submitResult : JSON)
| LogNoStatus
| LogConfirmed (url : option string)
| LogFailed
| LogPending
| LogRefreshing
| LogRefreshed.

(** Everything the program does that is visible outside, with the answer it got. *)
Inductive Event : Type :=
| EvFetch (r : Request) (reply : Response (resp_type r))
| EvSign (payload : JSON) (reply : Promise string)
| EvChat (system user : string) (reply : Promise ChatCompletion)
| EvSleep (ms : Z)
| EvLog (line : LogLine).

Definition Trace : Type := list Event.

(** A deterministic environment: each answer is a function of the calls made
    so far and of the call itself. *)
Record Env : Type := mkEnv {
  fetch : Trace -> forall r : Request, Response (resp_type r);
  signTransaction : Trace -> Wallet -> JSON -> Promise string;
  chat_completions_create : Trace -> string -> string -> Promise ChatCompletion }.

(** ** Program state and the monad of effects *)

Record State : Type := mkState {
  earnAgentBusy : bool;
  earnAgentData : EarnAgentData;
  trace : Trace }.

Definition emit (s : State) (evs : list Event) : State :=
  mkState (earnAgentBusy s) (earnAgentData s) (trace s ++ evs).

Definition set_busy (b : bool) (s : State) : State :=
  mkState b (earnAgentData s) (trace s).

Definition set_data (d : EarnAgentData) (s : State) : State :=
  mkState (earnAgentBusy s) d (trace s).

Inductive Exn : Type :=
| RequestFailed (m : Method) (path : string) (code : Z)  (* [new Error(`GET ${path} failed: ...`)] *)
| PromiseRejected                                        (* a rejected external promise *)
| TypeError
| SyntaxError.

(** [OutOfFuel] stands for a [while (true)] loop that has not ended within
    the given number of iterations. *)
Inductive Outcome (A : Type) : Type :=
| Ret (a : A)
| Throw (e : Exn)
| OutOfFuel.
Arguments Ret {A} a.
Arguments Throw {A} e.
Arguments OutOfFuel {A}.

Definition M (A : Type) : Type := State -> Outcome A * State.

Definition ret {A} (a : A) : M A := fun s => (Ret a, s).

Definition bind {A B} (m : M A) (k : A -> M B) : M B :=
  fun s =>
    match m s with
    | (Ret a, s') => k a s'
    | (Throw e, s') => (Throw e, s')
    | (OutOfFuel, s') => (OutOfFuel, s')
    end.

Definition throw {A} (e : Exn) : M A := fun s => (Throw e, s).

Definition out_of_fuel {A} : M A := fun s => (OutOfFuel, s).

(** [try { m } catch (err) { ... }] with the error handed back as a value. *)
Definition attempt {A} (m : M A) : M (Exn + A) :=
  fun s =>
    match m s with
    | (Ret a, s') => (Ret (inr a), s')
    | (Throw e, s') => (Ret (inl e), s')
    | (OutOfFuel, s') => (OutOfFuel, s')
    end.

(** [try { m } finally { f }]: [f] runs whether [m] returned or threw. *)
Definition try_finally {A} (m : M A) (f : M unit) : M A :=
  fun s =>
    match m s with
    | (Ret a, s') =>
        match f s' with
        | (Ret _, s'') => (Ret a, s'')
        | (Throw e, s'') => (Throw e, s'')
        | (OutOfFuel, s'') => (OutOfFuel, s'')
        end
    | (Throw e, s') =>
        match f s' with
        | (Ret _, s'') => (Throw e, s'')
        | (Throw e', s'') => (Throw e', s'')
        | (OutOfFuel, s'') => (OutOfFuel, s'')
        end
    | (OutOfFuel, s') => (OutOfFuel, s')
    end.

Declare Scope monad_scope.
Delimit Scope monad_scope with monad.
Notation "x <- m ;; k" := (bind m (fun x => k))
  (at level 61, m at next level, right associativity) : monad_scope.
Notation "m ;; k" := (bind m (fun _ => k))
  (at level 61, right associativity) : monad_scope.
Local Open Scope monad_scope.

Definition log (l : LogLine) : M unit :=
  fun s => (Ret tt, emit s [EvLog l]).

(** [await new Promise((r) => setTimeout(r, ms))] *)
Definition sleep (ms : Z) : M unit :=
  fun s => (Ret tt, emit s [EvSleep ms]).

Definition get_data : M EarnAgentData := fun s => (Ret (earnAgentData s), s).
Definition put_data (d : EarnAgentData) : M unit := fun s => (Ret tt, set_data d s).
Definition get_busy : M bool := fun s => (Ret (earnAgentBusy s), s).
Definition put_busy (b : bool) : M unit := fun s => (Ret tt, set_busy b s).

(** ** Pure helpers *)

(** [s] without its prefix [pat], when it starts with [pat]. *)
Fixpoint strip_prefix (pat s : string) : option string :=
  match pat with
  | EmptyString => Some s
  | String a pat' =>
      match s with
      | String b s' => if Ascii.eqb a b then strip_prefix pat' s' else None
      | EmptyString => None
      end
  end.

(** Splits [s] at the first occurrence of [pat]: the text before it and the
    text after it. *)
Fixpoint find_sub (pat s : string) : option (string * string) :=
  match strip_prefix pat s with
  | Some after => Some ("", after)
  | None =>
      match s with
      | EmptyString => None
      | String c rest =>
          match find_sub pat rest with
          | Some (before, after) => Some (String c before, after)
          | None => None
          end
      end
  end.

(** [/```json([\s\S]*?)```/.exec(aiText)], giving capture group 1: the text
    between the first opening fence and the first closing fence after it. *)
Definition scenarioRegex_exec (aiText : string) : option string :=
  match find_sub "```json" aiText with
  | None => None
  | Some (_, rest) =>
      match find_sub "```" rest with
      | None => None
      | Some (group1, _) => Some group1
      end
  end.

(** [v[k]] for a non-null value produced by [JSON.parse] and a member name
    that is neither an index nor [length]. *)
Definition own_property (v : JSON) (k : string) : JSValue :=
  match v with
  | JObj members => lookup_member k members
  | _ => None
  end.

(** The validated operation: what the driver reads of the object that
    [parseOpFromCodeBlock] returns is its [steps] array. *)
Record EarnAgentOp : Type := mkOp { steps : list JSON }.

(** [filterSortYields]: the filter, then a stable sort by descending [apy]
    (the comparator is [b.apy - a.apy]). *)
Definition no_period (p : option Period) : bool :=
  match p with
  | None => true
  | Some d => Qeq_bool (days d) 0%Q
  end.

Definition yield_usable (y : YieldOpportunity) : bool :=
  let noCooldown := no_period (cooldownPeriod (metadata y)) in
  let noWarmup := no_period (warmupPeriod (metadata y)) in
  let noWithdraw := no_period (withdrawPeriod (metadata y)) in
  enter (status y) && exit (status y) && noCooldown && noWarmup && noWithdraw.

Fixpoint insert_by_apy (x : YieldOpportunity) (l : list YieldOpportunity)
  : list YieldOpportunity :=
  match l with
  | [] => [x]
  | y :: rest =>
      if Qle_bool (apy y) (apy x) then x :: y :: rest
      else y :: insert_by_apy x rest
  end.

Definition sort_by_apy_desc (l : list YieldOpportunity) : list YieldOpportunity :=
  fold_right insert_by_apy [] l.

Definition filterSortYields (all : list YieldOpportunity) : list YieldOpportunity :=
  sort_by_apy_desc (filter yield_usable all).

(** [Set.prototype.add] on an insertion-ordered set of strings. *)
Definition set_add_last (x : string) (l : list string) : list string :=
  if existsb (String.eqb x) l then l else l ++ [x].

(** [record[k] = v] on an object used as a map.  The keys are ["native"] and
    token addresses, never array indices, so insertion order is kept. *)
Fixpoint record_set (k v : string) (r : list (string * string)) : list (string * string) :=
  match r with
  | [] => [(k, v)]
  | (k', v') :: rest =>
      if k' =? k then (k', v) :: rest else (k', v') :: record_set k v rest
  end.

Definition staked_entry (bs : list Balance) : option Balance :=
  find (fun b => bal_type b =? "staked") bs.

Definition initialData : EarnAgentData := mkData [] [] [].

Definition initialState : State := mkState false initialData [].

(** ** Texts sent to the reasoning service *)

Definition dq : string := String (ascii_of_nat 34) EmptyString.
Definition nl : string := String (ascii_of_nat 10) EmptyString.

(** The template of [buildSystemPrompt] up to the data summary. *)
Definition PROMPT_HEAD : string :=
  (nl ++
   "You are the Earn Agent, focusing on yield optimization in DeFi. " ++ nl ++
   "Speak in a friendly, descriptive style, possibly with bullet points." ++ nl ++
   nl ++
   "**Key Points**:" ++ nl ++
   "1. You must check **all** earning tokens (USDC, WETH, ARB, etc.) for potential improvements." ++ nl ++
   "   - If a token's current yield is underperforming, propose an EXIT + ENTER (same token, no bridging/swaps)." ++ nl ++
   "   - If user has idle tokens, propose ENTER for that exact token if a better yield is available." ++ nl ++
   "   - If user explicitly wants to withdraw from a yield, a single-step EXIT is allowed." ++ nl ++
   "   - Always compare token address or symbol carefully to ensure correct token matching yield." ++ nl ++
   "   - If no improvements for any token, produce an **empty object** " ++ dq ++ "{}" ++ dq ++ "." ++ nl ++
   "2. Multiple improvements in a single scenario are allowed (e.g., multiple EXIT+ENTER pairs), as long as each pair uses the same token." ++ nl ++
   "3. No bridging or swapping. If bridging/swapping is required, produce " ++ dq ++ "{}" ++ dq ++ " or single-step EXIT if user specifically wants to withdraw." ++ nl ++
   "4. **Metadata** requirement: " ++ nl ++
   "   - Whenever you mention a yield or token in conversation, also provide relevant aggregator metadata if available (project name, short description, APY details). " ++ nl ++
   "   - If a user asks about a token balance, it's easier to not respond with an address, but with the token symbol or name found in the yield.token field from the yields data" ++ nl ++
   "   - If aggregator data is incomplete, disclaim that you lack further details." ++ nl ++
   "5. **Scenario Code Block**:" ++ nl ++
   "   - You must conclude your response **immediately** with exactly one code block of shape:" ++ nl ++
   "     ```json" ++ nl ++
   "     {" ++ nl ++
   "       " ++ dq ++ "steps" ++ dq ++ ": [" ++ nl ++
   "         { " ++ dq ++ "type" ++ dq ++ ": " ++ dq ++ "ENTER" ++ dq ++ "|" ++ dq ++ "EXIT" ++ dq ++ ", " ++ dq ++ "integrationId" ++ dq ++ ": " ++ dq ++ "..." ++ dq ++ ", " ++ dq ++ "amount" ++ dq ++ "?: " ++ dq ++ "..." ++ dq ++ " }" ++ nl ++
   "       ]" ++ nl ++
   "     }" ++ nl ++
   "     ```" ++ nl ++
   "   - If no changes, return an empty object `{}` in that code block." ++ nl ++
   "   - **Important**: Once you provide the code block, **do not** add any further text afterwards. End your response there." ++ nl ++
   "   - No " ++ dq ++ "description" ++ dq ++ " field in the JSON, only " ++ dq ++ "steps" ++ dq ++ "." ++ nl ++
   nl ++
   "User aggregator data:" ++ nl)%string.

(** Between the data summary and the instructions. *)
Definition PROMPT_MIDDLE : string :=
  (nl ++
   nl ++
   "INSTRUCTIONS:" ++ nl)%string.

(** After the instructions. *)
Definition PROMPT_TAIL : string :=
  (nl)%string.

(** System instructions of [earnAgentIntervalCheck]. *)
Definition INTERVAL_INSTRUCTIONS : string :=
  (nl ++
   "Speak conversationally. If a yield is underperforming, do an EXIT followed by an ENTER. " ++ nl ++
   "If user has idle tokens, do ENTER. " ++ nl ++
   "If no changes, produce {}." ++ nl)%string.

(** System instructions of [handleChat]. *)
Definition CHAT_INSTRUCTIONS : string :=
  (nl ++
   "User might ask about their positions or idle tokens. " ++ nl ++
   "They might request an EXIT or deposit idle tokens. " ++ nl ++
   "If yield is underperforming => do EXIT+ENTER. " ++ nl ++
   "If no improvement => {}." ++ nl ++
   "Focus on DeFi or crypto." ++ nl)%string.

Definition INTERVAL_QUESTION : string :=
  "Do we have a single scenario improvement right now?".

(** ** The program *)

Section Program.
Context {B : Builtins}.
Variable env : Env.

(** [get], [post] and [patch]: one [fetch], an [Error] unless
    [response.ok], else the decoded body.  The three differ in the verb
    and the body only, which the [Request] carries. *)
Definition request (r : Request) : M (resp_type r) :=
  fun s =>
    let reply := fetch env (trace s) r in
    let s' := emit s [EvFetch r reply] in
    match reply with
    | Ok body => (Ret body, s')
    | NotOk code => (Throw (RequestFailed (method_of r) (path_of r) code), s')
    | Unreachable => (Throw PromiseRejected, s')
    end.

(** [wallet.signTransaction(payload)] *)
Definition wallet_signTransaction (wallet : Wallet) (payload : JSON) : M string :=
  fun s =>
    let reply := signTransaction env (trace s) wallet payload in
    let s' := emit s [EvSign payload reply] in
    match reply with
    | Resolved signed => (Ret signed, s')
    | Rejected => (Throw PromiseRejected, s')
    end.

(** [openai.chat.completions.create({...})] *)
Definition openai_chat (system user : string) : M ChatCompletion :=
  fun s =>
    let reply := chat_completions_create env (trace s) system user in
    let s' := emit s [EvChat system user reply] in
    match reply with
    | Resolved resp => (Ret resp, s')
    | Rejected => (Throw PromiseRejected, s')
    end.

(** [JSON.parse(text)] *)
Definition json_parse (text : string) : M JSON :=
  match JSON_parse text with
  | Some v => ret v
  | None => throw SyntaxError
  end.

(** *** [fetchAllYields], [fetchEarningPositions], [fetchUserBalances] *)

Definition fetchAllYields : M (list YieldOpportunity) :=
  resp <- request ListYields;;
  ret (data resp).

(** The inner [for (const item of resp)] of [fetchEarningPositions]. *)
Fixpoint collect_positions (resp : list YieldBalances) (positions : list EarningPosition)
  : list EarningPosition :=
  match resp with
  | [] => positions
  | item :: rest =>
      let integrationId := yb_integrationId item in
      match staked_entry (balances item) with
      | Some staked =>
          if gt0 (parseFloat (bal_amount staked))
          then collect_positions rest (positions ++ [mkPosition integrationId (bal_amount staked)])
          else collect_positions rest positions
      | None => collect_positions rest positions
      end
  end.

(** The loop [for (let i = 0; i < yields.length; i += chunkSize)]:
    [remaining] is [yields.slice(i)], and [n] bounds the number of
    iterations ([length remaining] is always enough, each iteration drops
    [chunkSize] > 0 entries). *)
Fixpoint fetchEarningPositions_loop (n : nat) (remaining : list YieldOpportunity)
         (address : string) (positions : list EarningPosition)
  : M (list EarningPosition) :=
  match n, remaining with
  | O, _ => ret positions
  | _, [] => ret positions
  | S n', _ =>
      let chunkSize := 15%nat in
      let chunk := firstn chunkSize remaining in
      let payload := map (fun y => (address, id y)) chunk in
      resp <- request (PositionBalances payload);;
      fetchEarningPositions_loop n' (skipn chunkSize remaining) address
                                 (collect_positions resp positions)
  end.

Definition fetchEarningPositions (yields : list YieldOpportunity) (address : string)
  : M (list EarningPosition) :=
  fetchEarningPositions_loop (List.length yields) yields address [].

(** The set [addrs] of [fetchUserBalances]: token addresses that are truthy. *)
Definition token_addresses (yields : list YieldOpportunity) : list string :=
  fold_left
    (fun addrs y =>
       match token y with
       | Some t =>
           match token_address t with
           | Some a => if a =? "" then addrs else set_add_last a addrs
           | None => addrs
           end
       | None => addrs
       end)
    yields [].

Definition balances_payload (addrs : list string) (address : string) : list TokenQuery :=
  map (fun addr =>
         if addr =? "" then mkTokenQuery NETWORK address None
         else mkTokenQuery NETWORK address (Some (toLowerCase addr)))
      addrs.

Definition balances_record (resp : list TokenBalance) : list (string * string) :=
  fold_left
    (fun record b =>
       if gt0 (parseFloat (tb_amount b)) then
         match token_address (tb_token b) with
         | None => record_set "native" (tb_amount b) record
         | Some a =>
             if a =? "" then record_set "native" (tb_amount b) record
             else record_set (toLowerCase a) (tb_amount b) record
         end
       else record)
    resp [].

Definition fetchUserBalances (yields : list YieldOpportunity) (address : string)
  : M (list (string * string)) :=
  let payload := balances_payload (token_addresses yields) address in
  resp <- request (IdleBalances payload);;
  ret (balances_record resp).

(** *** [refreshEarnAgentData] *)

Definition refreshEarnAgentData (address : string) : M unit :=
  log LogRefreshing;;
  allYields <- fetchAllYields;;
  d <- get_data;;
  put_data (mkData (filterSortYields allYields) (earningPositions d) (idleTokenBalances d));;
  d <- get_data;;
  positions <- fetchEarningPositions (yields d) address;;
  d <- get_data;;
  put_data (mkData (yields d) positions (idleTokenBalances d));;
  d <- get_data;;
  idle <- fetchUserBalances (yields d) address;;
  d <- get_data;;
  put_data (mkData (yields d) (earningPositions d) idle);;
  log LogRefreshed.

(** *** [processTransactions] *)

(** The construction loop [for (let i = 0; i < 3; i++)]: [n] attempts are
    left and [i] were made.  The result is [unsignedTx] after the loop
    ([None] while it is still undefined, or when the body was falsy). *)
Fixpoint construct_loop (n i : nat) (txId : string) : M (option UnsignedTx) :=
  match n with
  | O => ret None
  | S n' =>
      r <- attempt (request (ConstructTx txId));;
      match r with
      | inr unsignedTx => ret unsignedTx
      | inl _ =>
          log (LogRetrying (i + 1));;
          sleep 1000;;
          construct_loop n' (S i) txId
      end
  end.

(** The status loop [while (true)] of one transaction. *)
Fixpoint poll_status (fuel : nat) (txId : string) : M unit :=
  match fuel with
  | O => out_of_fuel
  | S fuel' =>
      r <- attempt (request (StatusTx txId));;
      match r with
      | inl _ => log LogNoStatus
      | inr None => log LogNoStatus
      | inr (Some st) =>
          if st_status st =? "CONFIRMED" then log (LogConfirmed (st_url st))
          else if st_status st =? "FAILED" then log LogFailed
          else
            log LogPending;;
            sleep 2000;;
            poll_status fuel' txId
      end
  end.

(** Signing, submission and status polling of one constructed transaction
    (the body of the [for] loop after the construction loop). *)
Definition sign_submit_poll (fuel : nat) (tx : Transaction) (wallet : Wallet)
           (unsignedTx : UnsignedTx) : M unit :=
  payload <- json_parse (unsignedTransaction unsignedTx);;
  signedTx <- wallet_signTransaction wallet payload;;
  submitResult <- request (SubmitTx (tx_id tx) signedTx);;
  log (LogSubmitted submitResult);;
  poll_status fuel (tx_id tx).

Fixpoint processTransactions (fuel : nat) (txs : list Transaction) (wallet : Wallet)
  : M unit :=
  match txs with
  | [] => ret tt
  | tx :: rest =>
      if tx_status tx =? "SKIPPED" then processTransactions fuel rest wallet
      else
        log (LogTx (tx_type tx));;
        unsignedTx <- construct_loop 3 0 (tx_id tx);;
        match unsignedTx with
        | None =>
            log LogCannotConstruct;;
            processTransactions fuel rest wallet
        | Some u =>
            sign_submit_poll fuel tx wallet u;;
            processTransactions fuel rest wallet
        end
  end.

(** *** [runScenarioStep] *)

(** What the amount resolution of [runScenarioStep] ends in: the early
    [return], or the value of [finalAmount]. *)
Inductive Resolution : Type :=
| SkipStep
| FinalAmount (finalAmount : JSValue).

(** The [EXIT] branch of [if (!finalAmount)]. *)
Definition resolve_exit (integrationId : JSValue) (address : string) : M Resolution :=
  posResp <- request (PositionBalance integrationId address);;
  match staked_entry posResp with
  | None => log LogNoStaked;; ret SkipStep
  | Some staked =>
      if le0 (parseFloat (bal_amount staked))
      then log LogNoStaked;; ret SkipStep
      else ret (FinalAmount (Some (JStr (bal_amount staked))))
  end.

(** The other branch of [if (!finalAmount)]. *)
Definition resolve_enter (integrationId : JSValue) (address : string) : M Resolution :=
  details <- request (YieldDetail integrationId);;
  let tokenAddr :=
    match token details with
    | Some t => match token_address t with Some a => a | None => "native" end
    | None => "native"
    end in
  balResp <- request (IdleBalances
               [mkTokenQuery NETWORK address
                  (if tokenAddr =? "native" then None else Some tokenAddr)]);;
  let bal :=
    match balResp with
    | b :: _ => if tb_amount b =? "" then "0" else tb_amount b
    | [] => "0"
    end in
  if le0 (parseFloat bal)
  then log LogNoBalance;; ret SkipStep
  else ret (FinalAmount (Some (JStr bal))).

(** From the creation of the action session to the refresh. *)
Definition execute_step (fuel : nat) (type integrationId : JSValue) (wallet : Wallet)
           (finalAmount : JSValue) : M unit :=
  let address := wallet_address wallet in
  let endpoint := if strict_eq_str type "ENTER" then "enter" else "exit" in
  session <- request (ActionSession endpoint integrationId address finalAmount);;
  processTransactions fuel (transactions session) wallet;;
  log (LogStepDone type integrationId);;
  refreshEarnAgentData address.

(** [let finalAmount = amount; if (!finalAmount) { ... }] *)
Definition resolve_amount (type integrationId : JSValue) (address : string)
           (amount : JSValue) : M Resolution :=
  if negb (truthy amount) then
    if strict_eq_str type "EXIT"
    then resolve_exit integrationId address
    else resolve_enter integrationId address
  else ret (FinalAmount amount).

Definition runScenarioStep (fuel : nat) (type integrationId : JSValue) (wallet : Wallet)
           (amount : JSValue) : M unit :=
  log (LogStep type integrationId amount);;
  let address := wallet_address wallet in
  resolution <- resolve_amount type integrationId address amount;;
  match resolution with
  | SkipStep => ret tt
  | FinalAmount finalAmount => execute_step fuel type integrationId wallet finalAmount
  end.

(** *** [earnAgentDataToString] and [buildSystemPrompt] *)

Definition bool_text (b : bool) : string := if b then "true" else "false".

Definition earnAgentDataToString (d : EarnAgentData) : string :=
  (let out := "Yields:" ++ nl in
   let out :=
     fold_left
       (fun out y =>
          out ++ " - ID: " ++ id y ++ ", name: " ++ name (metadata y)
              ++ ", APY: " ++ percent_toFixed2 (apy y) ++ "%, canEnter: "
              ++ bool_text (enter (status y)) ++ ", canExit: "
              ++ bool_text (exit (status y)) ++ nl)
       (yields d) out in
   let out := out ++ nl ++ "Positions:" ++ nl in
   let out :=
     fold_left
       (fun out p =>
          out ++ " - integrationId: " ++ pos_integrationId p ++ ", staked: "
              ++ pos_amount p ++ nl)
       (earningPositions d) out in
   let out := out ++ nl ++ "Idle Token Balances:" ++ nl in
   fold_left
     (fun out e => out ++ " - token: " ++ fst e ++ ", amount: " ++ snd e ++ nl)
     (idleTokenBalances d) out)%string.

Definition buildSystemPrompt (instructions : string) : M string :=
  d <- get_data;;
  let dataSummary := earnAgentDataToString d in
  ret (PROMPT_HEAD ++ dataSummary ++ PROMPT_MIDDLE ++ instructions ++ PROMPT_TAIL)%string.

(** *** [parseOpFromCodeBlock] *)

Definition parseOpFromCodeBlock (aiText : string) : M (option EarnAgentOp) :=
  match scenarioRegex_exec aiText with
  | None => ret None
  | Some group1 =>
      match JSON_parse (trim group1) with
      | None => log LogFailedToParse;; ret None            (* [catch]: SyntaxError *)
      | Some JNull => log LogFailedToParse;; ret None      (* [catch]: [Object.keys(null)] *)
      | Some opsObj =>
          if (keys_length opsObj =? 0)%nat then ret None
          else
            match own_property opsObj "steps" with
            | Some (JArr items) => ret (Some (mkOp items))
            | _ => log LogMissingSteps;; ret None
            end
      end
  end.

(** *** [runAiScenario] *)

(** [step.k] for an element of the [steps] array. *)
Definition step_field (step : JSON) (k : string) : M JSValue :=
  match step with
  | JNull => throw TypeError
  | _ => ret (own_property step k)
  end.

(** [for (const step of op.steps)] *)
Fixpoint run_steps (fuel : nat) (steps : list JSON) (wallet : Wallet) : M unit :=
  match steps with
  | [] => ret tt
  | step :: rest =>
      type <- step_field step "type";;
      integrationId <- step_field step "integrationId";;
      amount <- step_field step "amount";;
      runScenarioStep fuel type integrationId wallet amount;;
      run_steps fuel rest wallet
  end.

(** [chatResp.choices[0].message?.content || ""] *)
Definition first_content (chatResp : ChatCompletion) : M string :=
  match choices chatResp with
  | [] => throw TypeError
  | c :: _ =>
      ret match message c with
          | None => ""
          | Some m =>
              match content m with
              | None => ""
              | Some text => text
              end
          end
  end.

Definition runAiScenario (fuel : nat) (systemInstructions userMsg : string)
           (wallet : Wallet) : M bool :=
  systemPrompt <- buildSystemPrompt systemInstructions;;
  chatResp <- openai_chat systemPrompt userMsg;;
  rawAiText <- first_content chatResp;;
  log (LogAgentSays (trim rawAiText));;
  op <- parseOpFromCodeBlock rawAiText;;
  match op with
  | None => ret false
  | Some op =>
      run_steps fuel (steps op) wallet;;
      ret true
  end.

Definition earnAgentIntervalCheck (fuel : nat) (wallet : Wallet) : M unit :=
  log LogScanning;;
  refreshEarnAgentData (wallet_address wallet);;
  runAiScenario fuel INTERVAL_INSTRUCTIONS INTERVAL_QUESTION wallet;;
  ret tt.

Definition handleChat (fuel : nat) (userMsg : string) (wallet : Wallet) : M unit :=
  runAiScenario fuel CHAT_INSTRUCTIONS userMsg wallet;;
  ret tt.

(** *** [main]: start-up, the interval callback and one turn of the prompt loop *)

(** [try { body } catch (err) { console.error(line) } finally { earnAgentBusy = false }] *)
Definition guarded_cycle (body : M unit) (line : LogLine) : M unit :=
  try_finally
    (r <- attempt body;;
     match r with
     | inr _ => ret tt
     | inl _ => log line
     end)
    (put_busy false).

(** The callback given to [setInterval]. *)
Definition interval_callback (fuel : nat) (wallet : Wallet) : M unit :=
  busy <- get_busy;;
  if busy then log LogBusySkipInterval
  else
    put_busy true;;
    guarded_cycle
      (refreshEarnAgentData (wallet_address wallet);;
       earnAgentIntervalCheck fuel wallet)
      LogIntervalError.

(** The body of [while (true)] once the prompt has given [userMsg]. *)
Definition prompt_turn (fuel : nat) (wallet : Wallet) (userMsg : string) : M unit :=
  busy <- get_busy;;
  if busy then log LogBusyPleaseWait
  else
    put_busy true;;
    guarded_cycle (handleChat fuel userMsg wallet) LogChatError.

(** [main] from its first line to the first prompt.  [derived] is what
    [Wallet.fromPhrase(MNEMONIC)] gives: the wallet of the configured
    phrase, or the error the call throws when the phrase is missing or
    malformed; the call stands outside any [try].  [wallet.getAddress()]
    resolves to the address of the derived wallet. *)
Definition main_start (fuel : nat) (derived : Exn + Wallet) : M unit :=
  log LogStarted;;
  wallet <- match derived with
            | inr w => ret w
            | inl e => throw e
            end;;
  let address := wallet_address wallet in
  log (LogUsingAddress address);;
  refreshEarnAgentData address;;
  put_busy true;;
  guarded_cycle (earnAgentIntervalCheck fuel wallet) LogInitialError.

(** A trigger of a cycle: a tick of the interval timer or a line typed at
    the prompt. *)
Inductive Trigger : Type :=
| Tick
| Input (userMsg : string).

Definition on_trigger (fuel : nat) (wallet : Wallet) (t : Trigger) : M unit :=
  match t with
  | Tick => interval_callback fuel wallet
  | Input userMsg => prompt_turn fuel wallet userMsg
  end.

End Program.


(** ** A reference implementation of the built-ins

    Used to run the program on concrete inputs.  It covers ASCII text:
    JSON without [\u] escapes, and [trim]/[toLowerCase] on ASCII. *)

Module Reference.

Definition is_space (c : ascii) : bool :=
  let n := nat_of_ascii c in
  ((n =? 32) || (n =? 9) || (n =? 10) || (n =? 13) || (n =? 11) || (n =? 12))%nat.

Definition is_json_space (c : ascii) : bool :=
  let n := nat_of_ascii c in
  ((n =? 32) || (n =? 9) || (n =? 10) || (n =? 13))%nat.

Definition is_digit (c : ascii) : bool :=
  let n := nat_of_ascii c in ((48 <=? n) && (n <=? 57))%nat.

Definition digit_value (c : ascii) : Z := Z.of_nat (nat_of_ascii c - 48).

Fixpoint skip (p : ascii -> bool) (s : string) : string :=
  match s with
  | String c rest => if p c then skip p rest else s
  | EmptyString => s
  end.

Fixpoint rev_string (s acc : string) : string :=
  match s with
  | EmptyString => acc
  | String c rest => rev_string rest (String c acc)
  end.

Definition ref_trim (s : string) : string :=
  let s1 := skip is_space s in
  rev_string (skip is_space (rev_string s1 "")) "".

Definition lower_ascii (c : ascii) : ascii :=
  let n := nat_of_ascii c in
  if ((65 <=? n) && (n <=? 90))%nat then ascii_of_nat (n + 32) else c.

Fixpoint ref_toLowerCase (s : string) : string :=
  match s with
  | EmptyString => EmptyString
  | String c rest => String (lower_ascii c) (ref_toLowerCase rest)
  end.

(** A run of decimal digits: its value, its length, and the rest. *)
Fixpoint read_digits (s : string) (acc : Z) (len : nat) : Z * nat * string :=
  match s with
  | String c rest =>
      if is_digit c then read_digits rest (10 * acc + digit_value c)%Z (S len)
      else (acc, len, s)
  | EmptyString => (acc, len, s)
  end.

(** An exponent part [e[+-]digits], if one is there. *)
Definition read_exponent (s : string) : Z * string :=
  match s with
  | String c rest =>
      if (nat_of_ascii c =? 101)%nat || (nat_of_ascii c =? 69)%nat then
        let '(neg, rest') :=
          match rest with
          | String "-" r => (true, r)
          | String "+" r => (false, r)
          | _ => (false, rest)
          end in
        let '(e, len, rest'') := read_digits rest' 0%Z 0 in
        match len with
        | O => (0%Z, s)
        | _ => (if neg then (- e)%Z else e, rest'')
        end
      else (0%Z, s)
  | EmptyString => (0%Z, s)
  end.

(** Does the decimal [m * 10^e] (with [m > 0]) round to zero as a double,
    that is, is it at most [2^-1075]? *)
Definition rounds_to_zero (m e : Z) : bool :=
  ((e <? 0) && (m * 2 ^ 1075 <=? 10 ^ (- e)))%Z.

(** The sign of [parseFloat(s)]. *)
Definition ref_parseFloat (s : string) : FloatSign :=
  let s := skip is_space s in
  let '(neg, s) :=
    match s with
    | String "-" r => (true, r)
    | String "+" r => (false, r)
    | _ => (false, s)
    end in
  if prefix "Infinity" s then (if neg then FNeg else FPos)
  else
    let '(int_part, int_len, s) := read_digits s 0%Z 0 in
    let '(mantissa, frac_len, s) :=
      match s with
      | String "." r =>
          let '(m, l, r') := read_digits r int_part 0 in (m, l, r')
      | _ => (int_part, 0, s)
      end in
    match (int_len + frac_len)%nat with
    | O => FNaN
    | _ =>
        let '(e, _) := read_exponent s in
        let e10 := (e - Z.of_nat frac_len)%Z in
        if (mantissa =? 0)%Z then FZero
        else if rounds_to_zero mantissa e10 then FZero
        else if neg then FNeg else FPos
    end.

(** *** JSON text *)

Fixpoint expect (lit s : string) : option string :=
  match lit, s with
  | EmptyString, _ => Some s
  | String a lit', String b s' => if Ascii.eqb a b then expect lit' s' else None
  | _, EmptyString => None
  end.

(** The characters of a string literal after its opening quote. *)
Fixpoint read_string (s : string) (acc : string) : option (string * string) :=
  match s with
  | EmptyString => None
  | String c rest =>
      let n := nat_of_ascii c in
      if (n =? 34)%nat then Some (rev_string acc "", rest)
      else if (n =? 92)%nat then
        match rest with
        | String e rest' =>
            let m := nat_of_ascii e in
            if ((m =? 34) || (m =? 92) || (m =? 47))%nat then read_string rest' (String e acc)
            else if (m =? 98)%nat then read_string rest' (String (ascii_of_nat 8) acc)
            else if (m =? 102)%nat then read_string rest' (String (ascii_of_nat 12) acc)
            else if (m =? 110)%nat then read_string rest' (String (ascii_of_nat 10) acc)
            else if (m =? 114)%nat then read_string rest' (String (ascii_of_nat 13) acc)
            else if (m =? 116)%nat then read_string rest' (String (ascii_of_nat 9) acc)
            else None
        | EmptyString => None
        end
      else if (n <? 32)%nat then None
      else read_string rest (String c acc)
  end.

(** A number literal, as the exact value of its decimal. *)
Definition read_number (s : string) : option (Q * string) :=
  let '(neg, s) :=
    match s with
    | String "-" r => (true, r)
    | _ => (false, s)
    end in
  let '(int_part, int_len, s1) := read_digits s 0%Z 0 in
  let leading_zero :=
    match s with
    | String "0" _ => negb (int_len =? 1)%nat
    | _ => false
    end in
  if (int_len =? 0)%nat || leading_zero then None
  else
    let frac :=
      match s1 with
      | String "." r =>
          let '(m, l, r') := read_digits r int_part 0 in
          match l with
          | O => None
          | _ => Some (m, l, r')
          end
      | _ => Some (int_part, 0, s1)
      end in
    match frac with
    | None => None
    | Some (mantissa, frac_len, s2) =>
        let '(e, s3) := read_exponent s2 in
        let e10 := (e - Z.of_nat frac_len)%Z in
        let m := if neg then (- mantissa)%Z else mantissa in
        let q :=
          if (0 <=? e10)%Z then Qmake (m * 10 ^ e10) 1
          else Qmake m (Z.to_pos (10 ^ (- e10))) in
        Some (q, s3)
    end.

Fixpoint parse_value (fuel : nat) (s : string) : option (JSON * string) :=
  match fuel with
  | O => None
  | S fuel' =>
      match skip is_json_space s with
      | EmptyString => None
      | String c rest as s0 =>
          let n := nat_of_ascii c in
          if (n =? 110)%nat then option_map (pair JNull) (expect "null" s0)
          else if (n =? 116)%nat then option_map (pair (JBool true)) (expect "true" s0)
          else if (n =? 102)%nat then option_map (pair (JBool false)) (expect "false" s0)
          else if (n =? 34)%nat then
            match read_string rest "" with
            | Some (str, rest') => Some (JStr str, rest')
            | None => None
            end
          else if (n =? 91)%nat then
            match skip is_json_space rest with
            | String "]" rest' => Some (JArr [], rest')
            | _ =>
                match parse_items fuel' rest with
                | Some (items, rest') => Some (JArr items, rest')
                | None => None
                end
            end
          else if (n =? 123)%nat then
            match skip is_json_space rest with
            | String "}" rest' => Some (JObj [], rest')
            | _ =>
                match parse_members fuel' rest with
                | Some (members, rest') => Some (JObj members, rest')
                | None => None
                end
            end
          else
            match read_number s0 with
            | Some (q, rest') => Some (JNum q, rest')
            | None => None
            end
      end
  end

with parse_items (fuel : nat) (s : string) : option (list JSON * string) :=
  match fuel with
  | O => None
  | S fuel' =>
      match parse_value fuel' s with
      | None => None
      | Some (v, rest) =>
          match skip is_json_space rest with
          | String "," rest' =>
              match parse_items fuel' rest' with
              | Some (vs, rest'') => Some (v :: vs, rest'')
              | None => None
              end
          | String "]" rest' => Some ([v], rest')
          | _ => None
          end
      end
  end

with parse_members (fuel : nat) (s : string) : option (list (string * JSON) * string) :=
  match fuel with
  | O => None
  | S fuel' =>
      match skip is_json_space s with
      | String c rest =>
          if (nat_of_ascii c =? 34)%nat then
            match read_string rest "" with
            | None => None
            | Some (key, rest1) =>
                match skip is_json_space rest1 with
                | String ":" rest2 =>
                    match parse_value fuel' rest2 with
                    | None => None
                    | Some (v, rest3) =>
                        match skip is_json_space rest3 with
                        | String "," rest4 =>
                            match parse_members fuel' rest4 with
                            | Some (ms, rest5) => Some ((key, v) :: ms, rest5)
                            | None => None
                            end
                        | String "}" rest4 => Some ([(key, v)], rest4)
                        | _ => None
                        end
                    end
                | _ => None
                end
            end
          else None
      | EmptyString => None
      end
  end.

Definition ref_JSON_parse (s : string) : option JSON :=
  match parse_value (2 * String.length s + 2) s with
  | Some (v, rest) =>
      match skip is_json_space rest with
      | EmptyString => Some v
      | _ => None
      end
  | None => None
  end.

Fixpoint digits_of (fuel : nat) (n : Z) (acc : string) : string :=
  match fuel with
  | O => acc
  | S fuel' =>
      let acc' := String (ascii_of_nat (48 + Z.to_nat (n mod 10))) acc in
      if (n <? 10)%Z then acc' else digits_of fuel' (n / 10)%Z acc'
  end.

Definition nat_text (n : Z) : string := digits_of (S (Z.to_nat n)) n "".

(** Integers print as in JavaScript; other values as a fraction, which is
    enough to tell them apart in a path. *)
Definition ref_Number_toString (q : Q) : string :=
  let q := Qred q in
  let n := Qnum q in
  let sign := if (n <? 0)%Z then "-" else "" in
  (if (Zpos (Qden q) =? 1)%Z then sign ++ nat_text (Z.abs n)
   else sign ++ nat_text (Z.abs n) ++ "/" ++ nat_text (Zpos (Qden q)))%string.

(** [(x * 100).toFixed(2)] on the exact value: round to the nearest
    hundredth, ties upward. *)
Definition ref_percent_toFixed2 (q : Q) : string :=
  let n := Qnum q in
  let d := Zpos (Qden q) in
  let cents := ((2 * n * 10000 + d) / (2 * d))%Z in
  let sign := if (cents <? 0)%Z then "-" else "" in
  let a := Z.abs cents in
  let frac := (a mod 100)%Z in
  (sign ++ nat_text (a / 100) ++ "." ++ (if (frac <? 10)%Z then "0" else "") ++ nat_text frac)%string.

End Reference.

#[local] Instance reference_builtins : Builtins := {|
  JSON_parse := Reference.ref_JSON_parse;
  parseFloat := Reference.ref_parseFloat;
  trim := Reference.ref_trim;
  toLowerCase := Reference.ref_toLowerCase;
  Number_toString := Reference.ref_Number_toString;
  percent_toFixed2 := Reference.ref_percent_toFixed2
|}.

(** ** Scripted environments

    A [Script] fixes the answers of the outside world; construction and
    status answers may depend on how many such requests were made before
    for the same transaction. *)

Record Script : Type := mkScript {
  sc_yields : Response YieldsPage;
  sc_detail : Response YieldOpportunity;
  sc_position : Response (list Balance);
  sc_positions : Response (list YieldBalances);
  sc_idle : Response (list TokenBalance);
  sc_session : Response Session;
  sc_construct : string -> nat -> Response (option UnsignedTx);
  sc_submit : string -> Response JSON;
  sc_status : string -> nat -> Response (option TxStatus);
  sc_sign : JSON -> Promise string;
  sc_chat : string -> Promise ChatCompletion }.

Definition earlier_constructs (txId : string) (h : Trace) : nat :=
  List.length
    (filter (fun e => match e with EvFetch (ConstructTx t) _ => t =? txId | _ => false end) h).

Definition earlier_status (txId : string) (h : Trace) : nat :=
  List.length
    (filter (fun e => match e with EvFetch (StatusTx t) _ => t =? txId | _ => false end) h).

Definition scripted (sc : Script) : Env :=
  mkEnv
    (fun h r =>
       match r as r0 return Response (resp_type r0) with
       | ListYields => sc_yields sc
       | YieldDetail _ => sc_detail sc
       | PositionBalance _ _ => sc_position sc
       | PositionBalances _ => sc_positions sc
       | IdleBalances _ => sc_idle sc
       | ActionSession _ _ _ _ => sc_session sc
       | ConstructTx t => sc_construct sc t (earlier_constructs t h)
       | SubmitTx t _ => sc_submit sc t
       | StatusTx t => sc_status sc t (earlier_status t h)
       end)
    (fun _ _ payload => sc_sign sc payload)
    (fun _ _ user => sc_chat sc user).

(** The answer of the reasoning service with text [text]. *)
Definition says (text : string) : Promise ChatCompletion :=
  Resolved (mkChat [mkChoice (Some (mkMessage (Some text)))]).

Definition demo_wallet : Wallet := mkWallet "0xA11CE".

Definition demo_yield : YieldOpportunity :=
  mkYield "Y1" (1 # 10) (Some (mkToken (Some "0xT0KEN") "TKN"))
          (mkMetadata "Yield One" None None None) (mkYieldStatus true true).

Definition demo_tx (txId : string) : Transaction := mkTx txId "STAKE" "CREATED".

(** An unsigned payload, the text of an empty JSON object. *)
Definition demo_unsigned : UnsignedTx := mkUnsigned "{}".

(** A world where everything succeeds: one yield, a staked position of 50,
    an idle balance of 100, a session of one transaction that confirms at
    the second status query. *)
Definition calm : Script :=
  mkScript
    (Ok (mkPage [demo_yield]))
    (Ok demo_yield)
    (Ok [mkBalance "staked" "50"])
    (Ok [mkYieldBalances "Y1" [mkBalance "staked" "50"]])
    (Ok [mkTokenBalance "100" (mkToken (Some "0xT0KEN") "TKN")])
    (Ok (mkSession [demo_tx "tx1"]))
    (fun _ _ => Ok (Some demo_unsigned))
    (fun _ => Ok (JObj []))
    (fun _ n => match n with
                | O => Ok (Some (mkTxStatus "PENDING" None))
                | _ => Ok (Some (mkTxStatus "CONFIRMED" (Some "https://scan/tx1")))
                end)
    (fun _ => Resolved "0xSIGNED")
    (fun _ => says "nothing to do").

Definition with_construct (f : string -> nat -> Response (option UnsignedTx)) (sc : Script)
  : Script :=
  mkScript (sc_yields sc) (sc_detail sc) (sc_position sc) (sc_positions sc) (sc_idle sc)
           (sc_session sc) f (sc_submit sc) (sc_status sc) (sc_sign sc) (sc_chat sc).

Definition with_status (f : string -> nat -> Response (option TxStatus)) (sc : Script)
  : Script :=
  mkScript (sc_yields sc) (sc_detail sc) (sc_position sc) (sc_positions sc) (sc_idle sc)
           (sc_session sc) (sc_construct sc) (sc_submit sc) f (sc_sign sc) (sc_chat sc).

Definition with_submit (f : string -> Response JSON) (sc : Script) : Script :=
  mkScript (sc_yields sc) (sc_detail sc) (sc_position sc) (sc_positions sc) (sc_idle sc)
           (sc_session sc) (sc_construct sc) f (sc_status sc) (sc_sign sc) (sc_chat sc).

Definition with_sign (f : JSON -> Promise string) (sc : Script) : Script :=
  mkScript (sc_yields sc) (sc_detail sc) (sc_position sc) (sc_positions sc) (sc_idle sc)
           (sc_session sc) (sc_construct sc) (sc_submit sc) (sc_status sc) f (sc_chat sc).

Definition with_position (r : Response (list Balance)) (sc : Script) : Script :=
  mkScript (sc_yields sc) (sc_detail sc) r (sc_positions sc) (sc_idle sc)
           (sc_session sc) (sc_construct sc) (sc_submit sc) (sc_status sc) (sc_sign sc)
           (sc_chat sc).

Definition with_idle (r : Response (list TokenBalance)) (sc : Script) : Script :=
  mkScript (sc_yields sc) (sc_detail sc) (sc_position sc) (sc_positions sc) r
           (sc_session sc) (sc_construct sc) (sc_submit sc) (sc_status sc) (sc_sign sc)
           (sc_chat sc).

Definition with_detail (r : Response YieldOpportunity) (sc : Script) : Script :=
  mkScript (sc_yields sc) r (sc_position sc) (sc_positions sc) (sc_idle sc)
           (sc_session sc) (sc_construct sc) (sc_submit sc) (sc_status sc) (sc_sign sc)
           (sc_chat sc).

Definition with_session (r : Response Session) (sc : Script) : Script :=
  mkScript (sc_yields sc) (sc_detail sc) (sc_position sc) (sc_positions sc) (sc_idle sc)
           r (sc_construct sc) (sc_submit sc) (sc_status sc) (sc_sign sc) (sc_chat sc).

Definition with_chat (f : string -> Promise ChatCompletion) (sc : Script) : Script :=
  mkScript (sc_yields sc) (sc_detail sc) (sc_position sc) (sc_positions sc) (sc_idle sc)
           (sc_session sc) (sc_construct sc) (sc_submit sc) (sc_status sc) (sc_sign sc) f.

(** Construction of ["tx1"] never succeeds; every other transaction is fine. *)
Definition tx1_unconstructible : Script :=
  with_construct
    (fun t n => if t =? "tx1" then (if (n =? 1)%nat then Unreachable else NotOk 503)
                else Ok (Some demo_unsigned))
    calm.

(** The second status query for ["tx1"] fails. *)
Definition tx1_status_unknown : Script :=
  with_status
    (fun t n =>
       if t =? "tx1" then
         match n with
         | O => Ok (Some (mkTxStatus "PENDING" None))
         | _ => NotOk 500
         end
       else Ok (Some (mkTxStatus "CONFIRMED" None)))
    calm.

(** The aggregator refuses the submission of ["tx2"]. *)
Definition tx2_submit_refused : Script :=
  with_submit (fun t => if t =? "tx2" then NotOk 500 else Ok (JObj [])) calm.

(** The signer refuses everything. *)
Definition signer_refuses : Script := with_sign (fun _ => Rejected) calm.

(** The state in which ["tx1"], taken up first, has just been submitted
    (in any of the scripts above that let it through). *)
Definition tx1_submitted : State :=
  emit initialState
       [EvLog (LogTx "STAKE");
        EvFetch (ConstructTx "tx1") (Ok (Some demo_unsigned));
        EvSign (JObj []) (Resolved "0xSIGNED");
        EvFetch (SubmitTx "tx1" "0xSIGNED") (Ok (JObj []));
        EvLog (LogSubmitted (JObj []))].

(** The state in which ["tx1"] is confirmed under [tx2_submit_refused]. *)
Definition tx1_confirmed : State :=
  emit tx1_submitted
       [EvFetch (StatusTx "tx1") (Ok (Some (mkTxStatus "PENDING" None)));
        EvLog LogPending; EvSleep 2000;
        EvFetch (StatusTx "tx1")
                (Ok (Some (mkTxStatus "CONFIRMED" (Some "https://scan/tx1"))));
        EvLog (LogConfirmed (Some "https://scan/tx1"))].

Definition with_yields (r : Response YieldsPage) (sc : Script) : Script :=
  mkScript r (sc_detail sc) (sc_position sc) (sc_positions sc) (sc_idle sc)
           (sc_session sc) (sc_construct sc) (sc_submit sc) (sc_status sc) (sc_sign sc)
           (sc_chat sc).

(** The aggregator does not answer the yield listing. *)
Definition offline : Script := with_yields (NotOk 502) calm.

(** The position holds rewards but no stake. *)
Definition no_stake : Script := with_position (Ok [mkBalance "rewards" "3"]) calm.

(** The stake is zero. *)
Definition zero_stake : Script := with_position (Ok [mkBalance "staked" "0.00"]) calm.

(** No idle balance of the yield's token. *)
Definition no_idle : Script := with_idle (Ok []) calm.

(** The staked amount, and the idle balance, is a text that is not a
    number. *)
Definition unparsable_stake : Script :=
  with_position (Ok [mkBalance "staked" "NaN"]) calm.

Definition unparsable_idle : Script :=
  with_idle (Ok [mkTokenBalance "NaN" (mkToken (Some "0xT0KEN") "TKN")]) calm.

(** A yield of the native token. *)
Definition native_yield : YieldOpportunity :=
  mkYield "Y2" (1 # 20) (Some (mkToken None "ETH"))
          (mkMetadata "Native Yield" None None None) (mkYieldStatus true true).

Definition native_world : Script := with_detail (Ok native_yield) calm.

Definition EXIT : JSValue := Some (JStr "EXIT").
Definition ENTER : JSValue := Some (JStr "ENTER").
Definition Y1 : JSValue := Some (JStr "Y1").

(** The step "withdraw 5 from Y1", as text and as parsed. *)
Definition block_of_one_step : string :=
  ("{" ++ dq ++ "steps" ++ dq ++ ": [{" ++ dq ++ "type" ++ dq ++ ": " ++ dq ++ "EXIT" ++ dq
       ++ ", " ++ dq ++ "integrationId" ++ dq ++ ": " ++ dq ++ "Y1" ++ dq
       ++ ", " ++ dq ++ "amount" ++ dq ++ ": " ++ dq ++ "5" ++ dq ++ "}]}")%string.

Definition exit_five : JSON :=
  JObj [("type", JStr "EXIT"); ("integrationId", JStr "Y1"); ("amount", JStr "5")].

(** The steps "withdraw all from Y1" and "deposit all into Y1". *)
Definition exit_all : JSON := JObj [("type", JStr "EXIT"); ("integrationId", JStr "Y1")].
Definition enter_all : JSON := JObj [("type", JStr "ENTER"); ("integrationId", JStr "Y1")].

(** An answer that ends with that block. *)
Definition terse_answer : string :=
  ("Withdrawing as asked." ++ nl ++
   "```json" ++ nl ++ block_of_one_step ++ nl ++ "```")%string.

(** The same answer, going on after the closing fence. *)
Definition trailing_text : string :=
  (nl ++ "Let me know if you need anything else.")%string.

Definition chatty_answer : string := (terse_answer ++ trailing_text)%string.

(** The answer "deposit all into Y1". *)
Definition deposit_answer : string :=
  ("Depositing your idle tokens." ++ nl ++
   "```json" ++ nl ++
   "{" ++ dq ++ "steps" ++ dq ++ ": [{" ++ dq ++ "type" ++ dq ++ ": " ++ dq ++ "ENTER" ++ dq
       ++ ", " ++ dq ++ "integrationId" ++ dq ++ ": " ++ dq ++ "Y1" ++ dq ++ "}]}" ++ nl ++
   "```")%string.

(** Answers for the other cases of intake. *)
Definition empty_object_answer : string :=
  ("All good." ++ nl ++ "```json" ++ nl ++ "{}" ++ nl ++ "```")%string.
Definition broken_answer : string :=
  ("```json" ++ nl ++ "{steps: oops" ++ nl ++ "```")%string.
Definition stepless_answer : string :=
  ("```json" ++ nl ++ "{" ++ dq ++ "description" ++ dq ++ ": 1}" ++ nl ++ "```")%string.
Definition plain_answer : string := "Your positions look fine.".

(** The calm world with a reasoning service that answers [text]. *)
Definition answering (text : string) : Script := with_chat (fun _ => says text) calm.

(** ** Vocabulary of the statements *)

(** A reply that makes [get], [post] or [patch] throw. *)
Definition failed {A} (reply : Response A) : bool :=
  match reply with
  | Ok _ => false
  | _ => true
  end.

(** The error thrown for a failed reply to [r]. *)
Definition error_of {B : Builtins} (r : Request) {A} (reply : Response A) : Exn :=
  match reply with
  | NotOk code => RequestFailed (method_of r) (path_of r) code
  | _ => PromiseRejected
  end.

(** One failed attempt of the construction loop, as it shows in the trace. *)
Definition failed_attempt (txId : string) (i : nat)
           (reply : Response (option UnsignedTx)) : list Event :=
  [EvFetch (ConstructTx txId) reply; EvLog (LogRetrying (i + 1)); EvSleep 1000].

(** The traces the construction loop can leave with [n] attempts left after
    [i] failed ones, and the value of [unsignedTx] it ends with. *)
Inductive ConstructTrace (txId : string)
  : nat -> nat -> list Event -> option UnsignedTx -> Prop :=
| CT_exhausted i :
    ConstructTrace txId 0 i [] None
| CT_answered n i body :
    ConstructTrace txId (S n) i [EvFetch (ConstructTx txId) (Ok body)] body
| CT_retry n i reply evs u :
    failed reply = true ->
    ConstructTrace txId n (S i) evs u ->
    ConstructTrace txId (S n) i (failed_attempt txId i reply ++ evs) u.

(** Number of construction requests in a trace. *)
Definition construct_requests (evs : list Event) : nat :=
  List.length
    (filter (fun e => match e with EvFetch (ConstructTx _) _ => true | _ => false end) evs).

(** Number of signing and submission attempts in a trace. *)
Definition sign_submit_attempts (evs : list Event) : nat :=
  List.length
    (filter (fun e =>
               match e with
               | EvSign _ _ => true
               | EvFetch (SubmitTx _ _) _ => true
               | _ => false
               end) evs).

(** Number of status queries in a trace. *)
Definition status_requests (evs : list Event) : nat :=
  List.length
    (filter (fun e => match e with EvFetch (StatusTx _) _ => true | _ => false end) evs).

(** A status answer that ends polling with a verdict. *)
Definition terminal (st : TxStatus) : bool :=
  (st_status st =? "CONFIRMED") || (st_status st =? "FAILED").

(** A reply to a status query that carries no status: an error, or a falsy body. *)
Definition no_status (reply : Response (option TxStatus)) : bool :=
  match reply with
  | Ok (Some _) => false
  | _ => true
  end.

(** One round of the status loop that goes on: the query, its pending
    answer, and the two-second delay. *)
Definition pending_round (txId : string) (st : TxStatus) : list Event :=
  [EvFetch (StatusTx txId) (Ok (Some st)); EvLog LogPending; EvSleep 2000].

(** The traces the status loop can leave, and how it ends. *)
Inductive PollTrace (txId : string) : list Event -> Outcome unit -> Prop :=
| PT_confirmed st :
    st_status st = "CONFIRMED" ->
    PollTrace txId [EvFetch (StatusTx txId) (Ok (Some st)); EvLog (LogConfirmed (st_url st))]
              (Ret tt)
| PT_failed st :
    st_status st = "FAILED" ->
    PollTrace txId [EvFetch (StatusTx txId) (Ok (Some st)); EvLog LogFailed] (Ret tt)
| PT_unknown reply :
    no_status reply = true ->
    PollTrace txId [EvFetch (StatusTx txId) reply; EvLog LogNoStatus] (Ret tt)
| PT_pending st evs o :
    terminal st = false ->
    PollTrace txId evs o ->
    PollTrace txId (pending_round txId st ++ evs) o
| PT_unfinished :
    PollTrace txId [] OutOfFuel.

Section Lifecycle.
Context {B : Builtins}.
Variable env : Env.

(** The [n]-th status query made from state [s] is the first whose answer
    is a verdict or carries no status. *)
Inductive SettlesAt (txId : string) : State -> nat -> Prop :=
| settles_now s :
    match fetch env (trace s) (StatusTx txId) with
    | Ok (Some st) => terminal st
    | _ => true
    end = true ->
    SettlesAt txId s 1
| settles_later s st n :
    fetch env (trace s) (StatusTx txId) = Ok (Some st) ->
    terminal st = false ->
    SettlesAt txId (emit s (pending_round txId st)) n ->
    SettlesAt txId s (S n).

(** Transaction [tx], taken up in state [s0], is not skipped and its
    construction ends in state [s1] with the unsigned transaction [u]. *)
Definition Constructed (tx : Transaction) (s0 : State) (u : UnsignedTx) (s1 : State) : Prop :=
  (tx_status tx =? "SKIPPED") = false /\
  construct_loop env 3 0 (tx_id tx) (emit s0 [EvLog (LogTx (tx_type tx))]) = (Ret (Some u), s1).

(** Transaction [tx], taken up in state [s0], reaches the submitted state
    in state [s]: it was constructed, signed and submitted. *)
Definition Submitted (wallet : Wallet) (tx : Transaction) (s0 s : State) : Prop :=
  exists u s1 payload signed result,
    Constructed tx s0 u s1 /\
    JSON_parse (unsignedTransaction u) = Some payload /\
    signTransaction env (trace s1) wallet payload = Resolved signed /\
    fetch env (trace s1 ++ [EvSign payload (Resolved signed)])
          (SubmitTx (tx_id tx) signed) = Ok result /\
    s = emit s1 [EvSign payload (Resolved signed);
                 EvFetch (SubmitTx (tx_id tx) signed) (Ok result);
                 EvLog (LogSubmitted result)].

End Lifecycle.

(** A computation only ever appends to the trace, and leaves the busy flag
    as it is. *)
Definition grows {A} (m : M A) : Prop :=
  forall s,
    (exists evs, trace (snd (m s)) = trace s ++ evs) /\
    earnAgentBusy (snd (m s)) = earnAgentBusy s.

(** The token whose idle balance an [ENTER] step asks for: the address of
    the yield's token, or none (the native token) when the yield has no
    token address. *)
Definition underlying_token (details : YieldOpportunity) : option string :=
  match token details with
  | Some t =>
      match token_address t with
      | Some a => if a =? "native" then None else Some a
      | None => None
      end
  | None => None
  end.

(** The idle balance read off the answer: the amount of its first entry,
    ["0"] when there is none or it is empty. *)
Definition idle_amount (balResp : list TokenBalance) : string :=
  match balResp with
  | b :: _ => if tb_amount b =? "" then "0" else tb_amount b
  | [] => "0"
  end.

(** The aggregator endpoint of a step. *)
Definition endpoint_of (type : JSValue) : string :=
  if strict_eq_str type "ENTER" then "enter" else "exit".

(** The first thing a run does from state [s1] on is to send request [req]. *)
Definition continues_with (env : Env) (req : Request) (s1 : State)
           (run : Outcome unit * State) : Prop :=
  exists evs,
    trace (snd run) = trace s1 ++ EvFetch req (fetch env (trace s1) req) :: evs.

(** The text of the reasoning service's answer: the content of the first
    choice's message, empty when there is none; no text at all when there
    is no choice (reading it throws). *)
Definition answer_text (chatResp : ChatCompletion) : option string :=
  match choices chatResp with
  | [] => None
  | c :: _ =>
      Some match message c with
           | None => ""
           | Some m =>
               match content m with
               | None => ""
               | Some text => text
               end
           end
  end.

(** The system prompt [buildSystemPrompt] returns for account data [d]. *)
Definition system_prompt {B : Builtins} (d : EarnAgentData) (instructions : string) : string :=
  (PROMPT_HEAD ++ earnAgentDataToString d ++ PROMPT_MIDDLE ++ instructions ++ PROMPT_TAIL)%string.

(** In state [s] the reasoning service answers the scenario with [text];
    [s1] is the state once the answer is on the console. *)
Definition Heard {B : Builtins} (env : Env) (instructions userMsg : string)
           (s : State) (text : string) (s1 : State) : Prop :=
  exists chatResp,
    let prompt := system_prompt (earnAgentData s) instructions in
    chat_completions_create env (trace s) prompt userMsg = Resolved chatResp /\
    answer_text chatResp = Some text /\
    s1 = emit s [EvChat prompt userMsg (Resolved chatResp);
                 EvLog (LogAgentSays (trim text))].

(** Requests that change something at the aggregator: an action session,
    the construction of a transaction, its submission. *)
Definition is_write (r : Request) : bool :=
  match r with
  | ActionSession _ _ _ _ | ConstructTx _ | SubmitTx _ _ => true
  | _ => false
  end.

Definition aggregator_writes (evs : list Event) : nat :=
  List.length
    (filter (fun e => match e with EvFetch r _ => is_write r | _ => false end) evs).

(** Requests to the aggregator of any kind. *)
Definition aggregator_calls (evs : list Event) : nat :=
  List.length (filter (fun e => match e with EvFetch _ _ => true | _ => false end) evs).

(** A computation neither reads nor writes the account data: run on a
    state with other data, it does the same and leaves that data. *)
Definition data_blind {A} (m : M A) : Prop :=
  forall d s, m (set_data d s) = (fst (m s), set_data d (snd (m s))).

Section StepVocabulary.
Context {B : Builtins}.
Variable env : Env.

(** What a step that returned has done between states [s] and [s1]: either
    it was skipped, leaving only read requests and console lines, or it
    created its session, drove the batch to its end, and finished with a
    refresh that returned in [s1]. *)
Inductive StepRun (fuel : nat) (wallet : Wallet) (type integrationId : JSValue)
  : State -> State -> Prop :=
| step_skipped s evs :
    aggregator_writes evs = 0 ->
    StepRun fuel wallet type integrationId s (emit s evs)
| step_refreshed s evs finalAmount session sb s1 :
    aggregator_writes evs = 0 ->
    let address := wallet_address wallet in
    let req := ActionSession (endpoint_of type) integrationId address finalAmount in
    fetch env (trace s ++ evs) req = Ok session ->
    processTransactions env fuel (transactions session) wallet
                        (emit s (evs ++ [EvFetch req (Ok session)])) = (Ret tt, sb) ->
    refreshEarnAgentData env address (emit sb [EvLog (LogStepDone type integrationId)])
      = (Ret tt, s1) ->
    StepRun fuel wallet type integrationId s s1.

(** What a list of steps that returned has done: each step in turn, the
    next one starting in the state the one before ended in. *)
Inductive StepsRun (fuel : nat) (wallet : Wallet) : list JSON -> State -> State -> Prop :=
| steps_done s :
    StepsRun fuel wallet [] s s
| steps_next step rest s s1 s2 :
    step <> JNull ->
    StepRun fuel wallet (own_property step "type") (own_property step "integrationId") s s1 ->
    StepsRun fuel wallet rest s1 s2 ->
    StepsRun fuel wallet (step :: rest) s s2.

(** The cycle a trigger starts when the agent is not busy. *)
Definition cycle_of (fuel : nat) (wallet : Wallet) (t : Trigger) : M unit :=
  match t with
  | Tick =>
      bind (refreshEarnAgentData env (wallet_address wallet))
           (fun _ => earnAgentIntervalCheck env fuel wallet)
  | Input userMsg => handleChat env fuel userMsg wallet
  end.

End StepVocabulary.

(** The console line of a trigger that finds the agent busy. *)
Definition busy_line (t : Trigger) : LogLine :=
  match t with
  | Tick => LogBusySkipInterval
  | Input _ => LogBusyPleaseWait
  end.

(** The console line of a cycle that failed. *)
Definition error_line (t : Trigger) : LogLine :=
  match t with
  | Tick => LogIntervalError
  | Input _ => LogChatError
  end.

(** The state once the answer [text] to the chat message ["hello"] is on
    the console, from the initial state. *)
Definition heard {B : Builtins} (text : string) : State :=
  emit initialState
       [EvChat (system_prompt initialData CHAT_INSTRUCTIONS) "hello" (says text);
        EvLog (LogAgentSays (trim text))].

(** ** Vocabulary of the further properties *)

(** Yields in the order [filterSortYields] leaves them: a higher [apy]
    never after a lower one. *)
Definition apy_desc (a b : YieldOpportunity) : Prop := (apy b <= apy a)%Q.

(** The positions the inner loop of [fetchEarningPositions] adds for one
    answered item: one when its staked entry is above zero, none otherwise. *)
Definition position_of {B : Builtins} (item : YieldBalances) : list EarningPosition :=
  match staked_entry (balances item) with
  | Some staked =>
      if gt0 (parseFloat (bal_amount staked))
      then [mkPosition (yb_integrationId item) (bal_amount staked)]
      else []
  | None => []
  end.

(** The bodies of the position queries in a trace, in order. *)
Fixpoint position_payloads (evs : list Event) : list (list (string * string)) :=
  match evs with
  | [] => []
  | EvFetch (PositionBalances payload) _ :: rest => payload :: position_payloads rest
  | _ :: rest => position_payloads rest
  end.

(** The key under which [fetchUserBalances] files a balance. *)
Definition balance_key {B : Builtins} (b : TokenBalance) : string :=
  match token_address (tb_token b) with
  | None => "native"
  | Some a => if a =? "" then "native" else toLowerCase a
  end.

(** All the events a computation appends to the trace satisfy [P]. *)
Definition emits (P : Event -> Prop) {A} (m : M A) : Prop :=
  forall s, exists evs, trace (snd (m s)) = trace s ++ evs /\ Forall P evs.

(** An event of a computation that only looks: a request that writes
    nothing at the aggregator, or a console line. *)
Definition read_only (e : Event) : Prop :=
  match e with
  | EvFetch r _ => is_write r = false
  | EvLog _ => True
  | _ => False
  end.

(** The items of the answered position queries in a trace, in order. *)
Definition answered_items (e : Event) : list YieldBalances :=
  match e with
  | EvFetch r reply =>
      match r as r0 return Response (resp_type r0) -> list YieldBalances with
      | PositionBalances _ =>
          fun reply => match reply with Ok resp => resp | _ => [] end
      | _ => fun _ => []
      end reply
  | _ => []
  end.

Definition position_answers (evs : list Event) : list YieldBalances :=
  flat_map answered_items evs.

(** The entries a position query asks about: one per yield, for [address]. *)
Definition position_entries (address : string) (yields : list YieldOpportunity)
  : list (string * string) :=
  map (fun y => (address, id y)) yields.

(** An event that is a console line. *)
Definition console_only (e : Event) : Prop :=
  match e with
  | EvLog _ => True
  | _ => False
  end.

(** An event of the lifecycle of one of the transactions [ids]: its
    construction, its signing, its submission, a status query, a delay or a
    console line. *)
Definition lifecycle_of (ids : list string) (e : Event) : Prop :=
  match e with
  | EvFetch (ConstructTx t) _ => In t ids
  | EvFetch (SubmitTx t _) _ => In t ids
  | EvFetch (StatusTx t) _ => In t ids
  | EvFetch _ _ => False
  | EvChat _ _ _ => False
  | _ => True
  end.

(** The identifiers of the transactions of a batch that are not skipped. *)
Definition live_ids (txs : list Transaction) : list string :=
  map tx_id (filter (fun tx => negb (tx_status tx =? "SKIPPED")) txs).

(** Number of action sessions created in a trace. *)
Definition action_sessions (evs : list Event) : nat :=
  List.length
    (filter (fun e => match e with EvFetch (ActionSession _ _ _ _) _ => true | _ => false end)
            evs).

(** [a] is the token address of one of the [yields]. *)
Definition has_token_address (yields : list YieldOpportunity) (a : string) : Prop :=
  exists y t, In y yields /\ token y = Some t /\ token_address t = Some a.

(** A computation leaves the account data as it found it. *)
Definition keeps_data {A} (m : M A) : Prop :=
  forall s, earnAgentData (snd (m s)) = earnAgentData s.

(** A computation creates at most [n] action sessions, whatever its outcome. *)
Definition creates_at_most (n : nat) {A} (m : M A) : Prop :=
  forall s, exists evs,
    trace (snd (m s)) = trace s ++ evs /\ (action_sessions evs <= n)%nat.

(** An event that is not the creation of an action session. *)
Definition no_session (e : Event) : Prop :=
  match e with
  | EvFetch (ActionSession _ _ _ _) _ => False
  | _ => True
  end.

Definition detail_down : Script := with_detail Unreachable calm.
Definition idle_query_down : Script := with_idle (NotOk 500) calm.

(** A world whose construction request is answered with an empty body. *)
Definition empty_construction : Script := with_construct (fun _ _ => Ok None) calm.

(** A world whose reasoning service is down, and one that answers with no
    choice at all. *)
Definition chat_down : Script := with_chat (fun _ => Rejected) calm.
Definition chat_without_choice : Script := with_chat (fun _ => Resolved (mkChat [])) calm.

(** Every submission in [evs] comes right after the signature it carries,
    which comes right after the successful construction, for the same
    transaction, of the payload that was signed. *)
Definition submissions_are_signed {B : Builtins} (evs : list Event) : Prop :=
  forall pre t signed reply post,
    evs = pre ++ EvFetch (SubmitTx t signed) reply :: post ->
    exists pre' u payload,
      pre = pre' ++ [EvFetch (ConstructTx t) (Ok (Some u));
                     EvSign payload (Resolved signed)] /\
      JSON_parse (unsignedTransaction u) = Some payload.

(** An event that is not a submission. *)
Definition not_submit (e : Event) : Prop :=
  match e with
  | EvFetch (SubmitTx _ _) _ => False
  | _ => True
  end.

(** [e] is no submission, or it is the submission of what [p1] signed,
    which is what [p2] constructed. *)
Definition link {B : Builtins} (p2 p1 : option Event) (e : Event) : Prop :=
  match e with
  | EvFetch (SubmitTx t signed) _ =>
      exists u payload,
        p2 = Some (EvFetch (ConstructTx t) (Ok (Some u))) /\
        JSON_parse (unsignedTransaction u) = Some payload /\
        p1 = Some (EvSign payload (Resolved signed))
  | _ => True
  end.

(** [link] along a list of events, [p2] and [p1] being the two events
    before it. *)
Fixpoint chained {B : Builtins} (p2 p1 : option Event) (evs : list Event) : Prop :=
  match evs with
  | [] => True
  | e :: rest => link p2 p1 e /\ chained p1 (Some e) rest
  end.

(** The two events before the end of [evs], after [p2] and [p1]. *)
Fixpoint slide (p2 p1 : option Event) (evs : list Event) : option Event * option Event :=
  match evs with
  | [] => (p2, p1)
  | e :: rest => slide p1 (Some e) rest
  end.

(** * Properties *)

(** ** The trace *)

Lemma emit_emit (s : State) (a b : list Event) :
  emit (emit s a) b = emit s (a ++ b).
Proof. unfold emit; simpl. now rewrite <- app_assoc. Qed.

Lemma emit_nil (s : State) : emit s [] = s.
Proof. destruct s; unfold emit; simpl. now rewrite app_nil_r. Qed.

Lemma trace_emit (s : State) (evs : list Event) :
  trace (emit s evs) = trace s ++ evs.
Proof. reflexivity. Qed.

Lemma ConstructTrace_requests txId n i evs u :
  ConstructTrace txId n i evs u -> construct_requests evs <= n.
Proof.
  induction 1 as [i | n i body | n i reply evs u Hf Hrun IH].
  - apply Nat.le_refl.
  - unfold construct_requests; simpl. apply le_n_S, Nat.le_0_l.
  - unfold construct_requests in *; simpl. now apply le_n_S.
Qed.

Lemma ConstructTrace_no_signing txId n i evs u :
  ConstructTrace txId n i evs u -> sign_submit_attempts evs = 0.
Proof.
  induction 1 as [i | n i body | n i reply evs u Hf Hrun IH]; try reflexivity.
  unfold sign_submit_attempts in *; simpl. exact IH.
Qed.

Section LifecycleProperties.
Context {B : Builtins}.
Variable env : Env.

Lemma request_ok (r : Request) (s : State) (body : resp_type r) :
  fetch env (trace s) r = Ok body ->
  request env r s = (Ret body, emit s [EvFetch r (Ok body)]).
Proof. intros H. unfold request. now rewrite H. Qed.


(** *** Construction *)

Lemma construct_loop_trace (txId : string) (n i : nat) (s : State) :
  exists evs u,
    construct_loop env n i txId s = (Ret u, emit s evs) /\
    ConstructTrace txId n i evs u.
Proof.
  revert i s. induction n as [| n IH]; intros i s.
  - exists [], None. simpl. rewrite emit_nil. split; [reflexivity | constructor].
  - simpl. unfold bind, attempt, request.
    destruct (fetch env (trace s) (ConstructTx txId)) as [body | code |] eqn:E.
    + exists [EvFetch (ConstructTx txId) (Ok body)], body.
      split; [reflexivity | constructor].
    + simpl.
      destruct (IH (S i)
        (emit (emit (emit s [EvFetch (ConstructTx txId) (NotOk code)])
                    [EvLog (LogRetrying (i + 1))]) [EvSleep 1000]))
        as (evs & u & Hrun & Htr).
      exists (failed_attempt txId i (NotOk code) ++ evs), u. split.
      * etransitivity; [exact Hrun |]. now rewrite !emit_emit.
      * now constructor.
    + simpl.
      destruct (IH (S i)
        (emit (emit (emit s [EvFetch (ConstructTx txId) Unreachable])
                    [EvLog (LogRetrying (i + 1))]) [EvSleep 1000]))
        as (evs & u & Hrun & Htr).
      exists (failed_attempt txId i Unreachable ++ evs), u. split.
      * etransitivity; [exact Hrun |]. now rewrite !emit_emit.
      * now constructor.
Qed.

(** A failed attempt leaves its three events and goes to the next attempt. *)
Lemma construct_loop_retry (txId : string) (n i : nat) (s : State) :
  failed (fetch env (trace s) (ConstructTx txId)) = true ->
  construct_loop env (S n) i txId s =
  construct_loop env n (S i) txId
    (emit s (failed_attempt txId i (fetch env (trace s) (ConstructTx txId)))).
Proof.
  intros Hf. simpl. unfold bind, attempt, request.
  destruct (fetch env (trace s) (ConstructTx txId)) as [body | code |];
    [discriminate | |]; simpl; now rewrite !emit_emit.
Qed.

(** What the driver does with a transaction that is not skipped. *)
Lemma processTransactions_cons (fuel : nat) (tx : Transaction) (rest : list Transaction)
      (wallet : Wallet) (s : State) :
  (tx_status tx =? "SKIPPED") = false ->
  processTransactions env fuel (tx :: rest) wallet s =
  match construct_loop env 3 0 (tx_id tx) (emit s [EvLog (LogTx (tx_type tx))]) with
  | (Ret None, s1) =>
      processTransactions env fuel rest wallet (emit s1 [EvLog LogCannotConstruct])
  | (Ret (Some u), s1) =>
      match sign_submit_poll env fuel tx wallet u s1 with
      | (Ret _, s2) => processTransactions env fuel rest wallet s2
      | (Throw e, s2) => (Throw e, s2)
      | (OutOfFuel, s2) => (OutOfFuel, s2)
      end
  | (Throw e, s1) => (Throw e, s1)
  | (OutOfFuel, s1) => (OutOfFuel, s1)
  end.
Proof.
  intros Hskip. cbn [processTransactions]. rewrite Hskip.
  unfold bind at 1. cbn [log].
  unfold bind at 1.
  destruct (construct_loop env 3 0 (tx_id tx) (emit s [EvLog (LogTx (tx_type tx))]))
    as [[[u |] | e |] s1]; try reflexivity.
Qed.

(** C2. A transaction that is not skipped is constructed in at most three
    requests, each failed one followed by a one-second delay, and the
    construction loop always returns.  When all three requests fail,
    nothing is signed or submitted for the transaction and the driver goes
    on with the rest of the batch. *)
Theorem construction_bounded_then_next_transaction
        (fuel : nat) (tx : Transaction) (rest : list Transaction)
        (wallet : Wallet) (s : State) :
  (tx_status tx =? "SKIPPED") = false ->
  let txId := tx_id tx in
  let s0 := emit s [EvLog (LogTx (tx_type tx))] in
  (exists evs u,
      construct_loop env 3 0 txId s0 = (Ret u, emit s0 evs) /\
      ConstructTrace txId 3 0 evs u /\
      construct_requests evs <= 3 /\
      sign_submit_attempts evs = 0) /\
  (let r1 := fetch env (trace s0) (ConstructTx txId) in
   let s1 := emit s0 (failed_attempt txId 0 r1) in
   let r2 := fetch env (trace s1) (ConstructTx txId) in
   let s2 := emit s1 (failed_attempt txId 1 r2) in
   let r3 := fetch env (trace s2) (ConstructTx txId) in
   let s3 := emit s2 (failed_attempt txId 2 r3) in
   failed r1 = true -> failed r2 = true -> failed r3 = true ->
   processTransactions env fuel (tx :: rest) wallet s =
   processTransactions env fuel rest wallet (emit s3 [EvLog LogCannotConstruct])).
Proof.
  intros Hskip txId s0. split.
  - destruct (construct_loop_trace txId 3 0 s0) as (evs & u & Hrun & Htr).
    exists evs, u. repeat split; trivial.
    + eapply ConstructTrace_requests; eassumption.
    + eapply ConstructTrace_no_signing; eassumption.
  - intros r1 s1 r2 s2 r3 s3 H1 H2 H3.
    rewrite (processTransactions_cons fuel tx rest wallet s Hskip).
    fold txId s0.
    rewrite (construct_loop_retry txId 2 0 s0 H1). fold r1 s1.
    rewrite (construct_loop_retry txId 1 1 s1 H2). fold r2 s2.
    rewrite (construct_loop_retry txId 0 2 s2 H3). fold r3 s3.
    reflexivity.
Qed.

(** *** Status polling *)

(** One round of the status loop, by the answer to its query. *)
Lemma poll_status_round (fuel : nat) (txId : string) (s : State) :
  poll_status env (S fuel) txId s =
  match fetch env (trace s) (StatusTx txId) as reply
        return Response (option TxStatus) -> Outcome unit * State with
  | Ok (Some st) => fun reply =>
      if st_status st =? "CONFIRMED"
      then (Ret tt, emit s [EvFetch (StatusTx txId) reply; EvLog (LogConfirmed (st_url st))])
      else if st_status st =? "FAILED"
      then (Ret tt, emit s [EvFetch (StatusTx txId) reply; EvLog LogFailed])
      else poll_status env fuel txId (emit s (pending_round txId st))
  | _ => fun reply => (Ret tt, emit s [EvFetch (StatusTx txId) reply; EvLog LogNoStatus])
  end (fetch env (trace s) (StatusTx txId)).
Proof.
  cbn [poll_status]. unfold bind, attempt, request.
  destruct (fetch env (trace s) (StatusTx txId)) as [[st |] | code |]; simpl;
    unfold log; rewrite ?emit_emit; try reflexivity.
  destruct (st_status st =? "CONFIRMED"); [now rewrite emit_emit |].
  destruct (st_status st =? "FAILED"); [now rewrite emit_emit |].
  now rewrite !emit_emit.
Qed.

Lemma poll_status_trace (fuel : nat) (txId : string) (s : State) :
  exists evs o,
    poll_status env fuel txId s = (o, emit s evs) /\ PollTrace txId evs o.
Proof.
  revert s. induction fuel as [| fuel IH]; intros s.
  - exists [], OutOfFuel. simpl. unfold out_of_fuel. rewrite emit_nil.
    split; [reflexivity | constructor].
  - rewrite poll_status_round.
    destruct (fetch env (trace s) (StatusTx txId)) as [[st |] | code |] eqn:E.
    + destruct (st_status st =? "CONFIRMED") eqn:Ec.
      { eexists _, _. split; [reflexivity |].
        apply PT_confirmed. now apply String.eqb_eq. }
      destruct (st_status st =? "FAILED") eqn:Ef.
      { eexists _, _. split; [reflexivity |].
        apply PT_failed. now apply String.eqb_eq. }
      destruct (IH (emit s (pending_round txId st))) as (evs & o & Hrun & Htr).
      exists (pending_round txId st ++ evs), o. split.
      * rewrite Hrun. now rewrite emit_emit.
      * apply PT_pending; [| exact Htr]. unfold terminal. now rewrite Ec, Ef.
    + eexists _, _. split; [reflexivity |]. now apply PT_unknown.
    + eexists _, _. split; [reflexivity |]. now apply PT_unknown.
    + eexists _, _. split; [reflexivity |]. now apply PT_unknown.
Qed.

Lemma poll_status_settles (txId : string) (s : State) (n : nat) :
  SettlesAt env txId s n ->
  forall fuel, n <= fuel ->
  exists evs,
    poll_status env fuel txId s = (Ret tt, emit s evs) /\ status_requests evs = n.
Proof.
  induction 1 as [s Hnow | s st n Hreply Hpend Hlater IH]; intros fuel Hfuel.
  - destruct fuel as [| fuel]; [inversion Hfuel |].
    rewrite poll_status_round.
    destruct (fetch env (trace s) (StatusTx txId)) as [[st |] | code |].
    + unfold terminal in Hnow.
      destruct (st_status st =? "CONFIRMED"); [eexists; split; reflexivity |].
      destruct (st_status st =? "FAILED"); [eexists; split; reflexivity |].
      discriminate.
    + eexists; split; reflexivity.
    + eexists; split; reflexivity.
    + eexists; split; reflexivity.
  - destruct fuel as [| fuel]; [inversion Hfuel |].
    apply le_S_n in Hfuel.
    destruct (IH fuel Hfuel) as (evs & Hrun & Hcount).
    exists (pending_round txId st ++ evs). split.
    + rewrite poll_status_round.
      unfold terminal in Hpend. apply orb_false_elim in Hpend as [Hc Hf].
      rewrite Hreply, Hc, Hf, Hrun. now rewrite emit_emit.
    + unfold status_requests in *. simpl. now rewrite Hcount.
Qed.

(** *** The driver around one transaction *)

(** The driver on a batch that is split in two: the second part is taken up
    in the state the first part returns in, and not at all if the first
    part throws. *)
Lemma processTransactions_app (fuel : nat) (pre post : list Transaction)
      (wallet : Wallet) (s : State) :
  processTransactions env fuel (pre ++ post) wallet s =
  match processTransactions env fuel pre wallet s with
  | (Ret _, s') => processTransactions env fuel post wallet s'
  | (Throw e, s') => (Throw e, s')
  | (OutOfFuel, s') => (OutOfFuel, s')
  end.
Proof.
  revert s. induction pre as [| tx pre IH]; intros s; [reflexivity |].
  rewrite <- app_comm_cons.
  destruct (tx_status tx =? "SKIPPED") eqn:Hskip.
  - cbn [processTransactions]. rewrite Hskip. apply IH.
  - rewrite !processTransactions_cons by exact Hskip.
    destruct (construct_loop env 3 0 (tx_id tx) (emit s [EvLog (LogTx (tx_type tx))]))
      as [[[u |] | e |] s1]; try reflexivity.
    + destruct (sign_submit_poll env fuel tx wallet u s1) as [[[] | e |] s2];
        try reflexivity. apply IH.
    + apply IH.
Qed.

(** Once a transaction is submitted, what is left of its processing is the
    status loop. *)
Lemma processTransactions_submitted (fuel : nat) (tx : Transaction)
      (rest : list Transaction) (wallet : Wallet) (s0 s : State) :
  Submitted env wallet tx s0 s ->
  processTransactions env fuel (tx :: rest) wallet s0 =
  match poll_status env fuel (tx_id tx) s with
  | (Ret _, s') => processTransactions env fuel rest wallet s'
  | (Throw e, s') => (Throw e, s')
  | (OutOfFuel, s') => (OutOfFuel, s')
  end.
Proof.
  intros (u & s1 & payload & signed & result & [Hskip Hcons] & Hparse & Hsign & Hsub & ->).
  rewrite (processTransactions_cons fuel tx rest wallet s0 Hskip), Hcons.
  unfold sign_submit_poll, json_parse, bind at 1. rewrite Hparse. unfold ret.
  unfold bind at 1, wallet_signTransaction. rewrite Hsign.
  unfold bind at 1, request. cbn [trace emit]. rewrite Hsub.
  unfold bind at 1, log. cbn [emit trace earnAgentBusy earnAgentData].
  unfold emit. cbn [trace earnAgentBusy earnAgentData].
  rewrite <- !app_assoc. reflexivity.
Qed.

(** C1. The status loop of a submitted transaction asks for the status,
    waits two seconds after every pending answer, and ends with the first
    answer that is CONFIRMED or FAILED or that carries no status (the query
    failed): nothing follows that answer but one console line, and the loop
    never throws.  If the [n]-th query is the first such answer, any fuel
    from [n] on makes the loop return after exactly [n] queries.  For a
    transaction that has just been submitted, the rest of its processing is
    this loop: when it returns, whatever the verdict, the driver takes up
    the next transaction of the batch. *)
Theorem status_polling_stops_at_first_verdict
        (fuel : nat) (txId : string) (s : State) :
  (exists evs o,
      poll_status env fuel txId s = (o, emit s evs) /\ PollTrace txId evs o) /\
  (forall n,
      SettlesAt env txId s n -> n <= fuel ->
      exists evs,
        poll_status env fuel txId s = (Ret tt, emit s evs) /\ status_requests evs = n) /\
  (forall tx rest wallet s0,
      tx_id tx = txId ->
      Submitted env wallet tx s0 s ->
      processTransactions env fuel (tx :: rest) wallet s0 =
      match poll_status env fuel txId s with
      | (Ret _, s') => processTransactions env fuel rest wallet s'
      | (Throw e, s') => (Throw e, s')
      | (OutOfFuel, s') => (OutOfFuel, s')
      end).
Proof.
  split; [apply poll_status_trace |]. split.
  - intros n Hsettles Hfuel. now apply poll_status_settles.
  - intros tx rest wallet s0 <- Hsub.
    apply (processTransactions_submitted fuel tx rest wallet s0 s Hsub).
Qed.

(** C3. When the signer or the submit call fails for a transaction of a
    batch (or its unsigned payload is not JSON), the driver throws at once:
    the trace ends with the failed call, whatever transactions follow in
    the batch. *)
Theorem signing_or_submission_failure_aborts_batch
        (fuel : nat) (wallet : Wallet) (pre : list Transaction) (tx : Transaction)
        (rest : list Transaction) (s s0 s1 : State) (u : UnsignedTx) :
  processTransactions env fuel pre wallet s = (Ret tt, s0) ->
  Constructed env tx s0 u s1 ->
  let run := processTransactions env fuel (pre ++ tx :: rest) wallet s in
  (JSON_parse (unsignedTransaction u) = None ->
   run = (Throw SyntaxError, s1)) /\
  (forall payload,
      JSON_parse (unsignedTransaction u) = Some payload ->
      signTransaction env (trace s1) wallet payload = Rejected ->
      run = (Throw PromiseRejected, emit s1 [EvSign payload Rejected])) /\
  (forall payload signed,
      JSON_parse (unsignedTransaction u) = Some payload ->
      signTransaction env (trace s1) wallet payload = Resolved signed ->
      let req := SubmitTx (tx_id tx) signed in
      let reply := fetch env (trace s1 ++ [EvSign payload (Resolved signed)]) req in
      failed reply = true ->
      run = (Throw (error_of req reply),
             emit s1 [EvSign payload (Resolved signed); EvFetch req reply])).
Proof.
  intros Hpre [Hskip Hcons] run.
  assert (Hrun : run = match sign_submit_poll env fuel tx wallet u s1 with
                       | (Ret _, s2) => processTransactions env fuel rest wallet s2
                       | (Throw e, s2) => (Throw e, s2)
                       | (OutOfFuel, s2) => (OutOfFuel, s2)
                       end).
  { unfold run. rewrite processTransactions_app, Hpre.
    now rewrite (processTransactions_cons fuel tx rest wallet s0 Hskip), Hcons. }
  rewrite Hrun. clear Hrun run. repeat split.
  - intros Hparse. unfold sign_submit_poll, json_parse, bind at 1. now rewrite Hparse.
  - intros payload Hparse Hsign.
    unfold sign_submit_poll, json_parse, bind at 1. rewrite Hparse. unfold ret.
    unfold bind at 1, wallet_signTransaction. now rewrite Hsign.
  - intros payload signed Hparse Hsign req reply Hfail.
    unfold sign_submit_poll, json_parse, bind at 1. rewrite Hparse. unfold ret.
    unfold bind at 1, wallet_signTransaction. rewrite Hsign.
    unfold bind at 1, request. cbn [trace emit].
    subst reply req. revert Hfail.
    destruct (fetch env (trace s1 ++ [EvSign payload (Resolved signed)])
                    (SubmitTx (tx_id tx) signed)) as [body | code |];
      intros Hfail; [discriminate | |]; simpl; now rewrite emit_emit.
Qed.

End LifecycleProperties.

(** The theorem at a batch whose first transaction cannot be constructed:
    after three failed requests the driver takes up the second one. *)
Lemma construction_bounded_then_next_transaction_witness :
  processTransactions (scripted tx1_unconstructible) 5
                      [demo_tx "tx1"; demo_tx "tx2"] demo_wallet initialState =
  processTransactions (scripted tx1_unconstructible) 5 [demo_tx "tx2"] demo_wallet
    (emit initialState
       [EvLog (LogTx "STAKE");
        EvFetch (ConstructTx "tx1") (NotOk 503);
        EvLog (LogRetrying 1); EvSleep 1000;
        EvFetch (ConstructTx "tx1") Unreachable;
        EvLog (LogRetrying 2); EvSleep 1000;
        EvFetch (ConstructTx "tx1") (NotOk 503);
        EvLog (LogRetrying 3); EvSleep 1000;
        EvLog LogCannotConstruct]).
Proof.
  apply (proj2 (construction_bounded_then_next_transaction
                  (scripted tx1_unconstructible) 5 (demo_tx "tx1") [demo_tx "tx2"]
                  demo_wallet initialState eq_refl));
    reflexivity.
Defined.

(** The theorem at a batch whose first transaction gets a pending answer
    and then a failed status query: polling ends after two queries and the
    driver takes up the second transaction. *)
Lemma status_polling_stops_at_first_verdict_witness :
  (exists evs,
      poll_status (scripted tx1_status_unknown) 7 "tx1" tx1_submitted =
      (Ret tt, emit tx1_submitted evs) /\ status_requests evs = 2) /\
  processTransactions (scripted tx1_status_unknown) 7
                      [demo_tx "tx1"; demo_tx "tx2"] demo_wallet initialState =
  processTransactions (scripted tx1_status_unknown) 7 [demo_tx "tx2"] demo_wallet
    (emit tx1_submitted
       [EvFetch (StatusTx "tx1") (Ok (Some (mkTxStatus "PENDING" None)));
        EvLog LogPending; EvSleep 2000;
        EvFetch (StatusTx "tx1") (NotOk 500);
        EvLog LogNoStatus]).
Proof.
  split.
  - apply (proj1 (proj2 (status_polling_stops_at_first_verdict
                           (scripted tx1_status_unknown) 7 "tx1" tx1_submitted)) 2).
    + eapply settles_later; [reflexivity | reflexivity |].
      apply settles_now. reflexivity.
    + repeat constructor.
  - rewrite (proj2 (proj2 (status_polling_stops_at_first_verdict
                             (scripted tx1_status_unknown) 7 "tx1" tx1_submitted))
                   (demo_tx "tx1") [demo_tx "tx2"] demo_wallet initialState eq_refl).
    + reflexivity.
    + exists demo_unsigned,
        (emit initialState
              [EvLog (LogTx "STAKE");
               EvFetch (ConstructTx "tx1") (Ok (Some demo_unsigned))]),
        (JObj []), "0xSIGNED", (JObj []).
      repeat split; reflexivity.
Defined.

(** The theorem at two batches: one whose second transaction is refused at
    submission, one whose first transaction the signer refuses.  In both
    the third, respectively second, transaction leaves no trace. *)
Lemma signing_or_submission_failure_aborts_batch_witness :
  processTransactions (scripted tx2_submit_refused) 7
                      [demo_tx "tx1"; demo_tx "tx2"; demo_tx "tx3"] demo_wallet initialState =
  (Throw (RequestFailed POST "/v1/transactions/tx2/submit" 500),
   emit tx1_confirmed
        [EvLog (LogTx "STAKE");
         EvFetch (ConstructTx "tx2") (Ok (Some demo_unsigned));
         EvSign (JObj []) (Resolved "0xSIGNED");
         EvFetch (SubmitTx "tx2" "0xSIGNED") (NotOk 500)]) /\
  processTransactions (scripted signer_refuses) 7
                      [demo_tx "tx1"; demo_tx "tx2"] demo_wallet initialState =
  (Throw PromiseRejected,
   emit initialState
        [EvLog (LogTx "STAKE");
         EvFetch (ConstructTx "tx1") (Ok (Some demo_unsigned));
         EvSign (JObj []) Rejected]).
Proof.
  split.
  - apply (proj2 (proj2 (signing_or_submission_failure_aborts_batch
             (B := reference_builtins) (scripted tx2_submit_refused) 7 demo_wallet
             [demo_tx "tx1"] (demo_tx "tx2") [demo_tx "tx3"]
             initialState tx1_confirmed
             (emit tx1_confirmed
                   [EvLog (LogTx "STAKE");
                    EvFetch (ConstructTx "tx2") (Ok (Some demo_unsigned))])
             demo_unsigned eq_refl (conj eq_refl eq_refl)))
           (JObj []) "0xSIGNED" eq_refl eq_refl eq_refl).
  - apply (proj1 (proj2 (signing_or_submission_failure_aborts_batch
             (B := reference_builtins) (scripted signer_refuses) 7 demo_wallet
             [] (demo_tx "tx1") [demo_tx "tx2"]
             initialState initialState
             (emit initialState
                   [EvLog (LogTx "STAKE");
                    EvFetch (ConstructTx "tx1") (Ok (Some demo_unsigned))])
             demo_unsigned eq_refl (conj eq_refl eq_refl)))
           (JObj []) eq_refl eq_refl).
Defined.

(** ** The trace only grows, and only the gate writes the busy flag *)

Lemma grows_ret {A} (a : A) : grows (ret a).
Proof. intros s. split; [exists []; simpl; now rewrite app_nil_r | reflexivity]. Qed.

Lemma grows_throw {A} (e : Exn) : grows (@throw A e).
Proof. intros s. split; [exists []; simpl; now rewrite app_nil_r | reflexivity]. Qed.

Lemma grows_out_of_fuel {A} : grows (@out_of_fuel A).
Proof. intros s. split; [exists []; simpl; now rewrite app_nil_r | reflexivity]. Qed.

Lemma grows_bind {A C} (m : M A) (k : A -> M C) :
  grows m -> (forall a, grows (k a)) -> grows (bind m k).
Proof.
  intros Hm Hk s. unfold bind. destruct (Hm s) as [(evs & Hevs) Hbusy].
  destruct (m s) as [[a | e |] s1]; simpl in *.
  - destruct (Hk a s1) as [(evs' & Hevs') Hbusy']. split.
    + exists (evs ++ evs'). now rewrite Hevs', Hevs, app_assoc.
    + now rewrite Hbusy'.
  - split; [now exists evs | assumption].
  - split; [now exists evs | assumption].
Qed.

Lemma grows_attempt {A} (m : M A) : grows m -> grows (attempt m).
Proof.
  intros Hm s. unfold attempt. destruct (Hm s) as [(evs & Hevs) Hbusy].
  destruct (m s) as [[a | e |] s1]; simpl in *; (split; [now exists evs | assumption]).
Qed.

Lemma grows_log (l : LogLine) : grows (log l).
Proof. intros s. split; [now exists [EvLog l] | reflexivity]. Qed.

Lemma grows_sleep (ms : Z) : grows (sleep ms).
Proof. intros s. split; [now exists [EvSleep ms] | reflexivity]. Qed.

Lemma grows_get_data : grows get_data.
Proof. intros s. split; [exists []; simpl; now rewrite app_nil_r | reflexivity]. Qed.

Lemma grows_put_data (d : EarnAgentData) : grows (put_data d).
Proof. intros s. split; [exists []; simpl; now rewrite app_nil_r | reflexivity]. Qed.

Lemma grows_get_busy : grows get_busy.
Proof. intros s. split; [exists []; simpl; now rewrite app_nil_r | reflexivity]. Qed.

Create HintDb grows.
#[local] Hint Resolve grows_ret grows_throw grows_out_of_fuel grows_attempt
  grows_log grows_sleep grows_get_data grows_put_data grows_get_busy : grows.

(** Splits a computation along its binds and case distinctions. *)
Ltac grows_tac :=
  repeat first
    [ solve [ auto with grows ]
    | apply grows_bind; [| intros ]
    | match goal with
      | |- grows (match ?x with _ => _ end) => destruct x
      | |- grows (if ?b then _ else _) => destruct b
      end ].

Section Growth.
Context {B : Builtins}.
Variable env : Env.

Lemma grows_request (r : Request) : grows (request env r).
Proof.
  intros s. unfold request. split.
  - exists [EvFetch r (fetch env (trace s) r)]. now destruct (fetch env (trace s) r).
  - now destruct (fetch env (trace s) r).
Qed.

Lemma grows_wallet_signTransaction (wallet : Wallet) (payload : JSON) :
  grows (wallet_signTransaction env wallet payload).
Proof.
  intros s. unfold wallet_signTransaction. split.
  - exists [EvSign payload (signTransaction env (trace s) wallet payload)].
    now destruct (signTransaction env (trace s) wallet payload).
  - now destruct (signTransaction env (trace s) wallet payload).
Qed.

Lemma grows_openai_chat (system user : string) : grows (openai_chat env system user).
Proof.
  intros s. unfold openai_chat. split.
  - exists [EvChat system user (chat_completions_create env (trace s) system user)].
    now destruct (chat_completions_create env (trace s) system user).
  - now destruct (chat_completions_create env (trace s) system user).
Qed.

Lemma grows_json_parse (text : string) : grows (json_parse text).
Proof. unfold json_parse. grows_tac. Qed.

End Growth.

#[local] Hint Resolve grows_wallet_signTransaction grows_openai_chat
  grows_json_parse : grows.
#[local] Hint Extern 1 (grows (request ?e ?r)) => exact (grows_request e r) : grows.

Section GrowthOfTheProgram.
Context {B : Builtins}.
Variable env : Env.

Lemma grows_construct_loop (n i : nat) (txId : string) :
  grows (construct_loop env n i txId).
Proof. revert i. induction n as [| n IH]; intros i; simpl; grows_tac. Qed.

Lemma grows_poll_status (fuel : nat) (txId : string) :
  grows (poll_status env fuel txId).
Proof. induction fuel as [| fuel IH]; simpl; grows_tac. Qed.

#[local] Hint Resolve grows_construct_loop grows_poll_status : grows.

Lemma grows_processTransactions (fuel : nat) (txs : list Transaction) (wallet : Wallet) :
  grows (processTransactions env fuel txs wallet).
Proof.
  induction txs as [| tx rest IH]; simpl; [auto with grows |].
  unfold sign_submit_poll. grows_tac.
Qed.

Lemma grows_fetchEarningPositions_loop (n : nat) (remaining : list YieldOpportunity)
      (address : string) (positions : list EarningPosition) :
  grows (fetchEarningPositions_loop env n remaining address positions).
Proof.
  revert remaining positions.
  induction n as [| n IH]; intros remaining positions; simpl; grows_tac.
Qed.

#[local] Hint Resolve grows_processTransactions grows_fetchEarningPositions_loop : grows.

Lemma grows_refreshEarnAgentData (address : string) :
  grows (refreshEarnAgentData env address).
Proof.
  unfold refreshEarnAgentData, fetchAllYields, fetchEarningPositions, fetchUserBalances.
  grows_tac.
Qed.

#[local] Hint Resolve grows_refreshEarnAgentData : grows.

Lemma grows_execute_step (fuel : nat) (type integrationId : JSValue) (wallet : Wallet)
      (finalAmount : JSValue) :
  grows (execute_step env fuel type integrationId wallet finalAmount).
Proof. unfold execute_step. grows_tac. Qed.

#[local] Hint Resolve grows_execute_step : grows.

Lemma grows_runScenarioStep (fuel : nat) (type integrationId : JSValue) (wallet : Wallet)
      (amount : JSValue) :
  grows (runScenarioStep env fuel type integrationId wallet amount).
Proof. unfold runScenarioStep, resolve_amount, resolve_exit, resolve_enter. grows_tac. Qed.

#[local] Hint Resolve grows_runScenarioStep : grows.

Lemma grows_run_steps (fuel : nat) (steps : list JSON) (wallet : Wallet) :
  grows (run_steps env fuel steps wallet).
Proof.
  induction steps as [| step rest IH]; simpl; [auto with grows |].
  unfold step_field. grows_tac.
Qed.

#[local] Hint Resolve grows_run_steps : grows.

Lemma grows_runAiScenario (fuel : nat) (systemInstructions userMsg : string)
      (wallet : Wallet) :
  grows (runAiScenario env fuel systemInstructions userMsg wallet).
Proof.
  unfold runAiScenario, buildSystemPrompt, first_content, parseOpFromCodeBlock.
  grows_tac.
Qed.

#[local] Hint Resolve grows_runAiScenario : grows.

Lemma grows_earnAgentIntervalCheck (fuel : nat) (wallet : Wallet) :
  grows (earnAgentIntervalCheck env fuel wallet).
Proof. unfold earnAgentIntervalCheck. grows_tac. Qed.

Lemma grows_handleChat (fuel : nat) (userMsg : string) (wallet : Wallet) :
  grows (handleChat env fuel userMsg wallet).
Proof. unfold handleChat. grows_tac. Qed.

#[local] Hint Resolve grows_earnAgentIntervalCheck grows_handleChat : grows.

(** The cycle a trigger starts is made of such computations only. *)
Lemma grows_cycle_of (fuel : nat) (wallet : Wallet) (t : Trigger) :
  grows (cycle_of env fuel wallet t).
Proof. destruct t; unfold cycle_of; grows_tac. Qed.

End GrowthOfTheProgram.

(** ** The step executor *)

Section StepProperties.
Context {B : Builtins}.
Variable env : Env.

(** The first thing [execute_step] does is to create the action session,
    with the amount it was given. *)
Lemma execute_step_continues (fuel : nat) (type integrationId : JSValue)
      (wallet : Wallet) (finalAmount : JSValue) (s : State) :
  continues_with env
    (ActionSession (endpoint_of type) integrationId (wallet_address wallet) finalAmount)
    s (execute_step env fuel type integrationId wallet finalAmount s).
Proof.
  unfold continues_with, execute_step, endpoint_of.
  set (req := ActionSession _ _ _ _).
  unfold bind at 1, request.
  destruct (fetch env (trace s) req) as [session | code |] eqn:E.
  - pose proof (grows_bind
      (processTransactions env fuel (transactions session) wallet)
      (fun _ => bind (log (LogStepDone type integrationId))
                     (fun _ => refreshEarnAgentData env (wallet_address wallet)))
      (grows_processTransactions env fuel _ wallet)
      (fun _ => grows_bind _ _ (grows_log _)
                           (fun _ => grows_refreshEarnAgentData env _))
      (emit s [EvFetch req (Ok session)])) as [(evs & Hevs) _].
    exists evs. rewrite Hevs. cbn [trace emit]. now rewrite <- app_assoc.
  - now exists [].
  - now exists [].
Qed.


(** What an [EXIT] step without an amount does, by the sign of the staked
    amount.  It asks for the position balance of (address, integrationId)
    and looks for the entry of type "staked".  If there is none, or if
    [parseFloat(amount) <= 0] holds of its amount, the step ends there: the
    balance query is its only request.  In every other case (an amount
    above zero, and also one that does not parse to a number) the step
    goes on by creating the exit session with exactly the staked amount. *)
Lemma exit_without_amount_by_sign_of_the_stake
        (fuel : nat) (integrationId amount : JSValue) (wallet : Wallet)
        (s : State) (posResp : list Balance) :
  truthy amount = false ->
  let type := Some (JStr "EXIT") in
  let address := wallet_address wallet in
  let query := PositionBalance integrationId address in
  let s0 := emit s [EvLog (LogStep type integrationId amount)] in
  fetch env (trace s0) query = Ok posResp ->
  let s1 := emit s0 [EvFetch query (Ok posResp)] in
  let run := runScenarioStep env fuel type integrationId wallet amount s in
  (staked_entry posResp = None ->
   run = (Ret tt, emit s1 [EvLog LogNoStaked])) /\
  (forall staked,
      staked_entry posResp = Some staked ->
      le0 (parseFloat (bal_amount staked)) = true ->
      run = (Ret tt, emit s1 [EvLog LogNoStaked])) /\
  (forall staked,
      staked_entry posResp = Some staked ->
      le0 (parseFloat (bal_amount staked)) = false ->
      let finalAmount := Some (JStr (bal_amount staked)) in
      run = execute_step env fuel type integrationId wallet finalAmount s1 /\
      continues_with env (ActionSession "exit" integrationId address finalAmount) s1 run).
Proof.
  intros Hamount type address query s0 Hreply s1 run.
  assert (Hrun : run =
                 match staked_entry posResp with
                 | None => (Ret tt, emit s1 [EvLog LogNoStaked])
                 | Some staked =>
                     if le0 (parseFloat (bal_amount staked))
                     then (Ret tt, emit s1 [EvLog LogNoStaked])
                     else execute_step env fuel type integrationId wallet
                                       (Some (JStr (bal_amount staked))) s1
                 end).
  { unfold run, runScenarioStep, resolve_amount. rewrite Hamount. cbn [negb strict_eq_str type].
    rewrite String.eqb_refl.
    unfold bind at 1, log. fold type s0.
    unfold bind at 1, resolve_exit, bind at 1, request. fold address query.
    rewrite Hreply. fold s1.
    destruct (staked_entry posResp) as [staked |]; [| reflexivity].
    destruct (le0 (parseFloat (bal_amount staked))); reflexivity. }
  rewrite Hrun. clear Hrun run. split; [| split].
  - intros ->. reflexivity.
  - intros staked -> ->. reflexivity.
  - intros staked -> -> finalAmount. split; [reflexivity |].
    apply (execute_step_continues fuel type).
Qed.

(** What an [ENTER] step without an amount does, by the sign of the idle
    balance.  It fetches the yield's detail, then asks for the idle balance
    of exactly the yield's token (no token address in the query when the
    yield has none: the native token).  If [parseFloat(bal) <= 0] holds of
    the balance, the step ends there: the detail and the balance query are
    its only requests.  In every other case (a balance above zero, and also
    one that does not parse to a number) the step goes on by creating the
    enter session with exactly the idle balance. *)
Lemma enter_without_amount_by_sign_of_the_balance
        (fuel : nat) (integrationId amount : JSValue) (wallet : Wallet)
        (s : State) (details : YieldOpportunity) (balResp : list TokenBalance) :
  truthy amount = false ->
  let type := Some (JStr "ENTER") in
  let address := wallet_address wallet in
  let s0 := emit s [EvLog (LogStep type integrationId amount)] in
  fetch env (trace s0) (YieldDetail integrationId) = Ok details ->
  let s1 := emit s0 [EvFetch (YieldDetail integrationId) (Ok details)] in
  let query := IdleBalances [mkTokenQuery NETWORK address (underlying_token details)] in
  fetch env (trace s1) query = Ok balResp ->
  let s2 := emit s1 [EvFetch query (Ok balResp)] in
  let bal := idle_amount balResp in
  let run := runScenarioStep env fuel type integrationId wallet amount s in
  (le0 (parseFloat bal) = true ->
   run = (Ret tt, emit s2 [EvLog LogNoBalance])) /\
  (le0 (parseFloat bal) = false ->
   let finalAmount := Some (JStr bal) in
   run = execute_step env fuel type integrationId wallet finalAmount s2 /\
   continues_with env (ActionSession "enter" integrationId address finalAmount) s2 run).
Proof.
  intros Hamount type address s0 Hdetail s1 query Hreply s2 bal run.
  assert (Hrun : run =
                 if le0 (parseFloat bal)
                 then (Ret tt, emit s2 [EvLog LogNoBalance])
                 else execute_step env fuel type integrationId wallet (Some (JStr bal)) s2).
  { unfold run, runScenarioStep, resolve_amount. rewrite Hamount. cbn [negb strict_eq_str type].
    replace ("ENTER" =? "EXIT") with false by reflexivity.
    unfold bind at 1, log. fold type s0.
    unfold bind at 1, resolve_enter, bind at 1, request. fold address.
    rewrite Hdetail. fold s1.
    assert (Htok : (if match token details with
                       | Some t => match token_address t with
                                   | Some a => a
                                   | None => "native"
                                   end
                       | None => "native"
                       end =? "native"
                    then None
                    else Some match token details with
                              | Some t => match token_address t with
                                          | Some a => a
                                          | None => "native"
                                          end
                              | None => "native"
                              end) = underlying_token details).
    { unfold underlying_token. destruct (token details) as [t |]; [| reflexivity].
      destruct (token_address t) as [a |]; reflexivity. }
    rewrite Htok. fold query.
    unfold bind at 1. rewrite Hreply. fold s2.
    change (match balResp with
            | [] => "0"
            | b :: _ => if tb_amount b =? "" then "0" else tb_amount b
            end) with bal.
    destruct (le0 (parseFloat bal)); reflexivity. }
  rewrite Hrun. clear Hrun run. split.
  - intros ->. reflexivity.
  - intros ->. split; [reflexivity |]. apply (execute_step_continues fuel type).
Qed.


End StepProperties.

(** C4, where the code departs from it.  The claim has the step skipped
    whenever the staked amount is not positive.  The code skips on
    [parseFloat(staked.amount) <= 0], which is false of an amount that does
    not parse to a number.  With the staked amount ["NaN"], which is not
    above zero and for which [fetchEarningPositions] (whose test is
    [parseFloat(staked.amount) > 0]) records no position, the step is not
    skipped: it creates the exit session with that amount, and the
    transaction of the session is constructed and submitted. *)
Theorem exit_with_unparsable_stake_is_not_skipped :
  let run := runScenarioStep (B := reference_builtins) (scripted unparsable_stake) 7
                             EXIT Y1 demo_wallet None initialState in
  gt0 (parseFloat (Builtins := reference_builtins) "NaN") = false /\
  position_of (B := reference_builtins)
              (mkYieldBalances "Y1" [mkBalance "staked" "NaN"]) = [] /\
  firstn 3 (trace (snd run)) =
    [EvLog (LogStep EXIT Y1 None);
     EvFetch (PositionBalance Y1 "0xA11CE") (Ok [mkBalance "staked" "NaN"]);
     EvFetch (ActionSession "exit" Y1 "0xA11CE" (Some (JStr "NaN")))
             (Ok (mkSession [demo_tx "tx1"]))] /\
  aggregator_writes (trace (snd run)) = 3.
Proof. cbv zeta. repeat split; vm_compute; reflexivity. Qed.

(** C5, where the code departs from it.  The claim has the step skipped
    whenever the idle balance is not positive.  The code skips on
    [parseFloat(bal) <= 0], which is false of a balance that does not parse
    to a number.  With the idle balance ["NaN"], which is not above zero
    and which [fetchUserBalances] (whose test is [parseFloat(b.amount) > 0])
    leaves out of the record, the step is not skipped: it creates the enter
    session with that amount, and the transaction of the session is
    constructed and submitted. *)
Theorem enter_with_unparsable_balance_is_not_skipped :
  let run := runScenarioStep (B := reference_builtins) (scripted unparsable_idle) 7
                             ENTER Y1 demo_wallet None initialState in
  gt0 (parseFloat (Builtins := reference_builtins) "NaN") = false /\
  balances_record (B := reference_builtins)
                  [mkTokenBalance "NaN" (mkToken (Some "0xT0KEN") "TKN")] = [] /\
  firstn 4 (trace (snd run)) =
    [EvLog (LogStep ENTER Y1 None);
     EvFetch (YieldDetail Y1) (Ok demo_yield);
     EvFetch (IdleBalances [mkTokenQuery "arbitrum" "0xA11CE" (Some "0xT0KEN")])
             (Ok [mkTokenBalance "NaN" (mkToken (Some "0xT0KEN") "TKN")]);
     EvFetch (ActionSession "enter" Y1 "0xA11CE" (Some (JStr "NaN")))
             (Ok (mkSession [demo_tx "tx1"]))] /\
  aggregator_writes (trace (snd run)) = 3.
Proof. cbv zeta. repeat split; vm_compute; reflexivity. Qed.

(** ** Intake: the fenced block *)

Lemma string_app_assoc (a b c : string) : ((a ++ b) ++ c = a ++ (b ++ c))%string.
Proof. induction a as [| x a IH]; simpl; [reflexivity | now rewrite IH]. Qed.

Lemma string_app_length (a b : string) :
  String.length (a ++ b) = String.length a + String.length b.
Proof. induction a as [| x a IH]; simpl; [reflexivity | now rewrite IH]. Qed.

Lemma strip_prefix_sound (pat s after : string) :
  strip_prefix pat s = Some after -> s = (pat ++ after)%string.
Proof.
  revert s. induction pat as [| a pat IH]; intros s H; simpl in *.
  - now inversion H.
  - destruct s as [| b s]; [discriminate |].
    destruct (Ascii.eqb a b) eqn:E; [| discriminate].
    apply Ascii.eqb_eq in E. subst b. now rewrite <- (IH s H).
Qed.

Lemma strip_prefix_app (pat s after t : string) :
  strip_prefix pat s = Some after ->
  strip_prefix pat (s ++ t) = Some (after ++ t)%string.
Proof.
  revert s. induction pat as [| a pat IH]; intros s H; simpl in *.
  - now inversion H.
  - destruct s as [| b s]; [discriminate |]. simpl.
    destruct (Ascii.eqb a b); [now apply IH | discriminate].
Qed.

Lemma strip_prefix_none_app (pat s t : string) :
  strip_prefix pat s = None ->
  String.length pat <= String.length s ->
  strip_prefix pat (s ++ t) = None.
Proof.
  revert s. induction pat as [| a pat IH]; intros s H Hlen; simpl in *.
  - discriminate.
  - destruct s as [| b s]; [inversion Hlen |]. simpl in *.
    destruct (Ascii.eqb a b); [| reflexivity].
    apply IH; [exact H | now apply le_S_n].
Qed.

(** What [find_sub] returns is a split of the text around an occurrence. *)
Lemma find_sub_sound (pat s before after : string) :
  find_sub pat s = Some (before, after) -> s = (before ++ pat ++ after)%string.
Proof.
  revert before. induction s as [| c s IH]; intros before H; simpl in H.
  - destruct (strip_prefix pat "") as [r |] eqn:E; [| discriminate].
    inversion H; subst. exact (strip_prefix_sound _ _ _ E).
  - destruct (strip_prefix pat (String c s)) as [r |] eqn:E.
    + inversion H; subst. exact (strip_prefix_sound _ _ _ E).
    + destruct (find_sub pat s) as [[b a] |] eqn:F; [| discriminate].
      inversion H; subst. simpl. now rewrite <- (IH b eq_refl).
Qed.

(** Text appended after the first occurrence does not move it. *)
Lemma find_sub_app (pat s before after t : string) :
  find_sub pat s = Some (before, after) ->
  find_sub pat (s ++ t) = Some (before, (after ++ t)%string).
Proof.
  revert before. induction s as [| c s IH]; intros before H; simpl in H.
  - destruct (strip_prefix pat "") as [r |] eqn:E; [| discriminate].
    inversion H; subst.
    pose proof (strip_prefix_app pat "" after t E) as E'. simpl in E'.
    destruct t; simpl; now rewrite E'.
  - destruct (strip_prefix pat (String c s)) as [r |] eqn:E.
    + inversion H; subst.
      pose proof (strip_prefix_app pat (String c s) after t E) as E'.
      simpl in *. now rewrite E'.
    + destruct (find_sub pat s) as [[b a] |] eqn:F; [| discriminate].
      inversion H; subst.
      assert (Hlen : String.length pat <= String.length (String c s)).
      { rewrite (find_sub_sound pat s b after F). simpl.
        rewrite !string_app_length. lia. }
      pose proof (strip_prefix_none_app pat (String c s) t E Hlen) as E'.
      simpl in *. rewrite E'. now rewrite (IH b eq_refl).
Qed.

(** What the regular expression captures stands between an opening and a
    closing fence of the text. *)
Lemma scenarioRegex_exec_sound (aiText group1 : string) :
  scenarioRegex_exec aiText = Some group1 ->
  exists before after,
    aiText = (before ++ "```json" ++ group1 ++ "```" ++ after)%string.
Proof.
  unfold scenarioRegex_exec. intros H.
  destruct (find_sub "```json" aiText) as [[before rest] |] eqn:E1; [| discriminate].
  destruct (find_sub "```" rest) as [[g after] |] eqn:E2; [| discriminate].
  inversion H; subst. exists before, after.
  rewrite (find_sub_sound _ _ _ _ E1). now rewrite (find_sub_sound _ _ _ _ E2).
Qed.

(** Text after the closing fence does not change what is captured. *)
Lemma scenarioRegex_exec_app (aiText group1 trailing : string) :
  scenarioRegex_exec aiText = Some group1 ->
  scenarioRegex_exec (aiText ++ trailing) = Some group1.
Proof.
  unfold scenarioRegex_exec. intros H.
  destruct (find_sub "```json" aiText) as [[before rest] |] eqn:E1; [| discriminate].
  destruct (find_sub "```" rest) as [[g after] |] eqn:E2; [| discriminate].
  inversion H; subst.
  rewrite (find_sub_app _ _ _ _ trailing E1).
  now rewrite (find_sub_app _ _ _ _ trailing E2).
Qed.

Lemma string_app_suffix (u v u' v' : string) :
  (u ++ v = u' ++ v')%string ->
  String.length v <= String.length v' ->
  exists c, v' = (c ++ v)%string.
Proof.
  revert u. induction u' as [| x u' IH]; intros u H Hlen; simpl in H.
  - exists u. now symmetry.
  - destruct u as [| y u]; simpl in H.
    + exfalso. rewrite H in Hlen. simpl in Hlen. rewrite string_app_length in Hlen. lia.
    + inversion H; subst. now apply (IH u).
Qed.

(** [find_sub] finds an occurrence whenever there is one, and what follows
    the occurrence it finds ends with what follows any other. *)
Lemma find_sub_complete (pat a b : string) :
  exists a' b' c,
    find_sub pat (a ++ pat ++ b) = Some (a', b') /\ b' = (c ++ b)%string.
Proof.
  induction a as [| x a IH].
  - exists ""%string, b, ""%string. split; [| reflexivity].
    assert (E : strip_prefix pat (pat ++ b) = Some b).
    { clear. induction pat as [| y pat IH]; simpl; [reflexivity |].
      now rewrite Ascii.eqb_refl. }
    change ("" ++ pat ++ b)%string with (pat ++ b)%string.
    destruct (pat ++ b)%string; simpl; now rewrite E.
  - change (String x a ++ pat ++ b)%string with (String x (a ++ pat ++ b)).
    cbn [find_sub].
    destruct (strip_prefix pat (String x (a ++ pat ++ b))) as [r |] eqn:E.
    + exists ""%string, r.
      pose proof (strip_prefix_sound _ _ _ E) as Hs.
      destruct (string_app_suffix (String x a ++ pat) b pat r) as (c & Hc).
      * rewrite string_app_assoc. exact Hs.
      * assert (Hl : String.length (String x (a ++ pat ++ b)) =
                     String.length (pat ++ r)) by now rewrite <- Hs.
        simpl in Hl. rewrite !string_app_length in Hl. lia.
      * exists c. split; [reflexivity | exact Hc].
    + destruct IH as (a' & b' & c & Hfind & Hb). rewrite Hfind.
      exists (String x a'), b', c. split; [reflexivity | exact Hb].
Qed.

(** A text that holds an opening fence and a closing fence after it is
    matched by the regular expression. *)
Lemma scenarioRegex_exec_complete (before group1 after : string) :
  scenarioRegex_exec (before ++ "```json" ++ group1 ++ "```" ++ after) <> None.
Proof.
  unfold scenarioRegex_exec.
  destruct (find_sub_complete "```json" before (group1 ++ "```" ++ after))
    as (a' & rest & c & Hfind & Hrest).
  rewrite Hfind.
  destruct (find_sub_complete "```" (c ++ group1) after) as (g & b' & c' & Hfind' & _).
  rewrite string_app_assoc in Hfind'. rewrite <- Hrest in Hfind'. rewrite Hfind'.
  discriminate.
Qed.

Section IntakeProperties.
Context {B : Builtins}.
Variable env : Env.

Lemma keys_length_members (members : list (string * JSON)) :
  members <> [] -> (keys_length (JObj members) =? 0)%nat = false.
Proof.
  intros Hne. apply Nat.eqb_neq. unfold keys_length.
  destruct members as [| [k v] rest]; [contradiction |].
  intros Hlen. apply length_zero_iff_nil in Hlen.
  assert (Hin : In k (nodup string_dec (map fst ((k, v) :: rest)))).
  { apply nodup_In. now left. }
  rewrite Hlen in Hin. exact Hin.
Qed.

Lemma lookup_member_nonempty (k : string) (members : list (string * JSON)) (v : JSON) :
  lookup_member k members = Some v -> members <> [].
Proof. destruct members; [discriminate | discriminate]. Qed.

(** What the scenario does once the answer is heard. *)
Lemma runAiScenario_heard (fuel : nat) (instructions userMsg : string) (wallet : Wallet)
      (s s1 : State) (text : string) :
  Heard env instructions userMsg s text s1 ->
  runAiScenario env fuel instructions userMsg wallet s =
  match parseOpFromCodeBlock text s1 with
  | (Ret None, s2) => (Ret false, s2)
  | (Ret (Some op), s2) =>
      match run_steps env fuel (steps op) wallet s2 with
      | (Ret _, s3) => (Ret true, s3)
      | (Throw e, s3) => (Throw e, s3)
      | (OutOfFuel, s3) => (OutOfFuel, s3)
      end
  | (Throw e, s2) => (Throw e, s2)
  | (OutOfFuel, s2) => (OutOfFuel, s2)
  end.
Proof.
  intros (chatResp & Hchat & Htext & ->).
  unfold runAiScenario, buildSystemPrompt.
  unfold bind at 1, bind at 1, get_data, ret.
  fold (system_prompt (earnAgentData s) instructions).
  unfold bind at 1, openai_chat. rewrite Hchat.
  unfold bind at 1, first_content. unfold answer_text in Htext.
  destruct (choices chatResp) as [| c rest]; [discriminate |].
  injection Htext as <-. unfold ret.
  unfold bind at 1, log. rewrite emit_emit. cbn [app].
  unfold bind at 1.
  destruct (parseOpFromCodeBlock _ _) as [[[op |] | e |] s2]; reflexivity.
Qed.

(** C6. Once the answer holds a fenced block: an empty object is the silent
    no-action signal (nothing is logged, no step runs); text that is not
    JSON is reported and dropped; an object with members but without a
    [steps] array is reported and dropped; an object with a [steps] array
    is accepted and its steps are run, in order, starting in the state
    right after the answer. *)
Theorem intake_of_the_fenced_block
        (fuel : nat) (instructions userMsg : string) (wallet : Wallet)
        (s s1 : State) (text group1 : string) :
  Heard env instructions userMsg s text s1 ->
  scenarioRegex_exec text = Some group1 ->
  let run := runAiScenario env fuel instructions userMsg wallet s in
  (JSON_parse (trim group1) = Some (JObj []) ->
   run = (Ret false, s1)) /\
  (JSON_parse (trim group1) = None ->
   run = (Ret false, emit s1 [EvLog LogFailedToParse])) /\
  (forall members,
      JSON_parse (trim group1) = Some (JObj members) ->
      members <> [] ->
      (forall items, lookup_member "steps" members <> Some (JArr items)) ->
      run = (Ret false, emit s1 [EvLog LogMissingSteps])) /\
  (forall members items,
      JSON_parse (trim group1) = Some (JObj members) ->
      lookup_member "steps" members = Some (JArr items) ->
      run = match run_steps env fuel items wallet s1 with
            | (Ret _, s2) => (Ret true, s2)
            | (Throw e, s2) => (Throw e, s2)
            | (OutOfFuel, s2) => (OutOfFuel, s2)
            end).
Proof.
  intros Hheard Hexec run. unfold run.
  rewrite (runAiScenario_heard fuel instructions userMsg wallet s s1 text Hheard).
  unfold parseOpFromCodeBlock. rewrite Hexec.
  split; [| split; [| split]].
  - intros ->. reflexivity.
  - intros ->. reflexivity.
  - intros members -> Hne Hsteps.
    rewrite (keys_length_members members Hne). cbn [own_property].
    destruct (lookup_member "steps" members) as [[| | | | items |] |] eqn:E;
      try reflexivity.
    now elim (Hsteps items).
  - intros members items -> Hsteps.
    rewrite (keys_length_members members (lookup_member_nonempty _ _ _ Hsteps)).
    cbn [own_property]. rewrite Hsteps. reflexivity.
Qed.

(** C7, in the form that holds.  An answer without a fenced block is no
    action: the scenario returns false right after the answer, with nothing
    logged.  Text after the closing fence is not looked at: the scenario
    takes the block exactly as it would without that text. *)
Theorem answer_without_block_is_no_action
        (fuel : nat) (instructions userMsg : string) (wallet : Wallet)
        (s s1 : State) (text : string) :
  Heard env instructions userMsg s text s1 ->
  let run := runAiScenario env fuel instructions userMsg wallet s in
  ((forall before group1 after,
       text <> (before ++ "```json" ++ group1 ++ "```" ++ after)%string) ->
   run = (Ret false, s1)) /\
  (forall block trailing group1,
      text = (block ++ trailing)%string ->
      scenarioRegex_exec block = Some group1 ->
      run = match parseOpFromCodeBlock block s1 with
            | (Ret None, s2) => (Ret false, s2)
            | (Ret (Some op), s2) =>
                match run_steps env fuel (steps op) wallet s2 with
                | (Ret _, s3) => (Ret true, s3)
                | (Throw e, s3) => (Throw e, s3)
                | (OutOfFuel, s3) => (OutOfFuel, s3)
                end
            | (Throw e, s2) => (Throw e, s2)
            | (OutOfFuel, s2) => (OutOfFuel, s2)
            end).
Proof.
  intros Hheard run. unfold run.
  rewrite (runAiScenario_heard fuel instructions userMsg wallet s s1 text Hheard).
  split.
  - intros Hnone. unfold parseOpFromCodeBlock.
    destruct (scenarioRegex_exec text) as [group1 |] eqn:E; [| reflexivity].
    destruct (scenarioRegex_exec_sound text group1 E) as (before & after & Heq).
    now elim (Hnone before group1 after).
  - intros block trailing group1 -> Hexec.
    unfold parseOpFromCodeBlock.
    now rewrite (scenarioRegex_exec_app block group1 trailing Hexec), Hexec.
Qed.

End IntakeProperties.

(** ** Account data is replaced, not merged *)

Lemma blind_ret {A} (a : A) : data_blind (ret a).
Proof. intros d s. reflexivity. Qed.

Lemma blind_throw {A} (e : Exn) : data_blind (@throw A e).
Proof. intros d s. reflexivity. Qed.

Lemma blind_bind {A C} (m : M A) (k : A -> M C) :
  data_blind m -> (forall a, data_blind (k a)) -> data_blind (bind m k).
Proof.
  intros Hm Hk d s. unfold bind. rewrite Hm.
  destruct (m s) as [[a | e |] s1]; simpl; [apply Hk | reflexivity | reflexivity].
Qed.

Lemma blind_log (l : LogLine) : data_blind (log l).
Proof. intros d s. reflexivity. Qed.

Create HintDb blind.
#[local] Hint Resolve blind_ret blind_throw blind_log : blind.

Ltac blind_tac :=
  repeat first
    [ solve [ auto with blind ]
    | apply blind_bind; [| intros ]
    | match goal with
      | |- data_blind (match ?x with _ => _ end) => destruct x
      | |- data_blind (if ?b then _ else _) => destruct b
      end ].

Section Replacement.
Context {B : Builtins}.
Variable env : Env.

Lemma blind_request (r : Request) : data_blind (request env r).
Proof.
  intros d s. unfold request. cbn [trace set_data].
  now destruct (fetch env (trace s) r).
Qed.

End Replacement.

#[local] Hint Extern 1 (data_blind (request ?e ?r)) => exact (blind_request e r) : blind.

Section ReplacementOfTheData.
Context {B : Builtins}.
Variable env : Env.

Lemma blind_fetchAllYields : data_blind (fetchAllYields env).
Proof. unfold fetchAllYields. blind_tac. Qed.

Lemma blind_fetchEarningPositions (yields : list YieldOpportunity) (address : string) :
  data_blind (fetchEarningPositions env yields address).
Proof.
  unfold fetchEarningPositions. generalize (@nil EarningPosition) as positions.
  generalize (List.length yields) as n. intros n. revert yields.
  induction n as [| n IH]; intros yields positions; simpl; blind_tac.
Qed.

Lemma blind_fetchUserBalances (yields : list YieldOpportunity) (address : string) :
  data_blind (fetchUserBalances env yields address).
Proof. unfold fetchUserBalances. blind_tac. Qed.

(** The refresh, by the results of its three fetches. *)
Lemma refresh_unfold (address : string) (s : State) :
  refreshEarnAgentData env address s =
  match fetchAllYields env (emit s [EvLog LogRefreshing]) with
  | (Ret all, sA) =>
      let ys := filterSortYields all in
      match fetchEarningPositions env ys address sA with
      | (Ret positions, sB) =>
          match fetchUserBalances env ys address sB with
          | (Ret idle, sC) =>
              (Ret tt, emit (set_data (mkData ys positions idle) sC) [EvLog LogRefreshed])
          | (Throw e, sC) =>
              (Throw e,
               set_data (mkData ys positions (idleTokenBalances (earnAgentData sA))) sC)
          | (OutOfFuel, sC) =>
              (OutOfFuel,
               set_data (mkData ys positions (idleTokenBalances (earnAgentData sA))) sC)
          end
      | (Throw e, sB) =>
          (Throw e,
           set_data (mkData ys (earningPositions (earnAgentData sA))
                            (idleTokenBalances (earnAgentData sA))) sB)
      | (OutOfFuel, sB) =>
          (OutOfFuel,
           set_data (mkData ys (earningPositions (earnAgentData sA))
                            (idleTokenBalances (earnAgentData sA))) sB)
      end
  | (Throw e, sA) => (Throw e, sA)
  | (OutOfFuel, sA) => (OutOfFuel, sA)
  end.
Proof.
  unfold refreshEarnAgentData.
  unfold bind at 1, log. unfold bind at 1.
  destruct (fetchAllYields env (emit s [EvLog LogRefreshing])) as [[all | e |] sA];
    [| reflexivity | reflexivity].
  cbv zeta. set (ys := filterSortYields all).
  unfold bind at 1, get_data. unfold bind at 1, put_data.
  unfold bind at 1. cbn [earnAgentData set_data yields].
  unfold bind at 1.
  rewrite (blind_fetchEarningPositions ys address).
  destruct (fetchEarningPositions env ys address sA) as [[positions | e |] sB];
    cbn [fst snd]; [| reflexivity | reflexivity].
  unfold bind at 1. unfold bind at 1. unfold bind at 1.
  cbn [earnAgentData set_data yields idleTokenBalances earnAgentBusy trace].
  unfold bind at 1.
  rewrite !(blind_fetchUserBalances ys address). cbn [fst snd].
  destruct (fetchUserBalances env ys address sB) as [[idle | e |] sC];
    cbn [fst snd]; reflexivity.
Qed.

(** A refresh that returns leaves account data made of what it fetched
    alone: started with any other data, it ends in the same state. *)
Lemma refresh_replaces (address : string) (s s1 : State) (d : EarnAgentData) :
  refreshEarnAgentData env address s = (Ret tt, s1) ->
  refreshEarnAgentData env address (set_data d s) = (Ret tt, s1).
Proof.
  rewrite !refresh_unfold.
  change (emit (set_data d s) [EvLog LogRefreshing])
    with (set_data d (emit s [EvLog LogRefreshing])).
  rewrite (blind_fetchAllYields d).
  destruct (fetchAllYields env (emit s [EvLog LogRefreshing])) as [[all | e |] sA];
    cbn [fst snd]; [| discriminate | discriminate].
  cbv zeta.
  rewrite (blind_fetchEarningPositions (filterSortYields all) address d).
  destruct (fetchEarningPositions env (filterSortYields all) address sA)
    as [[positions | e |] sB]; cbn [fst snd]; [| discriminate | discriminate].
  rewrite (blind_fetchUserBalances (filterSortYields all) address d).
  destruct (fetchUserBalances env (filterSortYields all) address sB)
    as [[idle | e |] sC]; cbn [fst snd]; [| discriminate | discriminate].
  intros H. exact H.
Qed.

(** The data a refresh that returns leaves: the filtered and sorted yields
    it fetched, the positions and the idle balances it fetched for them. *)
Lemma refresh_data (address : string) (s s1 : State) :
  refreshEarnAgentData env address s = (Ret tt, s1) ->
  exists all positions idle sA sB sC,
    fetchAllYields env (emit s [EvLog LogRefreshing]) = (Ret all, sA) /\
    fetchEarningPositions env (filterSortYields all) address sA = (Ret positions, sB) /\
    fetchUserBalances env (filterSortYields all) address sB = (Ret idle, sC) /\
    earnAgentData s1 = mkData (filterSortYields all) positions idle.
Proof.
  rewrite refresh_unfold.
  destruct (fetchAllYields env (emit s [EvLog LogRefreshing])) as [[all | e |] sA] eqn:EA;
    [| discriminate | discriminate].
  cbv zeta.
  destruct (fetchEarningPositions env (filterSortYields all) address sA)
    as [[positions | e |] sB] eqn:EB; [| discriminate | discriminate].
  destruct (fetchUserBalances env (filterSortYields all) address sB)
    as [[idle | e |] sC] eqn:EC; [| discriminate | discriminate].
  intros H. inversion H; subst.
  exists all, positions, idle, sA, sB, sC. repeat split; assumption || reflexivity.
Qed.


End ReplacementOfTheData.

(** ** Steps run in order, each executed one ending in a refresh *)

Section SequenceProperties.
Context {B : Builtins}.
Variable env : Env.

(** Amount resolution only reads: it leaves no write request behind. *)
Lemma resolve_amount_reads_only (type integrationId : JSValue) (address : string)
      (amount : JSValue) (s : State) :
  exists evs,
    snd (resolve_amount env type integrationId address amount s) = emit s evs /\
    aggregator_writes evs = 0.
Proof.
  unfold resolve_amount.
  destruct (negb (truthy amount)).
  - destruct (strict_eq_str type "EXIT").
    + unfold resolve_exit, bind, request.
      destruct (fetch env (trace s) (PositionBalance integrationId address))
        as [posResp | code |].
      * destruct (staked_entry posResp) as [staked |].
        -- destruct (le0 (parseFloat (bal_amount staked)));
             eexists; (split; [unfold log, ret; cbn [snd]; rewrite ?emit_emit; reflexivity
                              | reflexivity]).
        -- eexists; (split; [unfold log, ret; cbn [snd]; rewrite ?emit_emit; reflexivity
                            | reflexivity]).
      * eexists; split; reflexivity.
      * eexists; split; reflexivity.
    + unfold resolve_enter, bind at 1, request.
      destruct (fetch env (trace s) (YieldDetail integrationId)) as [details | code |].
      * cbv zeta. unfold bind at 1, request.
        match goal with
        | |- context [fetch env ?h ?r] => destruct (fetch env h r) as [balResp | code |]
        end.
        -- match goal with
           | |- context [le0 ?x] => destruct (le0 x)
           end;
             eexists; (split; [unfold bind, log, ret; cbn [snd];
                               rewrite ?emit_emit; reflexivity
                              | reflexivity]).
        -- eexists; (split; [cbn [snd]; rewrite ?emit_emit; reflexivity | reflexivity]).
        -- eexists; (split; [cbn [snd]; rewrite ?emit_emit; reflexivity | reflexivity]).
      * eexists; split; reflexivity.
      * eexists; split; reflexivity.
  - exists []. split; [unfold ret; cbn [snd]; now rewrite emit_nil | reflexivity].
Qed.

(** An executed step that returns has created its session, driven the
    batch to its end and finished its refresh. *)
Lemma execute_step_ret (fuel : nat) (type integrationId : JSValue) (wallet : Wallet)
      (finalAmount : JSValue) (s s1 : State) :
  execute_step env fuel type integrationId wallet finalAmount s = (Ret tt, s1) ->
  let address := wallet_address wallet in
  let req := ActionSession (endpoint_of type) integrationId address finalAmount in
  exists session sb,
    fetch env (trace s) req = Ok session /\
    processTransactions env fuel (transactions session) wallet
                        (emit s [EvFetch req (Ok session)]) = (Ret tt, sb) /\
    refreshEarnAgentData env address (emit sb [EvLog (LogStepDone type integrationId)])
      = (Ret tt, s1).
Proof.
  intros H address req. unfold execute_step in H.
  fold (endpoint_of type) in H. fold address in H. fold req in H.
  unfold bind at 1, request in H.
  destruct (fetch env (trace s) req) as [session | code |] eqn:E;
    [| discriminate | discriminate].
  exists session.
  unfold bind at 1 in H.
  destruct (processTransactions env fuel (transactions session) wallet
                                (emit s [EvFetch req (Ok session)]))
    as [[[] | e |] sb] eqn:P; [| discriminate | discriminate].
  exists sb. unfold bind at 1, log in H. auto.
Qed.

Lemma runScenarioStep_ret (fuel : nat) (type integrationId : JSValue) (wallet : Wallet)
      (amount : JSValue) (s s1 : State) :
  runScenarioStep env fuel type integrationId wallet amount s = (Ret tt, s1) ->
  StepRun env fuel wallet type integrationId s s1.
Proof.
  unfold runScenarioStep. unfold bind at 1, log. unfold bind at 1.
  set (s0 := emit s [EvLog (LogStep type integrationId amount)]).
  destruct (resolve_amount_reads_only type integrationId (wallet_address wallet) amount s0)
    as (evs & Hstate & Hwrites).
  destruct (resolve_amount env type integrationId (wallet_address wallet) amount s0)
    as [[[| finalAmount] | e |] s'] eqn:R; cbn [snd] in Hstate; subst s';
    [| | discriminate | discriminate].
  - intros H. inversion H; subst. unfold s0. rewrite emit_emit.
    now apply step_skipped.
  - intros H. apply execute_step_ret in H. cbv zeta in H.
    destruct H as (session & sb & Hfetch & Hbatch & Hrefresh).
    unfold s0 in *. rewrite emit_emit in Hbatch, Hfetch.
    eapply (step_refreshed env fuel wallet type integrationId s
                           (EvLog (LogStep type integrationId amount) :: evs)
                           finalAmount session sb s1).
    + exact Hwrites.
    + exact Hfetch.
    + rewrite emit_emit in Hbatch. exact Hbatch.
    + exact Hrefresh.
Qed.

(** The steps of a list run one after the other: the second part of a list
    is taken up in the state in which the first part returned. *)
Lemma run_steps_app (fuel : nat) (l1 l2 : list JSON) (wallet : Wallet) (s : State) :
  run_steps env fuel (l1 ++ l2) wallet s =
  match run_steps env fuel l1 wallet s with
  | (Ret _, s') => run_steps env fuel l2 wallet s'
  | (Throw e, s') => (Throw e, s')
  | (OutOfFuel, s') => (OutOfFuel, s')
  end.
Proof.
  revert s. induction l1 as [| step l1 IH]; intros s; [reflexivity |].
  rewrite <- app_comm_cons. cbn [run_steps].
  unfold bind at 1 5.
  destruct (step_field step "type" s) as [[type | e |] sa]; try reflexivity.
  unfold bind at 1 4.
  destruct (step_field step "integrationId" sa) as [[integrationId | e |] sb];
    try reflexivity.
  unfold bind at 1 3.
  destruct (step_field step "amount" sb) as [[amount | e |] sc]; try reflexivity.
  unfold bind at 1 2.
  destruct (runScenarioStep env fuel type integrationId wallet amount sc)
    as [[[] | e |] sd]; try reflexivity.
  apply IH.
Qed.

(** The first step of a list, then the rest. *)
Lemma run_steps_cons (fuel : nat) (step : JSON) (rest : list JSON) (wallet : Wallet)
      (s : State) :
  step <> JNull ->
  run_steps env fuel (step :: rest) wallet s =
  match runScenarioStep env fuel (own_property step "type")
                        (own_property step "integrationId") wallet
                        (own_property step "amount") s with
  | (Ret _, s1) => run_steps env fuel rest wallet s1
  | (Throw e, s1) => (Throw e, s1)
  | (OutOfFuel, s1) => (OutOfFuel, s1)
  end.
Proof.
  intros Hstep. cbn [run_steps]. unfold step_field.
  destruct step; try contradiction; reflexivity.
Qed.

Lemma run_steps_ret (fuel : nat) (steps : list JSON) (wallet : Wallet) (s s' : State) :
  run_steps env fuel steps wallet s = (Ret tt, s') ->
  StepsRun env fuel wallet steps s s'.
Proof.
  revert s. induction steps as [| step rest IH]; intros s H.
  - inversion H; subst. constructor.
  - assert (Hstep : step <> JNull).
    { intros ->. cbn [run_steps] in H. unfold step_field, bind, throw in H.
      discriminate. }
    rewrite (run_steps_cons fuel step rest wallet s Hstep) in H.
    destruct (runScenarioStep env fuel (own_property step "type")
                              (own_property step "integrationId") wallet
                              (own_property step "amount") s)
      as [[[] | e |] s1] eqn:R; [| discriminate | discriminate].
    apply (steps_next env fuel wallet step rest s s1 s'); [exact Hstep | | now apply IH].
    exact (runScenarioStep_ret fuel _ _ wallet _ s s1 R).
Qed.

(** C8. The steps of an operation run in the order of the list: the first
    step runs in the state the scenario is in, the rest in the state in
    which the first returned, and not at all if it threw.  Every step of a
    list that returned was either skipped before any write, or ended with a
    refresh that returned: its batch was driven to the end (abandoned and
    unknown transactions included), and the state the next step starts in
    is the one that refresh left.  An executed step whose batch returns
    ends as its refresh ends.  A refresh that returns replaces the
    account data by what it fetched (yields, positions, idle balances):
    whatever data was there before, it ends in the same state. *)
Theorem steps_run_in_order_and_end_with_a_refresh (fuel : nat) (wallet : Wallet) :
  let address := wallet_address wallet in
  (forall step rest s,
      step <> JNull ->
      run_steps env fuel (step :: rest) wallet s =
      match runScenarioStep env fuel (own_property step "type")
                            (own_property step "integrationId") wallet
                            (own_property step "amount") s with
      | (Ret _, s1) => run_steps env fuel rest wallet s1
      | (Throw e, s1) => (Throw e, s1)
      | (OutOfFuel, s1) => (OutOfFuel, s1)
      end) /\
  (forall steps s s',
      run_steps env fuel steps wallet s = (Ret tt, s') ->
      StepsRun env fuel wallet steps s s') /\
  (forall type integrationId finalAmount s session,
      let req := ActionSession (endpoint_of type) integrationId address finalAmount in
      fetch env (trace s) req = Ok session ->
      execute_step env fuel type integrationId wallet finalAmount s =
      match processTransactions env fuel (transactions session) wallet
                                (emit s [EvFetch req (Ok session)]) with
      | (Ret _, sb) =>
          refreshEarnAgentData env address (emit sb [EvLog (LogStepDone type integrationId)])
      | (Throw e, sb) => (Throw e, sb)
      | (OutOfFuel, sb) => (OutOfFuel, sb)
      end) /\
  (forall s0 s1 d,
      refreshEarnAgentData env address s0 = (Ret tt, s1) ->
      refreshEarnAgentData env address (set_data d s0) = (Ret tt, s1) /\
      exists all positions idle sA sB sC,
        fetchAllYields env (emit s0 [EvLog LogRefreshing]) = (Ret all, sA) /\
        fetchEarningPositions env (filterSortYields all) address sA = (Ret positions, sB) /\
        fetchUserBalances env (filterSortYields all) address sB = (Ret idle, sC) /\
        earnAgentData s1 = mkData (filterSortYields all) positions idle).
Proof.
  intros address. split; [| split; [| split]].
  - intros step rest s. apply run_steps_cons.
  - intros steps s s'. apply run_steps_ret.
  - intros type integrationId finalAmount s session req Hfetch.
    unfold execute_step. fold (endpoint_of type). fold address. fold req.
    unfold bind at 1, request. rewrite Hfetch.
    unfold bind at 1.
    destruct (processTransactions env fuel (transactions session) wallet
                                  (emit s [EvFetch req (Ok session)]))
      as [[[] | e |] sb]; reflexivity.
  - intros s0 s1 d H. split.
    + now apply refresh_replaces.
    + now apply refresh_data.
Qed.

End SequenceProperties.

(** ** The busy flag *)

Lemma aggregator_calls_app (a b : list Event) :
  aggregator_calls (a ++ b) = aggregator_calls a + aggregator_calls b.
Proof. unfold aggregator_calls. now rewrite filter_app, length_app. Qed.

Section GateProperties.
Context {B : Builtins}.
Variable env : Env.

(** The release block runs whether the cycle returned or threw. *)
Lemma guarded_cycle_releases (body : M unit) (line : LogLine) (s : State) :
  guarded_cycle body line s =
  match body s with
  | (Ret _, s1) => (Ret tt, set_busy false s1)
  | (Throw _, s1) => (Ret tt, set_busy false (emit s1 [EvLog line]))
  | (OutOfFuel, s1) => (OutOfFuel, s1)
  end.
Proof.
  unfold guarded_cycle, try_finally, bind, attempt.
  destruct (body s) as [[[] | e |] s1]; reflexivity.
Qed.

(** C9. The flag is clear in the initial state.  A trigger (a tick of the
    timer or a line typed at the prompt) that finds the flag set leaves one
    console line and nothing else: no request is made, nothing is queued,
    the state is otherwise the same.  A trigger that finds the flag clear
    sets it before its cycle starts; the cycle itself never writes the
    flag; and the flag is cleared when the cycle ends, whether it returned
    or threw (the error is caught and reported).  The first check of [main]
    is gated in the same way. *)
Theorem busy_flag_gates_every_trigger (fuel : nat) (wallet : Wallet) :
  earnAgentBusy initialState = false /\
  (forall t s,
      earnAgentBusy s = true ->
      on_trigger env fuel wallet t s = (Ret tt, emit s [EvLog (busy_line t)]) /\
      aggregator_calls (trace (emit s [EvLog (busy_line t)])) = aggregator_calls (trace s)) /\
  (forall t s,
      earnAgentBusy s = false ->
      on_trigger env fuel wallet t s =
      guarded_cycle (cycle_of env fuel wallet t) (error_line t) (set_busy true s)) /\
  (forall t s,
      earnAgentBusy (snd (cycle_of env fuel wallet t s)) = earnAgentBusy s) /\
  (forall body line s,
      guarded_cycle body line s =
      match body s with
      | (Ret _, s1) => (Ret tt, set_busy false s1)
      | (Throw _, s1) => (Ret tt, set_busy false (emit s1 [EvLog line]))
      | (OutOfFuel, s1) => (OutOfFuel, s1)
      end) /\
  (forall s s1,
      refreshEarnAgentData env (wallet_address wallet)
        (emit s [EvLog LogStarted; EvLog (LogUsingAddress (wallet_address wallet))])
      = (Ret tt, s1) ->
      main_start env fuel (inr wallet) s =
      guarded_cycle (earnAgentIntervalCheck env fuel wallet) LogInitialError
                    (set_busy true s1)).
Proof.
  split; [reflexivity |]. split; [| split; [| split; [| split]]].
  - intros t s Hbusy. split.
    + destruct t; cbn [on_trigger busy_line];
        unfold interval_callback, prompt_turn, bind, get_busy; now rewrite Hbusy.
    + cbn [trace emit]. rewrite aggregator_calls_app. cbn. apply Nat.add_0_r.
  - intros t s Hbusy.
    destruct t; cbn [on_trigger cycle_of error_line];
      unfold interval_callback, prompt_turn, bind at 1, get_busy; rewrite Hbusy;
      reflexivity.
  - intros t s. apply (grows_cycle_of env fuel wallet t s).
  - apply guarded_cycle_releases.
  - intros s s1 Hrefresh. unfold main_start.
    unfold bind at 1, log. unfold bind at 1, ret.
    unfold bind at 1, log. rewrite emit_emit. cbn [app].
    unfold bind at 1. rewrite Hrefresh. reflexivity.
Qed.

End GateProperties.

(** * The theorems at concrete runs *)

(** An [EXIT] step without amount: skipped when the stake is zero, skipped
    when there is no staked entry, and run with the stake of 50 otherwise. *)
Lemma exit_without_amount_by_sign_of_the_stake_witness :
  runScenarioStep (scripted zero_stake) 7 EXIT Y1 demo_wallet None initialState =
  (Ret tt,
   emit initialState
        [EvLog (LogStep EXIT Y1 None);
         EvFetch (PositionBalance Y1 "0xA11CE") (Ok [mkBalance "staked" "0.00"]);
         EvLog LogNoStaked]) /\
  runScenarioStep (scripted no_stake) 7 EXIT Y1 demo_wallet None initialState =
  (Ret tt,
   emit initialState
        [EvLog (LogStep EXIT Y1 None);
         EvFetch (PositionBalance Y1 "0xA11CE") (Ok [mkBalance "rewards" "3"]);
         EvLog LogNoStaked]) /\
  continues_with (scripted calm)
    (ActionSession "exit" Y1 "0xA11CE" (Some (JStr "50")))
    (emit initialState
          [EvLog (LogStep EXIT Y1 None);
           EvFetch (PositionBalance Y1 "0xA11CE") (Ok [mkBalance "staked" "50"])])
    (runScenarioStep (scripted calm) 7 EXIT Y1 demo_wallet None initialState).
Proof.
  split; [| split].
  - apply (proj1 (proj2 (exit_without_amount_by_sign_of_the_stake
             (B := reference_builtins) (scripted zero_stake) 7 Y1 None demo_wallet
             initialState [mkBalance "staked" "0.00"] eq_refl eq_refl))
           (mkBalance "staked" "0.00") eq_refl eq_refl).
  - apply (proj1 (exit_without_amount_by_sign_of_the_stake
             (B := reference_builtins) (scripted no_stake) 7 Y1 None demo_wallet
             initialState [mkBalance "rewards" "3"] eq_refl eq_refl) eq_refl).
  - apply (proj2 (proj2 (exit_without_amount_by_sign_of_the_stake
             (B := reference_builtins) (scripted calm) 7 Y1 None demo_wallet
             initialState [mkBalance "staked" "50"] eq_refl eq_refl))
           (mkBalance "staked" "50") eq_refl eq_refl).
Defined.

(** An [ENTER] step without amount: skipped when nothing is idle, run with
    the idle balance of 100 otherwise; for a yield of the native token the
    balance query carries no token address. *)
Lemma enter_without_amount_by_sign_of_the_balance_witness :
  runScenarioStep (scripted no_idle) 7 ENTER Y1 demo_wallet None initialState =
  (Ret tt,
   emit initialState
        [EvLog (LogStep ENTER Y1 None);
         EvFetch (YieldDetail Y1) (Ok demo_yield);
         EvFetch (IdleBalances [mkTokenQuery "arbitrum" "0xA11CE" (Some "0xT0KEN")]) (Ok []);
         EvLog LogNoBalance]) /\
  continues_with (scripted native_world)
    (ActionSession "enter" Y1 "0xA11CE" (Some (JStr "100")))
    (emit initialState
          [EvLog (LogStep ENTER Y1 None);
           EvFetch (YieldDetail Y1) (Ok native_yield);
           EvFetch (IdleBalances [mkTokenQuery "arbitrum" "0xA11CE" None])
                   (Ok [mkTokenBalance "100" (mkToken (Some "0xT0KEN") "TKN")])])
    (runScenarioStep (scripted native_world) 7 ENTER Y1 demo_wallet None initialState).
Proof.
  split.
  - apply (proj1 (enter_without_amount_by_sign_of_the_balance
             (B := reference_builtins) (scripted no_idle) 7 Y1 None demo_wallet
             initialState demo_yield [] eq_refl eq_refl eq_refl) eq_refl).
  - apply (proj2 (enter_without_amount_by_sign_of_the_balance
             (B := reference_builtins) (scripted native_world) 7 Y1 None demo_wallet
             initialState native_yield
             [mkTokenBalance "100" (mkToken (Some "0xT0KEN") "TKN")]
             eq_refl eq_refl eq_refl) eq_refl).
Defined.



Lemma Heard_heard (sc : Script) (text : string) :
  sc_chat sc "hello" = says text ->
  Heard (scripted sc) CHAT_INSTRUCTIONS "hello" initialState text (heard text).
Proof.
  intros H. exists (mkChat [mkChoice (Some (mkMessage (Some text)))]).
  cbv zeta. cbn [scripted chat_completions_create]. rewrite H. repeat split.
Defined.

(** The four cases of intake. *)
Lemma intake_of_the_fenced_block_witness :
  runAiScenario (scripted (answering empty_object_answer)) 7
                CHAT_INSTRUCTIONS "hello" demo_wallet initialState =
  (Ret false, heard empty_object_answer) /\
  runAiScenario (scripted (answering broken_answer)) 7
                CHAT_INSTRUCTIONS "hello" demo_wallet initialState =
  (Ret false, emit (heard broken_answer) [EvLog LogFailedToParse]) /\
  runAiScenario (scripted (answering stepless_answer)) 7
                CHAT_INSTRUCTIONS "hello" demo_wallet initialState =
  (Ret false, emit (heard stepless_answer) [EvLog LogMissingSteps]) /\
  runAiScenario (scripted (answering terse_answer)) 7
                CHAT_INSTRUCTIONS "hello" demo_wallet initialState =
  match run_steps (scripted (answering terse_answer)) 7 [exit_five] demo_wallet
                  (heard terse_answer) with
  | (Ret _, s2) => (Ret true, s2)
  | (Throw e, s2) => (Throw e, s2)
  | (OutOfFuel, s2) => (OutOfFuel, s2)
  end.
Proof.
  split; [| split; [| split]].
  - apply (proj1 (intake_of_the_fenced_block
             (B := reference_builtins) (scripted (answering empty_object_answer))
             7 CHAT_INSTRUCTIONS "hello" demo_wallet
             initialState (heard empty_object_answer) empty_object_answer
             (nl ++ "{}" ++ nl)%string
             (Heard_heard (answering empty_object_answer) empty_object_answer eq_refl)
             eq_refl) eq_refl).
  - apply (proj1 (proj2 (intake_of_the_fenced_block
             (B := reference_builtins) (scripted (answering broken_answer))
             7 CHAT_INSTRUCTIONS "hello" demo_wallet
             initialState (heard broken_answer) broken_answer
             (nl ++ "{steps: oops" ++ nl)%string
             (Heard_heard (answering broken_answer) broken_answer eq_refl)
             eq_refl)) eq_refl).
  - apply (proj1 (proj2 (proj2 (intake_of_the_fenced_block
             (B := reference_builtins) (scripted (answering stepless_answer))
             7 CHAT_INSTRUCTIONS "hello" demo_wallet
             initialState (heard stepless_answer) stepless_answer
             (nl ++ "{" ++ dq ++ "description" ++ dq ++ ": 1}" ++ nl)%string
             (Heard_heard (answering stepless_answer) stepless_answer eq_refl)
             eq_refl)))
             [("description", JNum 1)] eq_refl).
    + discriminate.
    + intros items. discriminate.
  - apply (proj2 (proj2 (proj2 (intake_of_the_fenced_block
             (B := reference_builtins) (scripted (answering terse_answer))
             7 CHAT_INSTRUCTIONS "hello" demo_wallet
             initialState (heard terse_answer) terse_answer
             (nl ++ block_of_one_step ++ nl)%string
             (Heard_heard (answering terse_answer) terse_answer eq_refl)
             eq_refl)))
             [("steps", JArr [exit_five])] [exit_five] eq_refl eq_refl).
Defined.

(** An answer without a block is no action; an answer that goes on after
    its block is taken as the block says. *)
Lemma answer_without_block_is_no_action_witness :
  runAiScenario (scripted (answering plain_answer)) 7
                CHAT_INSTRUCTIONS "hello" demo_wallet initialState =
  (Ret false, heard plain_answer) /\
  runAiScenario (scripted (answering chatty_answer)) 7
                CHAT_INSTRUCTIONS "hello" demo_wallet initialState =
  match parseOpFromCodeBlock terse_answer (heard chatty_answer) with
  | (Ret None, s2) => (Ret false, s2)
  | (Ret (Some op), s2) =>
      match run_steps (scripted (answering chatty_answer)) 7 (steps op) demo_wallet s2 with
      | (Ret _, s3) => (Ret true, s3)
      | (Throw e, s3) => (Throw e, s3)
      | (OutOfFuel, s3) => (OutOfFuel, s3)
      end
  | (Throw e, s2) => (Throw e, s2)
  | (OutOfFuel, s2) => (OutOfFuel, s2)
  end.
Proof.
  split.
  - apply (proj1 (answer_without_block_is_no_action
             (B := reference_builtins) (scripted (answering plain_answer))
             7 CHAT_INSTRUCTIONS "hello" demo_wallet initialState
             (heard plain_answer) plain_answer
             (Heard_heard (answering plain_answer) plain_answer eq_refl))).
    intros before group1 after H.
    apply (scenarioRegex_exec_complete before group1 after).
    rewrite <- H. reflexivity.
  - apply (proj2 (answer_without_block_is_no_action
             (B := reference_builtins) (scripted (answering chatty_answer))
             7 CHAT_INSTRUCTIONS "hello" demo_wallet initialState
             (heard chatty_answer) chatty_answer
             (Heard_heard (answering chatty_answer) chatty_answer eq_refl))
           terse_answer trailing_text (nl ++ block_of_one_step ++ nl)%string
           eq_refl eq_refl).
Defined.

(** C7 in its original form fails for an answer that goes on after its
    block: the step of the block runs and the aggregator is written to (a
    session, a construction, a submission). *)
Lemma text_after_the_block_does_not_stop_the_steps :
  chatty_answer =
    ("Withdrawing as asked." ++ nl ++ "```json" ++ nl ++ block_of_one_step ++ nl ++ "```"
       ++ nl ++ "Let me know if you need anything else.")%string /\
  fst (runAiScenario (scripted (answering chatty_answer)) 7
                     CHAT_INSTRUCTIONS "hello" demo_wallet initialState) = Ret true /\
  aggregator_writes
    (trace (snd (runAiScenario (scripted (answering chatty_answer)) 7
                               CHAT_INSTRUCTIONS "hello" demo_wallet initialState))) = 3.
Proof. repeat split; vm_compute; reflexivity. Qed.

(** An operation of two steps in the calm world, the first with a
    transaction that is abandoned in another: both end with their refresh;
    and a refresh ends in the same state whatever data it started with. *)
Lemma steps_run_in_order_and_end_with_a_refresh_witness :
  StepsRun (scripted tx1_unconstructible) 7 demo_wallet [exit_all; enter_all] initialState
           (snd (run_steps (scripted tx1_unconstructible) 7 [exit_all; enter_all]
                           demo_wallet initialState)) /\
  refreshEarnAgentData (scripted calm) "0xA11CE"
                       (set_data (mkData [native_yield] [] [("native", "1")]) initialState) =
  (Ret tt, snd (refreshEarnAgentData (scripted calm) "0xA11CE" initialState)).
Proof.
  split.
  - apply (proj1 (proj2 (steps_run_in_order_and_end_with_a_refresh
             (B := reference_builtins) (scripted tx1_unconstructible) 7 demo_wallet))).
    vm_compute. reflexivity.
  - apply (proj1 (proj2 (proj2 (proj2 (steps_run_in_order_and_end_with_a_refresh
             (B := reference_builtins) (scripted calm) 7 demo_wallet)))
             initialState _ (mkData [native_yield] [] [("native", "1")])
             ltac:(vm_compute; reflexivity))).
Defined.

(** A tick that finds the agent busy is dropped; a tick whose cycle fails
    (the aggregator is down) still returns, with the flag cleared. *)
Lemma busy_flag_gates_every_trigger_witness :
  on_trigger (scripted calm) 7 demo_wallet Tick (set_busy true initialState) =
  (Ret tt, emit (set_busy true initialState) [EvLog LogBusySkipInterval]) /\
  on_trigger (scripted calm) 7 demo_wallet (Input "hello") (set_busy true initialState) =
  (Ret tt, emit (set_busy true initialState) [EvLog LogBusyPleaseWait]) /\
  on_trigger (scripted offline) 7 demo_wallet Tick initialState =
  (Ret tt,
   emit initialState
        [EvLog LogRefreshing; EvFetch ListYields (NotOk 502); EvLog LogIntervalError]).
Proof.
  split; [| split].
  - apply (proj1 (proj2 (busy_flag_gates_every_trigger
             (B := reference_builtins) (scripted calm) 7 demo_wallet))
           Tick (set_busy true initialState) eq_refl).
  - apply (proj1 (proj2 (busy_flag_gates_every_trigger
             (B := reference_builtins) (scripted calm) 7 demo_wallet))
           (Input "hello") (set_busy true initialState) eq_refl).
  - rewrite (proj1 (proj2 (proj2 (busy_flag_gates_every_trigger
               (B := reference_builtins) (scripted offline) 7 demo_wallet)))
             Tick initialState eq_refl).
    reflexivity.
Defined.

(** * Two scenarios, end to end *)

(** One yield, an idle balance of 100, and the answer "deposit into Y1": the
    amount resolves to 100, one session is created, its transaction is
    driven to confirmation, and the refresh leaves the fetched data. *)
Example scenario_deposit_idle_balance :
  let run := runAiScenario (scripted (answering deposit_answer)) 7
                           CHAT_INSTRUCTIONS "hello" demo_wallet initialState in
  fst run = Ret true /\
  skipn 2 (trace (snd run)) =
    [EvLog (LogStep ENTER Y1 None);
     EvFetch (YieldDetail Y1) (Ok demo_yield);
     EvFetch (IdleBalances [mkTokenQuery "arbitrum" "0xA11CE" (Some "0xT0KEN")])
             (Ok [mkTokenBalance "100" (mkToken (Some "0xT0KEN") "TKN")]);
     EvFetch (ActionSession "enter" Y1 "0xA11CE" (Some (JStr "100")))
             (Ok (mkSession [demo_tx "tx1"]));
     EvLog (LogTx "STAKE");
     EvFetch (ConstructTx "tx1") (Ok (Some demo_unsigned));
     EvSign (JObj []) (Resolved "0xSIGNED");
     EvFetch (SubmitTx "tx1" "0xSIGNED") (Ok (JObj []));
     EvLog (LogSubmitted (JObj []));
     EvFetch (StatusTx "tx1") (Ok (Some (mkTxStatus "PENDING" None)));
     EvLog LogPending;
     EvSleep 2000;
     EvFetch (StatusTx "tx1")
             (Ok (Some (mkTxStatus "CONFIRMED" (Some "https://scan/tx1"))));
     EvLog (LogConfirmed (Some "https://scan/tx1"));
     EvLog (LogStepDone ENTER Y1);
     EvLog LogRefreshing;
     EvFetch ListYields (Ok (mkPage [demo_yield]));
     EvFetch (PositionBalances [("0xA11CE", "Y1")])
             (Ok [mkYieldBalances "Y1" [mkBalance "staked" "50"]]);
     EvFetch (IdleBalances [mkTokenQuery "arbitrum" "0xA11CE" (Some "0xt0ken")])
             (Ok [mkTokenBalance "100" (mkToken (Some "0xT0KEN") "TKN")]);
     EvLog LogRefreshed] /\
  earnAgentData (snd run) =
    mkData [demo_yield] [mkPosition "Y1" "50"] [("0xt0ken", "100")].
Proof. repeat split; vm_compute; reflexivity. Qed.

(** An answer without a block: nothing but the chat call and the console. *)
Example scenario_no_block :
  runAiScenario (scripted (answering plain_answer)) 7
                CHAT_INSTRUCTIONS "hello" demo_wallet initialState =
  (Ret false,
   emit initialState
        [EvChat (system_prompt initialData CHAT_INSTRUCTIONS) "hello" (says plain_answer);
         EvLog (LogAgentSays plain_answer)]).
Proof. vm_compute. reflexivity. Qed.

(** * Further properties of the code *)

(** ** [filterSortYields] *)

Lemma insert_by_apy_perm (x : YieldOpportunity) (l : list YieldOpportunity) :
  Permutation (x :: l) (insert_by_apy x l).
Proof.
  induction l as [| y l IH]; simpl; [apply Permutation_refl |].
  destruct (Qle_bool (apy y) (apy x)); [apply Permutation_refl |].
  eapply perm_trans; [apply perm_swap |]. now apply perm_skip.
Qed.

Lemma insert_by_apy_sorted (x : YieldOpportunity) (l : list YieldOpportunity) :
  StronglySorted apy_desc l -> StronglySorted apy_desc (insert_by_apy x l).
Proof.
  induction l as [| y l IH]; intros Hs; simpl.
  - constructor; constructor.
  - destruct (Qle_bool (apy y) (apy x)) eqn:E.
    + apply Qle_bool_iff in E. constructor; [exact Hs |].
      constructor; [exact E |].
      apply StronglySorted_inv in Hs as [_ Hall].
      eapply Forall_impl; [| exact Hall].
      intros z Hz. unfold apy_desc in *. eapply Qle_trans; eassumption.
    + assert (Hlt : (apy x <= apy y)%Q).
      { apply Qlt_le_weak, Qnot_le_lt. intros H.
        apply Qle_bool_iff in H. rewrite H in E. discriminate. }
      apply StronglySorted_inv in Hs as [Hs Hall].
      constructor; [now apply IH |].
      eapply Permutation_Forall; [apply insert_by_apy_perm |].
      constructor; assumption.
Qed.

Lemma sort_by_apy_desc_perm (l : list YieldOpportunity) :
  Permutation l (sort_by_apy_desc l).
Proof.
  induction l as [| x l IH]; simpl; [constructor |].
  eapply perm_trans; [| apply insert_by_apy_perm]. now apply perm_skip.
Qed.

Lemma filterSortYields_sorted (all : list YieldOpportunity) :
  StronglySorted apy_desc (filterSortYields all).
Proof.
  unfold filterSortYields. induction (filter yield_usable all) as [| x l IH]; simpl.
  - constructor.
  - now apply insert_by_apy_sorted.
Qed.

Lemma filterSortYields_In (all : list YieldOpportunity) (y : YieldOpportunity) :
  In y (filterSortYields all) <-> In y all /\ yield_usable y = true.
Proof.
  rewrite <- filter_In. split; intros H.
  - eapply Permutation_in; [apply Permutation_sym, sort_by_apy_desc_perm | exact H].
  - eapply Permutation_in; [apply sort_by_apy_desc_perm | exact H].
Qed.

(** X1. [filterSortYields] keeps exactly the yields that can be entered and
    left and have no cooldown, warm-up or withdrawal period, each as often
    as it is listed, and orders them by descending [apy]. *)
Theorem filterSortYields_keeps_usable_sorted (all : list YieldOpportunity) :
  Permutation (filter yield_usable all) (filterSortYields all) /\
  StronglySorted apy_desc (filterSortYields all) /\
  (forall y, In y (filterSortYields all) <-> In y all /\ yield_usable y = true).
Proof.
  split; [apply sort_by_apy_desc_perm |].
  split; [apply filterSortYields_sorted | apply filterSortYields_In].
Qed.

Lemma insert_by_apy_ties (q : Q) (x : YieldOpportunity) (l : list YieldOpportunity) :
  filter (fun y => Qeq_bool (apy y) q) (insert_by_apy x l) =
  filter (fun y => Qeq_bool (apy y) q) (x :: l).
Proof.
  induction l as [| y l IH]; [reflexivity |].
  cbn [insert_by_apy]. destruct (Qle_bool (apy y) (apy x)) eqn:E; [reflexivity |].
  cbn [filter] in *. rewrite IH.
  destruct (Qeq_bool (apy y) q) eqn:Ey; [| reflexivity].
  destruct (Qeq_bool (apy x) q) eqn:Ex; [| reflexivity].
  exfalso. apply Qeq_bool_iff in Ey, Ex.
  assert (H : (apy y <= apy x)%Q) by (rewrite Ey, Ex; apply Qle_refl).
  apply Qle_bool_iff in H. rewrite H in E. discriminate.
Qed.

(** X2. The sort of [filterSortYields] is stable: the usable yields of one
    [apy] come out in the order in which the catalog lists them. *)
Theorem filterSortYields_keeps_order_of_ties (q : Q) (all : list YieldOpportunity) :
  filter (fun y => Qeq_bool (apy y) q) (filterSortYields all) =
  filter (fun y => Qeq_bool (apy y) q) (filter yield_usable all).
Proof.
  unfold filterSortYields. induction (filter yield_usable all) as [| x l IH];
    [reflexivity |].
  cbn [sort_by_apy_desc fold_right]. rewrite insert_by_apy_ties.
  cbn [filter]. fold (sort_by_apy_desc l). rewrite IH. reflexivity.
Qed.

Lemma sort_by_apy_desc_sorted (l : list YieldOpportunity) :
  StronglySorted apy_desc l -> sort_by_apy_desc l = l.
Proof.
  induction 1 as [| x l Hs IH Hall]; [reflexivity |].
  cbn [sort_by_apy_desc fold_right]. fold (sort_by_apy_desc l). rewrite IH.
  destruct l as [| y l]; [reflexivity |].
  cbn [insert_by_apy]. inversion Hall as [| ? ? Hxy _]; subst.
  unfold apy_desc in Hxy. apply Qle_bool_iff in Hxy. now rewrite Hxy.
Qed.

(** X3. A catalog that is already filtered and sorted is left as it is. *)
Theorem filterSortYields_idempotent (all : list YieldOpportunity) :
  filterSortYields (filterSortYields all) = filterSortYields all.
Proof.
  assert (Hfilter : filter yield_usable (filterSortYields all) = filterSortYields all).
  { apply forallb_filter_id. apply forallb_forall. intros y Hy.
    now apply filterSortYields_In in Hy. }
  unfold filterSortYields at 1. rewrite Hfilter.
  apply sort_by_apy_desc_sorted, filterSortYields_sorted.
Qed.

(** ** What a computation emits *)

Lemma emits_ret (P : Event -> Prop) {A} (a : A) : emits P (ret a).
Proof. intros s. exists []. simpl. now rewrite app_nil_r. Qed.

Lemma emits_throw (P : Event -> Prop) {A} (e : Exn) : emits P (@throw A e).
Proof. intros s. exists []. simpl. now rewrite app_nil_r. Qed.

Lemma emits_out_of_fuel (P : Event -> Prop) {A} : emits P (@out_of_fuel A).
Proof. intros s. exists []. simpl. now rewrite app_nil_r. Qed.

Lemma emits_bind (P : Event -> Prop) {A C} (m : M A) (k : A -> M C) :
  emits P m -> (forall a, emits P (k a)) -> emits P (bind m k).
Proof.
  intros Hm Hk s. unfold bind. destruct (Hm s) as (e1 & Ht1 & Hp1).
  destruct (m s) as [[a | e |] s1]; simpl in Ht1.
  - destruct (Hk a s1) as (e2 & Ht2 & Hp2).
    exists (e1 ++ e2). split; [| now apply Forall_app].
    rewrite Ht2, Ht1. now rewrite app_assoc.
  - now exists e1.
  - now exists e1.
Qed.

Lemma emits_attempt (P : Event -> Prop) {A} (m : M A) :
  emits P m -> emits P (attempt m).
Proof.
  intros Hm s. unfold attempt. destruct (Hm s) as (e1 & Ht1 & Hp1).
  destruct (m s) as [[a | e |] s1]; simpl in *; now exists e1.
Qed.

Lemma emits_log (P : Event -> Prop) (l : LogLine) : P (EvLog l) -> emits P (log l).
Proof. intros H s. exists [EvLog l]. split; [reflexivity | now constructor]. Qed.

Lemma emits_sleep (P : Event -> Prop) (ms : Z) : P (EvSleep ms) -> emits P (sleep ms).
Proof. intros H s. exists [EvSleep ms]. split; [reflexivity | now constructor]. Qed.

Lemma emits_get_data (P : Event -> Prop) : emits P get_data.
Proof. intros s. exists []. simpl. now rewrite app_nil_r. Qed.

Lemma emits_put_data (P : Event -> Prop) (d : EarnAgentData) : emits P (put_data d).
Proof. intros s. exists []. simpl. now rewrite app_nil_r. Qed.

Lemma emits_impl (P Q : Event -> Prop) {A} (m : M A) :
  (forall e, P e -> Q e) -> emits P m -> emits Q m.
Proof.
  intros HPQ Hm s. destruct (Hm s) as (evs & Ht & Hp).
  exists evs. split; [exact Ht |]. eapply Forall_impl; eassumption.
Qed.

Section Emissions.
Context {B : Builtins}.
Variable env : Env.

Lemma emits_request (P : Event -> Prop) (r : Request) :
  (forall reply, P (EvFetch r reply)) -> emits P (request env r).
Proof.
  intros H s. exists [EvFetch r (fetch env (trace s) r)].
  split; [| now constructor]. unfold request.
  destruct (fetch env (trace s) r); reflexivity.
Qed.

Lemma emits_sign (P : Event -> Prop) (wallet : Wallet) (payload : JSON) :
  (forall reply, P (EvSign payload reply)) ->
  emits P (wallet_signTransaction env wallet payload).
Proof.
  intros H s. exists [EvSign payload (signTransaction env (trace s) wallet payload)].
  split; [| now constructor]. unfold wallet_signTransaction.
  destruct (signTransaction env (trace s) wallet payload); reflexivity.
Qed.

Lemma emits_json_parse (P : Event -> Prop) (text : string) : emits P (json_parse text).
Proof.
  unfold json_parse. destruct (JSON_parse text); [apply emits_ret | apply emits_throw].
Qed.

Lemma emits_fetchEarningPositions_loop (P : Event -> Prop) (address : string) :
  (forall payload reply, P (EvFetch (PositionBalances payload) reply)) ->
  forall n remaining positions,
    emits P (fetchEarningPositions_loop env n remaining address positions).
Proof.
  intros H. induction n as [| n IH]; intros remaining positions.
  - apply emits_ret.
  - destruct remaining as [| y rest]; [apply emits_ret |].
    cbn [fetchEarningPositions_loop]. apply emits_bind.
    + apply emits_request. intros reply. apply H.
    + intros resp. apply IH.
Qed.

Lemma emits_refreshEarnAgentData (address : string) :
  emits read_only (refreshEarnAgentData env address).
Proof.
  unfold refreshEarnAgentData, fetchAllYields, fetchEarningPositions, fetchUserBalances.
  repeat first
    [ apply emits_ret | apply emits_get_data | apply emits_put_data
    | apply emits_log; exact I
    | apply emits_request; intros reply; reflexivity
    | apply emits_fetchEarningPositions_loop; intros payload reply; reflexivity
    | apply emits_bind; [| intros ?] ].
Qed.

Lemma emits_construct_loop (P : Event -> Prop) (txId : string) :
  (forall reply, P (EvFetch (ConstructTx txId) reply)) ->
  (forall l, P (EvLog l)) -> (forall ms, P (EvSleep ms)) ->
  forall n i, emits P (construct_loop env n i txId).
Proof.
  intros Hc Hl Hs. induction n as [| n IH]; intros i; [apply emits_ret |].
  cbn [construct_loop]. apply emits_bind.
  - apply emits_attempt, emits_request, Hc.
  - intros [e | u]; [| apply emits_ret].
    apply emits_bind; [apply emits_log, Hl | intros _].
    apply emits_bind; [apply emits_sleep, Hs | intros _]. apply IH.
Qed.

Lemma emits_poll_status (P : Event -> Prop) (txId : string) :
  (forall reply, P (EvFetch (StatusTx txId) reply)) ->
  (forall l, P (EvLog l)) -> (forall ms, P (EvSleep ms)) ->
  forall fuel, emits P (poll_status env fuel txId).
Proof.
  intros Hc Hl Hs. induction fuel as [| fuel IH]; [apply emits_out_of_fuel |].
  cbn [poll_status]. apply emits_bind.
  - apply emits_attempt, emits_request, Hc.
  - intros [e | [st |]]; try (apply emits_log, Hl).
    destruct (st_status st =? "CONFIRMED"); [apply emits_log, Hl |].
    destruct (st_status st =? "FAILED"); [apply emits_log, Hl |].
    apply emits_bind; [apply emits_log, Hl | intros _].
    apply emits_bind; [apply emits_sleep, Hs | intros _]. apply IH.
Qed.

Lemma emits_processTransactions_own (fuel : nat) (wallet : Wallet) (txs : list Transaction) :
  emits (lifecycle_of (live_ids txs)) (processTransactions env fuel txs wallet).
Proof.
  induction txs as [| tx rest IH]; [apply emits_ret |].
  cbn [processTransactions]. unfold live_ids. cbn [filter].
  destruct (tx_status tx =? "SKIPPED") eqn:E; cbn [negb]; [exact IH |].
  cbn [map]. fold (live_ids rest).
  assert (Hrest : emits (lifecycle_of (tx_id tx :: live_ids rest))
                        (processTransactions env fuel rest wallet)).
  { eapply emits_impl; [| exact IH].
    intros [[] reply | | | |]; simpl; auto. }
  apply emits_bind; [apply emits_log; exact I | intros _].
  apply emits_bind.
  - apply emits_construct_loop; intros; simpl; auto.
  - intros [u |].
    + apply emits_bind; [| intros _; exact Hrest].
      unfold sign_submit_poll.
      apply emits_bind; [apply emits_json_parse | intros payload].
      apply emits_bind; [apply emits_sign; intros; exact I | intros signed].
      apply emits_bind; [apply emits_request; intros; simpl; auto | intros res].
      apply emits_bind; [apply emits_log; exact I | intros _].
      apply emits_poll_status; intros; simpl; auto.
    + apply emits_bind; [apply emits_log; exact I | intros _; exact Hrest].
Qed.
End Emissions.

Section Queries.
Context {B : Builtins}.
Variable env : Env.

(** *** [fetchEarningPositions] *)

Lemma collect_positions_flat_map (resp : list YieldBalances) :
  forall positions,
    collect_positions resp positions = positions ++ flat_map position_of resp.
Proof.
  induction resp as [| item rest IH]; intros positions; simpl.
  - now rewrite app_nil_r.
  - unfold position_of at 1.
    destruct (staked_entry (balances item)) as [staked |]; [| apply IH].
    destruct (gt0 (parseFloat (bal_amount staked))); [| apply IH].
    rewrite IH. now rewrite <- app_assoc.
Qed.

Lemma fetchEarningPositions_loop_batches (address : string) (n : nat) :
  forall (remaining : list YieldOpportunity) (positions : list EarningPosition) (s : State),
    (List.length remaining <= n)%nat ->
    exists evs,
      trace (snd (fetchEarningPositions_loop env n remaining address positions s)) =
        trace s ++ evs /\
      (remaining = [] -> evs = []) /\
      Forall (fun p => 1 <= List.length p <= 15)%nat (position_payloads evs) /\
      Forall (fun p => List.length p = 15%nat) (removelast (position_payloads evs)) /\
      exists rest,
        position_entries address remaining = concat (position_payloads evs) ++ rest /\
        (forall r, fst (fetchEarningPositions_loop env n remaining address positions s) = Ret r ->
                   rest = [] /\
                   r = positions ++ flat_map position_of (position_answers evs)).
Proof.
  induction n as [| n IH]; intros remaining positions s Hlen.
  - destruct remaining; [| simpl in Hlen; lia].
    exists []. simpl. rewrite app_nil_r. repeat split; auto.
    exists []. split; [reflexivity |]. intros r H. inversion H. now rewrite app_nil_r.
  - destruct remaining as [| y rest].
    { exists []. simpl. rewrite app_nil_r. repeat split; auto.
      exists []. split; [reflexivity |]. intros r H. inversion H. now rewrite app_nil_r. }
    cbn [fetchEarningPositions_loop]. unfold bind.
    set (payload := map (fun y0 => (address, id y0)) (firstn 15 (y :: rest))).
    assert (Hpay : (1 <= List.length payload <= 15)%nat).
    { unfold payload. rewrite length_map, length_firstn. simpl List.length. lia. }
    assert (Hsplit : position_entries address (y :: rest) =
                     payload ++ position_entries address (skipn 15 (y :: rest))).
    { unfold payload, position_entries. rewrite <- map_app. now rewrite firstn_skipn. }
    unfold request.
    destruct (fetch env (trace s) (PositionBalances payload)) as [resp | code |] eqn:E.
    + cbv zeta.
      destruct (IH (skipn 15 (y :: rest)) (collect_positions resp positions)
                   (emit s [EvFetch (PositionBalances payload) (Ok resp)]))
        as (evs & Ht & Hnil & Hsz & Hfull & more & Hcat & Hret).
      { rewrite length_skipn. simpl List.length in *. lia. }
      exists (EvFetch (PositionBalances payload) (Ok resp) :: evs).
      split; [| split; [discriminate |]].
      { etransitivity; [exact Ht |]. simpl. now rewrite <- app_assoc. }
      cbn [position_payloads]. split; [now constructor |]. split.
      { destruct (position_payloads evs) as [| p ps] eqn:Ep; [constructor |].
        cbn [removelast]. constructor; [| exact Hfull].
        destruct (skipn 15 (y :: rest)) as [| z zs] eqn:Es.
        - rewrite (Hnil eq_refl) in Ep. discriminate.
        - unfold payload. rewrite length_map, length_firstn.
          assert (Hl : (List.length (skipn 15 (y :: rest)) > 0)%nat)
            by (rewrite Es; simpl; lia).
          rewrite length_skipn in Hl. lia. }
      exists more. split.
      { rewrite Hsplit, Hcat. cbn [concat]. now rewrite app_assoc. }
      intros r Hr. destruct (Hret r Hr) as [Hmore Hpos]. split; [exact Hmore |].
      rewrite Hpos, collect_positions_flat_map. unfold position_answers.
      cbn [flat_map answered_items]. rewrite flat_map_app. now rewrite <- app_assoc.
    + cbv zeta.
      exists [EvFetch (PositionBalances payload) (NotOk code)].
      split; [reflexivity |]. split; [discriminate |].
      cbn [position_payloads removelast concat].
      split; [constructor; [exact Hpay | constructor] |]. split; [constructor |].
      exists (position_entries address (skipn 15 (y :: rest))).
      split; [now rewrite app_nil_r |]. intros r Hr. discriminate.
    + cbv zeta.
      exists [EvFetch (PositionBalances payload) Unreachable].
      split; [reflexivity |]. split; [discriminate |].
      cbn [position_payloads removelast concat].
      split; [constructor; [exact Hpay | constructor] |]. split; [constructor |].
      exists (position_entries address (skipn 15 (y :: rest))).
      split; [now rewrite app_nil_r |]. intros r Hr. discriminate.
Qed.

Lemma position_of_positive (items : list YieldBalances) :
  Forall (fun p => gt0 (parseFloat (pos_amount p)) = true) (flat_map position_of items).
Proof.
  induction items as [| item rest IH]; [constructor |].
  cbn [flat_map]. apply Forall_app. split; [| exact IH].
  unfold position_of. destruct (staked_entry (balances item)) as [staked |]; [| constructor].
  destruct (gt0 (parseFloat (bal_amount staked))) eqn:E; constructor; [exact E | constructor].
Qed.

(** X4. [fetchEarningPositions] asks about the yields in order, in queries
    of 15 entries: every query carries between 1 and 15 entries, every query
    but the last exactly 15, together they are a prefix of the entries of
    all yields, and all of them once the function returns.  An empty catalog
    causes no query. *)
Theorem position_queries_are_batches_of_fifteen
        (yields : list YieldOpportunity) (address : string) (s : State) :
  exists evs,
    trace (snd (fetchEarningPositions env yields address s)) = trace s ++ evs /\
    (yields = [] -> evs = []) /\
    Forall (fun p => 1 <= List.length p <= 15)%nat (position_payloads evs) /\
    Forall (fun p => List.length p = 15%nat) (removelast (position_payloads evs)) /\
    exists rest,
      position_entries address yields = concat (position_payloads evs) ++ rest /\
      (forall r, fst (fetchEarningPositions env yields address s) = Ret r -> rest = []).
Proof.
  destruct (fetchEarningPositions_loop_batches address (List.length yields) yields [] s
              (le_n _)) as (evs & Ht & Hnil & Hsz & Hfull & rest & Hcat & Hret).
  exists evs. repeat (split; [assumption |]).
  exists rest. split; [exact Hcat |]. intros r Hr. now destruct (Hret r Hr).
Qed.

(** X5. When [fetchEarningPositions] returns, the positions are, in the
    order of the answers, one for each answered item whose staked entry
    parses to an amount above zero, and nothing else; no returned position
    has an amount that is zero, negative or not a number. *)
Theorem positions_are_the_answered_items_with_stake
        (yields : list YieldOpportunity) (address : string) (s s' : State)
        (positions : list EarningPosition) :
  fetchEarningPositions env yields address s = (Ret positions, s') ->
  exists evs,
    trace s' = trace s ++ evs /\
    positions = flat_map position_of (position_answers evs) /\
    Forall (fun p => gt0 (parseFloat (pos_amount p)) = true) positions.
Proof.
  intros Hrun.
  destruct (fetchEarningPositions_loop_batches address (List.length yields) yields [] s
              (le_n _)) as (evs & Ht & _ & _ & _ & rest & _ & Hret).
  fold (fetchEarningPositions env yields address) in Ht, Hret.
  rewrite Hrun in Ht, Hret. destruct (Hret positions eq_refl) as [_ Hpos].
  exists evs. split; [exact Ht |]. split; [exact Hpos |].
  rewrite Hpos. apply position_of_positive.
Qed.

(** *** [fetchUserBalances] *)

Lemma set_add_last_In (x a : string) (l : list string) :
  In a (set_add_last x l) <-> a = x \/ In a l.
Proof.
  unfold set_add_last. destruct (existsb (String.eqb x) l) eqn:E.
  - split; [now right |]. intros [-> | H]; [| exact H].
    apply existsb_exists in E as (y & Hy & Heq). apply String.eqb_eq in Heq. now subst.
  - rewrite in_app_iff. simpl. intuition.
Qed.

Lemma set_add_last_NoDup (x : string) (l : list string) :
  NoDup l -> NoDup (set_add_last x l).
Proof.
  intros Hl. unfold set_add_last. destruct (existsb (String.eqb x) l) eqn:E; [exact Hl |].
  apply NoDup_app; [exact Hl | repeat constructor; intros [] |].
  intros a Ha [Heq | []]. subst a.
  assert (existsb (String.eqb x) l = true); [| congruence].
  apply existsb_exists. exists x. split; [exact Ha | apply String.eqb_refl].
Qed.


Lemma token_addresses_fold (yields : list YieldOpportunity) :
  forall acc,
    let addrs :=
      fold_left
        (fun addrs y =>
           match token y with
           | Some t =>
               match token_address t with
               | Some a => if a =? "" then addrs else set_add_last a addrs
               | None => addrs
               end
           | None => addrs
           end) yields acc in
    (NoDup acc -> NoDup addrs) /\
    (forall a, In a addrs <-> In a acc \/ (a <> "" /\ has_token_address yields a)).
Proof.
  induction yields as [| y rest IH]; intros acc; cbn zeta.
  - simpl. split; [auto |]. intros a. split; [now left |].
    intros [H | [_ (y & t & [] & _)]]. exact H.
  - cbn [fold_left].
    match goal with |- context [fold_left ?f rest ?acc'] =>
      destruct (IH acc') as [Hnd Hin] end.
    cbn zeta in Hnd, Hin.
    assert (Hcons : forall a, has_token_address (y :: rest) a <->
                              (exists t, token y = Some t /\ token_address t = Some a) \/
                              has_token_address rest a).
    { intros a. unfold has_token_address. split.
      - intros (y' & t & [<- | Hy] & Ht & Ha); [left; now exists t |].
        right. now exists y', t.
      - intros [(t & Ht & Ha) | (y' & t & Hy & Ht & Ha)].
        + exists y, t. simpl. auto.
        + exists y', t. simpl. auto. }
    destruct (token y) as [t |] eqn:Et.
    2:{ split; [exact Hnd |]. intros a. rewrite Hin, Hcons.
        split; [tauto |]. intros [H | [Hne [(t & Ht & _) | H]]]; [tauto | discriminate | tauto]. }
    destruct (token_address t) as [a0 |] eqn:Ea.
    2:{ split; [exact Hnd |]. intros a. rewrite Hin, Hcons.
        split; [tauto |].
        intros [H | [Hne [(t' & Ht & Ha) | H]]]; [tauto | | tauto].
        injection Ht as <-. congruence. }
    destruct (a0 =? "") eqn:E0.
    + apply String.eqb_eq in E0. subst a0.
      split; [exact Hnd |]. intros a. rewrite Hin, Hcons.
      split; [tauto |].
      intros [H | [Hne [(t' & Ht & Ha) | H]]]; [tauto | | tauto].
      injection Ht as <-. congruence.
    + apply String.eqb_neq in E0.
      split; [intros H; now apply Hnd, set_add_last_NoDup |].
      intros a. rewrite Hin, set_add_last_In, Hcons. split.
      * intros [[-> | H] | H]; [| tauto | tauto].
        right. split; [exact E0 |]. left. now exists t.
      * intros [H | [Hne [(t' & Ht & Ha) | H]]]; [tauto | | tauto].
        injection Ht as <-. left. left. congruence.
Qed.

Lemma NoDup_map_on {A C} (g : A -> C) (l : list A) :
  NoDup l ->
  (NoDup (map g l) <-> forall a b, In a l -> In b l -> g a = g b -> a = b).
Proof.
  induction 1 as [| x l Hx Hl IH]; cbn [map].
  - split; [intros _ a b [] | constructor].
  - split.
    + intros Hnd. inversion Hnd as [| ? ? Hgx Hgl]; subst.
      pose proof (proj1 IH Hgl) as Hinj.
      intros a b [<- | Ha] [<- | Hb] Hab; auto.
      * exfalso. apply Hgx. rewrite Hab. now apply in_map.
      * exfalso. apply Hgx. rewrite <- Hab. now apply in_map.
    + intros Hinj. constructor.
      * intros Hin. apply in_map_iff in Hin as (y & Hy & Hin).
        assert (y = x) by (apply Hinj; simpl; auto). now subst.
      * apply IH. intros a b Ha Hb. apply Hinj; now right.
Qed.

(** X6. The idle-balance query of [fetchUserBalances] has one entry for
    each distinct non-empty token address of the yields as it is spelled
    (the set compares the strings as they are), sent lower-cased with the
    network and the wallet address; it never asks for the native token.
    Its entries are pairwise different exactly when no two of those
    addresses differ only in case: addresses that do are both sent, as the
    same token address. *)
Theorem idle_balance_query_has_one_entry_per_spelled_address
        (yields : list YieldOpportunity) (address : string) :
  NoDup (token_addresses yields) /\
  (forall a, In a (token_addresses yields) <-> a <> "" /\ has_token_address yields a) /\
  balances_payload (token_addresses yields) address =
    map (fun a => mkTokenQuery NETWORK address (Some (toLowerCase a)))
        (token_addresses yields) /\
  (NoDup (balances_payload (token_addresses yields) address) <->
   forall a b,
     In a (token_addresses yields) -> In b (token_addresses yields) ->
     toLowerCase a = toLowerCase b -> a = b).
Proof.
  destruct (token_addresses_fold yields []) as [Hnd Hin]. cbn zeta in Hnd, Hin.
  fold (token_addresses yields) in Hnd, Hin.
  assert (Hiff : forall a, In a (token_addresses yields) <->
                           a <> "" /\ has_token_address yields a).
  { intros a. rewrite Hin. simpl. tauto. }
  assert (Hpay : balances_payload (token_addresses yields) address =
                 map (fun a => mkTokenQuery NETWORK address (Some (toLowerCase a)))
                     (token_addresses yields)).
  { unfold balances_payload. apply map_ext_in. intros a Ha.
    apply Hiff in Ha as [Hne _]. apply String.eqb_neq in Hne. now rewrite Hne. }
  split; [apply Hnd; constructor |]. split; [exact Hiff |]. split; [exact Hpay |].
  rewrite Hpay, NoDup_map_on by (apply Hnd; constructor).
  split; intros H a b Ha Hb Hab.
  - apply H; [exact Ha | exact Hb | now rewrite Hab].
  - apply H; [exact Ha | exact Hb | now injection Hab].
Qed.

Lemma record_set_keys (k v : string) (r : list (string * string)) :
  forall k', In k' (map fst (record_set k v r)) <-> k' = k \/ In k' (map fst r).
Proof.
  induction r as [| [k0 v0] rest IH]; intros k'; simpl.
  - intuition.
  - destruct (k0 =? k) eqn:E; simpl.
    + apply String.eqb_eq in E. subst k0. intuition.
    + rewrite IH. intuition.
Qed.

Lemma record_set_NoDup (k v : string) (r : list (string * string)) :
  NoDup (map fst r) -> NoDup (map fst (record_set k v r)).
Proof.
  induction r as [| [k0 v0] rest IH]; intros Hnd; simpl.
  - repeat constructor. intros [].
  - inversion Hnd as [| ? ? Hnotin Hrest]; subst.
    destruct (k0 =? k) eqn:E; simpl; [now constructor |].
    constructor; [| now apply IH].
    rewrite record_set_keys. intros [-> | H]; [| contradiction].
    rewrite String.eqb_refl in E. discriminate.
Qed.

Lemma record_set_here (k v : string) (r : list (string * string)) :
  In (k, v) (record_set k v r).
Proof.
  induction r as [| [k0 v0] rest IH]; simpl; [now left |].
  destruct (k0 =? k) eqn:E; simpl.
  - apply String.eqb_eq in E. subst k0. now left.
  - now right.
Qed.

Lemma record_set_other (k v k' v' : string) (r : list (string * string)) :
  k' <> k -> In (k', v') r -> In (k', v') (record_set k v r).
Proof.
  intros Hne. induction r as [| [k0 v0] rest IH]; simpl; [intros [] |].
  intros [Heq | Hin].
  - injection Heq as -> ->. apply String.eqb_neq in Hne. rewrite Hne. now left.
  - destruct (k0 =? k); [now right | right; now apply IH].
Qed.

Lemma record_set_from (k v k' v' : string) (r : list (string * string)) :
  In (k', v') (record_set k v r) -> (k' = k /\ v' = v) \/ In (k', v') r.
Proof.
  induction r as [| [k0 v0] rest IH]; simpl.
  - intros [Heq | []]. injection Heq as <- <-. now left.
  - destruct (k0 =? k) eqn:E; simpl.
    + apply String.eqb_eq in E. subst k0.
      intros [Heq | Hin]; [injection Heq as <- <-; now left | right; now right].
    + intros [Heq | Hin]; [right; now left |].
      destruct (IH Hin) as [H | H]; [now left | right; now right].
Qed.

(** One round of the loop over the answer of the idle-balance query. *)
Lemma balances_record_fold (resp : list TokenBalance) :
  forall acc,
    fold_left
      (fun record b =>
         if gt0 (parseFloat (tb_amount b)) then
           match token_address (tb_token b) with
           | None => record_set "native" (tb_amount b) record
           | Some a =>
               if a =? "" then record_set "native" (tb_amount b) record
               else record_set (toLowerCase a) (tb_amount b) record
           end
         else record) resp acc =
    fold_left
      (fun record b =>
         if gt0 (parseFloat (tb_amount b))
         then record_set (balance_key b) (tb_amount b) record
         else record) resp acc.
Proof.
  induction resp as [| b rest IH]; intros acc; [reflexivity |].
  cbn [fold_left]. rewrite IH. f_equal. unfold balance_key.
  destruct (gt0 (parseFloat (tb_amount b))); [| reflexivity].
  destruct (token_address (tb_token b)) as [a |]; [| reflexivity].
  destruct (a =? ""); reflexivity.
Qed.

Lemma balances_record_inv (resp : list TokenBalance) :
  forall acc,
    let record :=
      fold_left
        (fun record b =>
           if gt0 (parseFloat (tb_amount b))
           then record_set (balance_key b) (tb_amount b) record
           else record) resp acc in
    (NoDup (map fst acc) -> NoDup (map fst record)) /\
    (forall k v, In (k, v) record ->
       In (k, v) acc \/
       exists b, In b resp /\ balance_key b = k /\ tb_amount b = v /\
                 gt0 (parseFloat v) = true) /\
    (forall k, In k (map fst acc) -> In k (map fst record)) /\
    (forall b, In b resp -> gt0 (parseFloat (tb_amount b)) = true ->
               In (balance_key b) (map fst record)) /\
    (forall k v, In (k, v) acc ->
       (forall b, In b resp -> gt0 (parseFloat (tb_amount b)) = true -> balance_key b <> k) ->
       In (k, v) record).
Proof.
  induction resp as [| b rest IH]; intros acc; cbn zeta.
  - simpl. repeat split; auto. intros b [].
  - cbn [fold_left].
    match goal with |- context [fold_left ?f rest ?acc'] =>
      destruct (IH acc') as (Hnd & Hfrom & Hmono & Hall & Hkeep) end.
    cbn zeta in Hnd, Hfrom, Hmono, Hall, Hkeep.
    destruct (gt0 (parseFloat (tb_amount b))) eqn:Eb.
    + split; [intros H; now apply Hnd, record_set_NoDup |].
      split.
      { intros k v Hin. destruct (Hfrom k v Hin) as [H | (b' & Hb' & Hrest)].
        - apply record_set_from in H as [[-> ->] | H]; [| now left].
          right. exists b. simpl. auto.
        - right. exists b'. simpl. auto. }
      split; [intros k Hk; apply Hmono, record_set_keys; now right |].
      split.
      { intros b' [<- | Hb'] Hpos; [| now apply Hall].
        apply Hmono, record_set_keys. now left. }
      intros k v Hin Hfree. apply Hkeep.
      * apply record_set_other; [| exact Hin].
        intros ->. apply (Hfree b); simpl; auto.
      * intros b' Hb'. apply Hfree. now right.
    + split; [exact Hnd |]. split.
      { intros k v Hin. destruct (Hfrom k v Hin) as [H | (b' & Hb' & Hrest)]; [now left |].
        right. exists b'. simpl. auto. }
      split; [exact Hmono |]. split.
      { intros b' [<- | Hb'] Hpos; [congruence | now apply Hall]. }
      intros k v Hin Hfree. apply Hkeep; [exact Hin |].
      intros b' Hb'. apply Hfree. now right.
Qed.

(** X7. The record of idle balances that [fetchUserBalances] builds from the
    answer has one entry per key (the lower-cased token address, or
    [native] for an entry without one); every entry is the amount of an
    answered balance that parses above zero; every such balance has its key
    in the record, and where several share a key the last one is kept. *)
Theorem idle_balances_keep_positive_amounts_last_one_wins (resp : list TokenBalance) :
  NoDup (map fst (balances_record resp)) /\
  (forall k v, In (k, v) (balances_record resp) ->
     exists b, In b resp /\ balance_key b = k /\ tb_amount b = v /\
               gt0 (parseFloat v) = true) /\
  (forall b, In b resp -> gt0 (parseFloat (tb_amount b)) = true ->
             In (balance_key b) (map fst (balances_record resp))) /\
  (forall before b after,
     resp = before ++ b :: after ->
     gt0 (parseFloat (tb_amount b)) = true ->
     (forall b', In b' after -> gt0 (parseFloat (tb_amount b')) = true ->
                 balance_key b' <> balance_key b) ->
     In (balance_key b, tb_amount b) (balances_record resp)).
Proof.
  unfold balances_record. rewrite balances_record_fold.
  destruct (balances_record_inv resp []) as (Hnd & Hfrom & _ & Hall & _).
  cbn zeta in Hnd, Hfrom, Hall.
  split; [apply Hnd; constructor |]. split.
  { intros k v Hin. destruct (Hfrom k v Hin) as [[] | H]. exact H. }
  split; [exact Hall |].
  intros before b after -> Hpos Hfree.
  rewrite fold_left_app. cbn [fold_left]. rewrite Hpos.
  match goal with |- context [fold_left ?f after ?acc'] =>
    destruct (balances_record_inv after acc') as (_ & _ & _ & _ & Hkeep) end.
  cbn zeta in Hkeep. apply Hkeep; [apply record_set_here | exact Hfree].
Qed.
End Queries.

(** *** The fenced block *)

Lemma strip_prefix_complete (pat s : string) :
  strip_prefix pat (pat ++ s) = Some s.
Proof.
  induction pat as [| a pat IH]; simpl; [reflexivity |].
  now rewrite Ascii.eqb_refl.
Qed.

Lemma find_sub_leftmost (pat : string) :
  forall s a b x y,
    find_sub pat s = Some (a, b) ->
    s = (x ++ pat ++ y)%string ->
    String.length a <= String.length x.
Proof.
  induction s as [| c s IH]; intros a b x y Hfind Hs.
  - simpl in Hfind. destruct (strip_prefix pat ""); [| discriminate].
    injection Hfind as <- <-. simpl. lia.
  - cbn [find_sub] in Hfind.
    destruct (strip_prefix pat (String c s)) as [r |] eqn:E.
    { injection Hfind as <- <-. simpl. lia. }
    destruct (find_sub pat s) as [[a' b'] |] eqn:E'; [| discriminate].
    injection Hfind as <- <-.
    destruct x as [| c' x].
    + simpl in Hs. rewrite Hs, strip_prefix_complete in E. discriminate.
    + simpl in Hs. injection Hs as <- Hs.
      simpl. apply le_n_S. exact (IH a' b' x y eq_refl Hs).
Qed.

Lemma string_app_same_length (a b u v : string) :
  (a ++ u = b ++ v)%string -> String.length a = String.length b -> a = b /\ u = v.
Proof.
  revert b. induction a as [| x a IH]; intros [| y b] H Hlen; simpl in *;
    try discriminate.
  - now split.
  - injection H as -> H. injection Hlen as Hlen.
    destruct (IH b H Hlen) as [-> ->]. now split.
Qed.

(** X8. The expression of [parseOpFromCodeBlock] finds nothing exactly when
    the text holds no opening fence followed by a closing fence; what it
    captures lies between the leftmost opening fence and the first closing
    fence after it, so no other way of reading a block out of the text starts
    earlier, or starts there and is shorter. *)
Theorem block_is_the_leftmost_and_shortest (aiText : string) :
  (scenarioRegex_exec aiText = None <->
   forall before group1 after,
     aiText <> (before ++ "```json" ++ group1 ++ "```" ++ after)%string) /\
  (forall group1,
     scenarioRegex_exec aiText = Some group1 ->
     exists before after,
       aiText = (before ++ "```json" ++ group1 ++ "```" ++ after)%string /\
       forall before' group1' after',
         aiText = (before' ++ "```json" ++ group1' ++ "```" ++ after')%string ->
         String.length before <= String.length before' /\
         (String.length before' = String.length before ->
          String.length group1 <= String.length group1')).
Proof.
  split.
  - split.
    + intros Hnone before group1 after ->.
      now apply (scenarioRegex_exec_complete before group1 after).
    + intros Hno. destruct (scenarioRegex_exec aiText) as [g |] eqn:E; [| reflexivity].
      destruct (scenarioRegex_exec_sound _ _ E) as (before & after & Ht).
      now destruct (Hno before g after).
  - intros group1. unfold scenarioRegex_exec.
    destruct (find_sub "```json" aiText) as [[before rest] |] eqn:E1; [| discriminate].
    destruct (find_sub "```" rest) as [[g after] |] eqn:E2; [| discriminate].
    intros Hg. injection Hg as ->.
    pose proof (find_sub_sound _ _ _ _ E1) as H1.
    pose proof (find_sub_sound _ _ _ _ E2) as H2.
    exists before, after. split; [now rewrite H1, H2 |].
    intros before' group1' after' Ht.
    split; [exact (find_sub_leftmost _ _ _ _ _ _ E1 Ht) |].
    intros Hlen. rewrite H1 in Ht.
    destruct (string_app_same_length _ _ _ _ Ht (eq_sym Hlen)) as [_ Hrest].
    assert (Hrest' : rest = (group1' ++ "```" ++ after')%string).
    { simpl in Hrest. now repeat injection Hrest as Hrest. }
    exact (find_sub_leftmost _ _ _ _ _ _ E2 Hrest').
Qed.

Section Intake.
Context {B : Builtins}.

(** X9. [parseOpFromCodeBlock] never throws.  It prints at most one console
    line and does nothing else.  It gives an operation exactly when the text
    has a block whose trimmed content parses to an object with an array
    under [steps], and then prints nothing; the parse-failure line is
    printed exactly when the content does not parse or parses to [null]. *)
Theorem parseOpFromCodeBlock_only_reads_and_reports (aiText : string) (s : State) :
  exists (r : option EarnAgentOp) (line : option LogLine),
    parseOpFromCodeBlock aiText s =
      (Ret r, match line with Some l => emit s [EvLog l] | None => s end) /\
    (forall op, r = Some op <->
       line = None /\
       exists group1 members,
         scenarioRegex_exec aiText = Some group1 /\
         JSON_parse (trim group1) = Some (JObj members) /\
         lookup_member "steps" members = Some (JArr (steps op))) /\
    (line = Some LogFailedToParse <->
       exists group1,
         scenarioRegex_exec aiText = Some group1 /\
         (JSON_parse (trim group1) = None \/ JSON_parse (trim group1) = Some JNull)) /\
    (line = None \/ line = Some LogFailedToParse \/ line = Some LogMissingSteps).
Proof.
  unfold parseOpFromCodeBlock.
  destruct (scenarioRegex_exec aiText) as [g |] eqn:Eg.
  2:{ exists None, None. split; [reflexivity |]. split; [| split; [| now left]].
      - intros op. split; [discriminate |]. intros (_ & g & m & H & _). discriminate.
      - split; [discriminate |]. intros (g & H & _). discriminate. }
  destruct (JSON_parse (trim g)) as [v |] eqn:Ev.
  2:{ exists None, (Some LogFailedToParse). split; [reflexivity |].
      split; [| split; [| right; now left]].
      - intros op. split; [discriminate |]. intros (H & _). discriminate.
      - split; [| reflexivity]. intros _. exists g. split; [reflexivity |]. now left. }
  assert (Hline : forall l : option LogLine,
            l <> Some LogFailedToParse -> v <> JNull ->
            (l = Some LogFailedToParse <->
             exists group1, Some g = Some group1 /\
               (JSON_parse (trim group1) = None \/ JSON_parse (trim group1) = Some JNull))).
  { intros l Hl Hv. split; [intros H; contradiction |].
    intros (g' & Hg & [Hp | Hp]); injection Hg as <-; rewrite Ev in Hp;
      [discriminate | injection Hp as ->; contradiction]. }
  assert (Hop : forall (l : option LogLine) (op : EarnAgentOp),
            (forall members, v <> JObj members) ->
            (@None EarnAgentOp = Some op <->
             l = None /\
             exists group1 members,
               Some g = Some group1 /\
               JSON_parse (trim group1) = Some (JObj members) /\
               lookup_member "steps" members = Some (JArr (steps op)))).
  { intros l op Hv. split; [discriminate |].
    intros (_ & g' & m & Hg & Hp & _). injection Hg as <-. rewrite Ev in Hp.
    injection Hp as ->. now destruct (Hv m). }
  destruct v as [| b | n | str | items | members].
  - exists None, (Some LogFailedToParse). split; [reflexivity |].
    split; [intros op; now apply Hop |]. split; [| right; now left].
    split; [| reflexivity]. intros _. exists g. split; [reflexivity |]. now right.
  - exists None, None. split; [reflexivity |].
    split; [intros op; now apply Hop |]. split; [now apply Hline | now left].
  - exists None, None. split; [reflexivity |].
    split; [intros op; now apply Hop |]. split; [now apply Hline | now left].
  - destruct (keys_length (JStr str) =? 0)%nat.
    + exists None, None. split; [reflexivity |].
      split; [intros op; now apply Hop |]. split; [now apply Hline | now left].
    + exists None, (Some LogMissingSteps). split; [reflexivity |].
      split; [intros op; now apply Hop |]. split; [now apply Hline | right; now right].
  - destruct (keys_length (JArr items) =? 0)%nat.
    + exists None, None. split; [reflexivity |].
      split; [intros op; now apply Hop |]. split; [now apply Hline | now left].
    + exists None, (Some LogMissingSteps). split; [reflexivity |].
      split; [intros op; now apply Hop |]. split; [now apply Hline | right; now right].
  - destruct (keys_length (JObj members) =? 0)%nat eqn:Ek.
    + exists None, None. split; [reflexivity |].
      split; [| split; [now apply Hline | now left]].
      intros op. split; [discriminate |].
      intros (_ & g' & m & Hg & Hp & Hs). injection Hg as <-. rewrite Ev in Hp.
      injection Hp as <-. apply lookup_member_nonempty, keys_length_members in Hs.
      congruence.
    + cbn [own_property].
      assert (Hmiss : forall l : option LogLine, l <> None ->
                (forall items, lookup_member "steps" members <> Some (JArr items)) ->
                forall op,
                  (@None EarnAgentOp = Some op <->
                   l = None /\
                   exists group1 members0,
                     Some g = Some group1 /\
                     JSON_parse (trim group1) = Some (JObj members0) /\
                     lookup_member "steps" members0 = Some (JArr (steps op)))).
      { intros l Hl Hno op. split; [discriminate |]. intros (H & _). contradiction. }
      destruct (lookup_member "steps" members) as [[| b | n | str | items | ms] |] eqn:Es;
        try (exists None, (Some LogMissingSteps); split; [reflexivity |];
             split; [apply Hmiss; [discriminate | intros items'; discriminate] |];
             split; [now apply Hline | right; now right]).
      exists (Some (mkOp items)), None. split; [reflexivity |].
      split; [| split; [now apply Hline | now left]].
      intros op. split.
      * intros H. injection H as <-. split; [reflexivity |].
        exists g, members. now repeat split.
      * intros (_ & g' & m & Hg & Hp & Hs). injection Hg as <-. rewrite Ev in Hp.
        injection Hp as <-. rewrite Es in Hs. injection Hs as ->. now destruct op.
Qed.
End Intake.

Section Batches.
Context {B : Builtins}.
Variable env : Env.

(** *** [processTransactions] and [refreshEarnAgentData] *)

(** X10. Transactions marked [SKIPPED] play no part: a batch runs exactly as
    the batch without them, so a skipped transaction causes no request, no
    signature, no delay and no console line. *)
Theorem skipped_transactions_leave_no_trace
        (fuel : nat) (txs : list Transaction) (wallet : Wallet) (s : State) :
  processTransactions env fuel txs wallet s =
  processTransactions env fuel
    (filter (fun tx => negb (tx_status tx =? "SKIPPED")) txs) wallet s.
Proof.
  revert s. induction txs as [| tx rest IH]; intros s; [reflexivity |].
  cbn [processTransactions filter].
  destruct (tx_status tx =? "SKIPPED") eqn:E; cbn [negb]; [apply IH |].
  cbn [processTransactions]. rewrite E.
  unfold bind. destruct (log (LogTx (tx_type tx)) s) as [[[] | e |] s0]; try reflexivity.
  destruct (construct_loop env 3 0 (tx_id tx) s0) as [[[u |] | e |] s1]; try reflexivity.
  - destruct (sign_submit_poll env fuel tx wallet u s1) as [[[] | e |] s2];
      try reflexivity. apply IH.
  - destruct (log LogCannotConstruct s1) as [[[] | e |] s2]; try reflexivity. apply IH.
Qed.

(** X11. Whatever the outcome, a batch touches only its own transactions:
    every request it makes is the construction, the submission or a status
    query of a transaction of the batch that is not skipped; it creates no
    session, reads no balance or catalog and never calls the reasoning
    service. *)
Theorem batch_touches_only_its_own_transactions
        (fuel : nat) (txs : list Transaction) (wallet : Wallet) :
  emits (lifecycle_of (live_ids txs)) (processTransactions env fuel txs wallet).
Proof. apply emits_processTransactions_own. Qed.

(** X12. Whatever the outcome, a refresh only looks: it makes no request
    that writes at the aggregator, signs nothing, does not call the
    reasoning service and does not wait. *)
Theorem refresh_only_reads (address : string) :
  emits read_only (refreshEarnAgentData env address).
Proof. apply emits_refreshEarnAgentData. Qed.

(** X13. A construction request that is answered successfully but with an
    empty body is not retried: after this single request, with no delay,
    the transaction is given up, nothing is signed or submitted for it, and
    the driver goes on with the rest of the batch. *)
Theorem empty_construction_answer_is_not_retried
        (fuel : nat) (tx : Transaction) (rest : list Transaction)
        (wallet : Wallet) (s : State) :
  (tx_status tx =? "SKIPPED") = false ->
  fetch env (trace (emit s [EvLog (LogTx (tx_type tx))])) (ConstructTx (tx_id tx)) = Ok None ->
  processTransactions env fuel (tx :: rest) wallet s =
  processTransactions env fuel rest wallet
    (emit s [EvLog (LogTx (tx_type tx));
             EvFetch (ConstructTx (tx_id tx)) (Ok None);
             EvLog LogCannotConstruct]).
Proof.
  intros Hskip Hreply. cbn [processTransactions]. rewrite Hskip.
  unfold bind at 1. unfold log at 1.
  unfold bind at 1. cbn [construct_loop]. unfold bind at 1, attempt.
  rewrite (request_ok env (ConstructTx (tx_id tx)) _ None Hreply).
  unfold ret at 1. unfold bind at 1, log at 1. rewrite !emit_emit. reflexivity.
Qed.
End Batches.

Section Steps.
Context {B : Builtins}.
Variable env : Env.

(** *** [runScenarioStep] *)



End Steps.

(** ** Account data and sessions *)

Lemma keeps_ret {A} (a : A) : keeps_data (ret a).
Proof. intros s. reflexivity. Qed.

Lemma keeps_throw {A} (e : Exn) : keeps_data (@throw A e).
Proof. intros s. reflexivity. Qed.

Lemma keeps_out_of_fuel {A} : keeps_data (@out_of_fuel A).
Proof. intros s. reflexivity. Qed.

Lemma keeps_bind {A C} (m : M A) (k : A -> M C) :
  keeps_data m -> (forall a, keeps_data (k a)) -> keeps_data (bind m k).
Proof.
  intros Hm Hk s. unfold bind. specialize (Hm s).
  destruct (m s) as [[a | e |] s1]; simpl in *; [| exact Hm | exact Hm].
  rewrite <- Hm. apply Hk.
Qed.

Lemma keeps_attempt {A} (m : M A) : keeps_data m -> keeps_data (attempt m).
Proof.
  intros Hm s. unfold attempt. specialize (Hm s).
  destruct (m s) as [[a | e |] s1]; exact Hm.
Qed.

Lemma keeps_log (l : LogLine) : keeps_data (log l).
Proof. intros s. reflexivity. Qed.

Lemma keeps_sleep (ms : Z) : keeps_data (sleep ms).
Proof. intros s. reflexivity. Qed.

Create HintDb keeps.
#[local] Hint Resolve keeps_ret keeps_throw keeps_out_of_fuel keeps_attempt
  keeps_log keeps_sleep : keeps.

Lemma action_sessions_app (a b : list Event) :
  action_sessions (a ++ b) = action_sessions a + action_sessions b.
Proof. unfold action_sessions. now rewrite filter_app, length_app. Qed.

Lemma no_session_count (evs : list Event) :
  Forall no_session evs -> action_sessions evs = 0.
Proof.
  induction 1 as [| e evs He _ IH]; [reflexivity |].
  change (e :: evs) with ([e] ++ evs). rewrite action_sessions_app, IH.
  destruct e as [[] reply | | | |]; try reflexivity. destruct He.
Qed.

Lemma creates_none {A} (m : M A) : emits no_session m -> creates_at_most 0 m.
Proof.
  intros Hm s. destruct (Hm s) as (evs & Ht & Hp). exists evs.
  split; [exact Ht |]. now rewrite no_session_count.
Qed.

Lemma creates_bind {A C} (a b : nat) (m : M A) (k : A -> M C) :
  creates_at_most a m -> (forall x, creates_at_most b (k x)) ->
  creates_at_most (a + b) (bind m k).
Proof.
  intros Hm Hk s. unfold bind. destruct (Hm s) as (e1 & Ht1 & Hn1).
  destruct (m s) as [[x | e |] s1]; simpl in Ht1.
  - destruct (Hk x s1) as (e2 & Ht2 & Hn2).
    exists (e1 ++ e2). split; [rewrite Ht2, Ht1; now rewrite app_assoc |].
    rewrite action_sessions_app. lia.
  - exists e1. split; [exact Ht1 | lia].
  - exists e1. split; [exact Ht1 | lia].
Qed.

Lemma creates_more {A} (a b : nat) (m : M A) :
  (a <= b)%nat -> creates_at_most a m -> creates_at_most b m.
Proof.
  intros Hab Hm s. destruct (Hm s) as (evs & Ht & Hn). exists evs.
  split; [exact Ht | lia].
Qed.

Lemma read_only_no_session (e : Event) : read_only e -> no_session e.
Proof. destruct e as [[] reply | | | |]; simpl; auto; discriminate. Qed.

Lemma lifecycle_no_session (ids : list string) (e : Event) :
  lifecycle_of ids e -> no_session e.
Proof. destruct e as [[] reply | | | |]; simpl; auto. Qed.

Section Outcomes.
Context {B : Builtins}.
Variable env : Env.

Lemma keeps_request (r : Request) : keeps_data (request env r).
Proof. intros s. unfold request. destruct (fetch env (trace s) r); reflexivity. Qed.

Lemma keeps_sign (wallet : Wallet) (payload : JSON) :
  keeps_data (wallet_signTransaction env wallet payload).
Proof.
  intros s. unfold wallet_signTransaction.
  destruct (signTransaction env (trace s) wallet payload); reflexivity.
Qed.

Lemma keeps_json_parse (text : string) : keeps_data (json_parse text).
Proof. unfold json_parse. destruct (JSON_parse text); auto with keeps. Qed.

Lemma keeps_construct_loop (txId : string) :
  forall n i, keeps_data (construct_loop env n i txId).
Proof.
  induction n as [| n IH]; intros i; cbn [construct_loop]; [auto with keeps |].
  apply keeps_bind; [apply keeps_attempt, keeps_request |].
  intros [e | u]; [| auto with keeps].
  apply keeps_bind; [auto with keeps | intros _].
  apply keeps_bind; [auto with keeps | intros _]. apply IH.
Qed.

Lemma keeps_poll_status (txId : string) :
  forall fuel, keeps_data (poll_status env fuel txId).
Proof.
  induction fuel as [| fuel IH]; cbn [poll_status]; [auto with keeps |].
  apply keeps_bind; [apply keeps_attempt, keeps_request |].
  intros [e | [st |]]; try (auto with keeps).
  destruct (st_status st =? "CONFIRMED"); [auto with keeps |].
  destruct (st_status st =? "FAILED"); [auto with keeps |].
  apply keeps_bind; [auto with keeps | intros _].
  apply keeps_bind; [auto with keeps | intros _]. apply IH.
Qed.

Lemma keeps_processTransactions (fuel : nat) (wallet : Wallet) (txs : list Transaction) :
  keeps_data (processTransactions env fuel txs wallet).
Proof.
  induction txs as [| tx rest IH]; cbn [processTransactions]; [auto with keeps |].
  destruct (tx_status tx =? "SKIPPED"); [exact IH |].
  apply keeps_bind; [auto with keeps | intros _].
  apply keeps_bind; [apply keeps_construct_loop |].
  intros [u |].
  - apply keeps_bind; [| intros _; exact IH]. unfold sign_submit_poll.
    apply keeps_bind; [apply keeps_json_parse | intros payload].
    apply keeps_bind; [apply keeps_sign | intros signed].
    apply keeps_bind; [apply keeps_request | intros res].
    apply keeps_bind; [auto with keeps | intros _]. apply keeps_poll_status.
  - apply keeps_bind; [auto with keeps | intros _; exact IH].
Qed.

Lemma emits_resolve_amount (type integrationId : JSValue) (address : string)
      (amount : JSValue) :
  emits read_only (resolve_amount env type integrationId address amount).
Proof.
  unfold resolve_amount, resolve_exit, resolve_enter.
  destruct (negb (truthy amount)); [| apply emits_ret].
  destruct (strict_eq_str type "EXIT").
  - apply emits_bind; [apply emits_request; intros; reflexivity | intros posResp].
    destruct (staked_entry posResp) as [staked |].
    + destruct (le0 (parseFloat (bal_amount staked))); [| apply emits_ret].
      apply emits_bind; [apply emits_log; exact I | intros _; apply emits_ret].
    + apply emits_bind; [apply emits_log; exact I | intros _; apply emits_ret].
  - apply emits_bind; [apply emits_request; intros; reflexivity | intros details].
    cbv zeta.
    apply emits_bind; [apply emits_request; intros; reflexivity | intros balResp].
    match goal with |- context [le0 ?x] => destruct (le0 x) end; [| apply emits_ret].
    apply emits_bind; [apply emits_log; exact I | intros _; apply emits_ret].
Qed.

Lemma creates_runScenarioStep (fuel : nat) (type integrationId : JSValue)
      (wallet : Wallet) (amount : JSValue) :
  creates_at_most 1 (runScenarioStep env fuel type integrationId wallet amount).
Proof.
  unfold runScenarioStep.
  apply (creates_bind 0 1); [apply creates_none, emits_log; exact I | intros _].
  apply (creates_bind 0 1).
  { apply creates_none. eapply emits_impl; [apply read_only_no_session |].
    apply emits_resolve_amount. }
  intros [| finalAmount];
    [apply (creates_more 0 1); [lia | apply creates_none, emits_ret] |].
  unfold execute_step. apply (creates_bind 1 0).
  - intros s. match goal with |- context [request env ?r] => set (req := r) end.
    exists [EvFetch req (fetch env (trace s) req)]. split; [| apply le_n].
    unfold request. destruct (fetch env (trace s) req); reflexivity.
  - intros session. apply creates_none.
    apply emits_bind.
    { eapply emits_impl; [apply lifecycle_no_session |].
      apply emits_processTransactions_own. }
    intros _. apply emits_bind; [apply emits_log; exact I | intros _].
    eapply emits_impl; [apply read_only_no_session |]. apply emits_refreshEarnAgentData.
Qed.

(** X16. Whatever fails and wherever it stops, a step creates at most one
    action session and a list of steps at most one session per step. *)
Theorem at_most_one_session_per_step (fuel : nat) (wallet : Wallet) :
  (forall type integrationId amount,
      creates_at_most 1 (runScenarioStep env fuel type integrationId wallet amount)) /\
  (forall steps,
      creates_at_most (List.length steps) (run_steps env fuel steps wallet)).
Proof.
  split; [intros; apply creates_runScenarioStep |].
  intros l. induction l as [| step rest IH]; cbn [run_steps List.length];
    [apply creates_none; exact (emits_ret no_session tt) |].
  assert (Hfield : forall k, creates_at_most 0 (step_field step k)).
  { intros k. apply creates_none. unfold step_field.
    destruct step; apply emits_ret || apply emits_throw. }
  apply (creates_bind 0 (S (List.length rest))); [apply Hfield | intros type].
  apply (creates_bind 0 (S (List.length rest))); [apply Hfield | intros integrationId].
  apply (creates_bind 0 (S (List.length rest))); [apply Hfield | intros amount].
  apply (creates_bind 1 (List.length rest)); [apply creates_runScenarioStep | intros _].
  exact IH.
Qed.

(** X17. A step that fails in its batch is not followed by a refresh: the
    step throws the error of the batch, nothing is asked afterwards, and
    the account data are those from before the step, although
    transactions of the batch may have been submitted. *)
Theorem step_that_fails_in_its_batch_is_not_refreshed
        (fuel : nat) (type integrationId finalAmount : JSValue) (wallet : Wallet)
        (s sb : State) (session : Session) (e : Exn) :
  let req := ActionSession (endpoint_of type) integrationId (wallet_address wallet)
                           finalAmount in
  fetch env (trace s) req = Ok session ->
  processTransactions env fuel (transactions session) wallet
                      (emit s [EvFetch req (Ok session)]) = (Throw e, sb) ->
  execute_step env fuel type integrationId wallet finalAmount s = (Throw e, sb) /\
  earnAgentData sb = earnAgentData s /\
  exists evs,
    trace sb = trace s ++ EvFetch req (Ok session) :: evs /\
    Forall (lifecycle_of (live_ids (transactions session))) evs.
Proof.
  intros req Hsession Hbatch. split; [| split].
  - unfold execute_step. fold (endpoint_of type). fold req.
    unfold bind at 1, request. rewrite Hsession.
    unfold bind at 1. now rewrite Hbatch.
  - pose proof (keeps_processTransactions fuel wallet (transactions session)
                  (emit s [EvFetch req (Ok session)])) as H.
    rewrite Hbatch in H. exact H.
  - destruct (emits_processTransactions_own env fuel wallet (transactions session)
                (emit s [EvFetch req (Ok session)])) as (evs & Ht & Hp).
    rewrite Hbatch in Ht. exists evs. split; [| exact Hp].
    etransitivity; [exact Ht |]. cbn [trace emit snd]. now rewrite <- app_assoc.
Qed.

(** *** [runAiScenario] *)

(** X18. An element of [steps] that is [null] stops the scenario with a
    TypeError when its turn comes: the steps before it have run, those
    after it never do, and nothing is done for the element itself. *)
Theorem null_step_stops_the_scenario_when_reached
        (fuel : nat) (before after : list JSON) (wallet : Wallet) (s : State) :
  run_steps env fuel (before ++ JNull :: after) wallet s =
  match run_steps env fuel before wallet s with
  | (Ret _, s') => (Throw TypeError, s')
  | (Throw e, s') => (Throw e, s')
  | (OutOfFuel, s') => (OutOfFuel, s')
  end.
Proof.
  rewrite run_steps_app.
  destruct (run_steps env fuel before wallet s) as [[[] | e |] s']; reflexivity.
Qed.

(** X19. When the reasoning service fails, or answers without any choice,
    the scenario throws right after the call: nothing is printed, no block
    is looked for and no request is made. *)
Theorem scenario_without_an_answer_throws_at_once
        (fuel : nat) (instructions userMsg : string) (wallet : Wallet) (s : State) :
  let prompt := system_prompt (earnAgentData s) instructions in
  let reply := chat_completions_create env (trace s) prompt userMsg in
  let run := runAiScenario env fuel instructions userMsg wallet s in
  match reply with
  | Rejected => run = (Throw PromiseRejected, emit s [EvChat prompt userMsg reply])
  | Resolved chatResp =>
      match choices chatResp with
      | [] => run = (Throw TypeError, emit s [EvChat prompt userMsg reply])
      | _ :: _ => exists text s1, Heard env instructions userMsg s text s1
      end
  end.
Proof.
  intros prompt reply run.
  assert (Hstart : run =
            match reply with
            | Resolved chatResp =>
                bind (first_content chatResp)
                     (fun rawAiText =>
                        bind (log (LogAgentSays (trim rawAiText)))
                             (fun _ =>
                                bind (parseOpFromCodeBlock rawAiText)
                                     (fun op =>
                                        match op with
                                        | None => ret false
                                        | Some op =>
                                            bind (run_steps env fuel (steps op) wallet)
                                                 (fun _ => ret true)
                                        end)))
                     (emit s [EvChat prompt userMsg reply])
            | Rejected => (Throw PromiseRejected, emit s [EvChat prompt userMsg reply])
            end).
  { unfold run, runAiScenario, buildSystemPrompt.
    unfold bind at 1, bind at 1, get_data, ret.
    fold (system_prompt (earnAgentData s) instructions). fold prompt.
    unfold bind at 1, openai_chat. fold reply.
    destruct reply; reflexivity. }
  destruct reply as [chatResp |] eqn:E; [| exact Hstart].
  destruct (choices chatResp) as [| c cs] eqn:Ec.
  - rewrite Hstart. unfold bind at 1, first_content. rewrite Ec. reflexivity.
  - eexists _, _. exists chatResp. cbv zeta. fold prompt.
    split; [exact E |]. split; [| reflexivity].
    unfold answer_text. rewrite Ec. reflexivity.
Qed.
End Outcomes.

Section Failures.
Context {B : Builtins}.
Variable env : Env.

(** *** A refresh that fails *)

(** X20. A refresh that fails leaves the account data partly replaced.  If
    the catalog cannot be listed, the data stay as they were.  If the
    positions cannot be fetched, the new catalog stands beside the old
    positions and the old idle balances.  If the idle balances cannot be
    fetched, the new catalog and positions stand beside the old idle
    balances. *)
Theorem failed_refresh_leaves_a_partial_update (address : string) (s : State) :
  let s0 := emit s [EvLog LogRefreshing] in
  let old := earnAgentData s in
  (forall e sA,
      fetchAllYields env s0 = (Throw e, sA) ->
      refreshEarnAgentData env address s = (Throw e, sA) /\
      earnAgentData sA = old) /\
  (forall all sA e sB,
      fetchAllYields env s0 = (Ret all, sA) ->
      fetchEarningPositions env (filterSortYields all) address sA = (Throw e, sB) ->
      exists s1,
        refreshEarnAgentData env address s = (Throw e, s1) /\
        earnAgentData s1 =
          mkData (filterSortYields all) (earningPositions old) (idleTokenBalances old)) /\
  (forall all sA positions sB e sC,
      fetchAllYields env s0 = (Ret all, sA) ->
      fetchEarningPositions env (filterSortYields all) address sA = (Ret positions, sB) ->
      fetchUserBalances env (filterSortYields all) address sB = (Throw e, sC) ->
      exists s1,
        refreshEarnAgentData env address s = (Throw e, s1) /\
        earnAgentData s1 = mkData (filterSortYields all) positions (idleTokenBalances old)).
Proof.
  intros s0 old.
  assert (Hkeep : forall o sA, fetchAllYields env s0 = (o, sA) -> earnAgentData sA = old).
  { intros o sA H.
    assert (Hk : keeps_data (fetchAllYields env)).
    { unfold fetchAllYields. apply keeps_bind; [apply keeps_request | intros; apply keeps_ret]. }
    specialize (Hk s0). rewrite H in Hk. exact Hk. }
  split; [| split].
  - intros e sA HA. rewrite refresh_unfold. fold s0. rewrite HA.
    split; [reflexivity | exact (Hkeep _ _ HA)].
  - intros all sA e sB HA HB. rewrite refresh_unfold. fold s0. rewrite HA. cbv zeta.
    rewrite HB. eexists. split; [reflexivity |]. cbn [earnAgentData set_data].
    now rewrite (Hkeep _ _ HA).
  - intros all sA positions sB e sC HA HB HC. rewrite refresh_unfold. fold s0.
    rewrite HA. cbv zeta. rewrite HB, HC. eexists. split; [reflexivity |].
    cbn [earnAgentData set_data]. now rewrite (Hkeep _ _ HA).
Qed.

(** *** Errors in [main] *)

(** X21. No trigger handler throws: an error in a cycle started by the
    timer or by the prompt is caught and reported.  The start of [main] is
    different, it can throw in two places, both outside any [try]: where it
    derives the wallet from the phrase (then only the start line is on the
    console and nothing was requested), and in its first refresh (then it
    throws the error of the refresh).  The first check after that refresh
    is guarded. *)
Theorem only_startup_errors_stop_the_agent (fuel : nat) (wallet : Wallet) :
  (forall t s,
      fst (on_trigger env fuel wallet t s) = Ret tt \/
      fst (on_trigger env fuel wallet t s) = OutOfFuel) /\
  (forall e s,
      main_start env fuel (inl e) s = (Throw e, emit s [EvLog LogStarted])) /\
  (forall s,
      let s0 := emit s [EvLog LogStarted; EvLog (LogUsingAddress (wallet_address wallet))] in
      match refreshEarnAgentData env (wallet_address wallet) s0 with
      | (Throw e, s1) => main_start env fuel (inr wallet) s = (Throw e, s1)
      | _ =>
          fst (main_start env fuel (inr wallet) s) = Ret tt \/
          fst (main_start env fuel (inr wallet) s) = OutOfFuel
      end).
Proof.
  assert (Hguard : forall body line s,
            fst (guarded_cycle body line s) = Ret tt \/
            fst (guarded_cycle body line s) = OutOfFuel).
  { intros body line s. rewrite guarded_cycle_releases.
    destruct (body s) as [[[] | e |] s1]; simpl; auto. }
  split; [| split].
  - intros t s.
    assert (Heq : on_trigger env fuel wallet t s =
                  if earnAgentBusy s then (Ret tt, emit s [EvLog (busy_line t)])
                  else guarded_cycle (cycle_of env fuel wallet t) (error_line t)
                                     (set_busy true s)).
    { destruct t; cbn [on_trigger cycle_of error_line busy_line];
        unfold interval_callback, prompt_turn, bind at 1, get_busy;
        destruct (earnAgentBusy s); reflexivity. }
    rewrite Heq. destruct (earnAgentBusy s); [left; reflexivity | apply Hguard].
  - intros e s. reflexivity.
  - intros s s0.
    assert (Heq : main_start env fuel (inr wallet) s =
                  match refreshEarnAgentData env (wallet_address wallet) s0 with
                  | (Ret _, s1) =>
                      guarded_cycle (earnAgentIntervalCheck env fuel wallet) LogInitialError
                                    (set_busy true s1)
                  | (Throw e, s1) => (Throw e, s1)
                  | (OutOfFuel, s1) => (OutOfFuel, s1)
                  end).
    { unfold main_start.
      unfold bind at 1, log. unfold bind at 1, ret.
      unfold bind at 1, log. rewrite emit_emit. cbn [app].
      fold s0. unfold bind at 1.
      destruct (refreshEarnAgentData env (wallet_address wallet) s0) as [[[] | e |] s1];
        reflexivity. }
    rewrite Heq.
    destruct (refreshEarnAgentData env (wallet_address wallet) s0) as [[[] | e |] s1];
      [apply Hguard | reflexivity | right; reflexivity].
Qed.
End Failures.

Section Prompts.
Context {B : Builtins}.
Variable env : Env.

(** The first thing a scenario does is to ask the reasoning service, with
    the prompt built from the account data as they are. *)
Lemma runAiScenario_asks_first (fuel : nat) (instructions userMsg : string)
      (wallet : Wallet) (s : State) :
  exists reply evs,
    trace (snd (runAiScenario env fuel instructions userMsg wallet s)) =
    trace s ++ EvChat (system_prompt (earnAgentData s) instructions) userMsg reply :: evs.
Proof.
  set (prompt := system_prompt (earnAgentData s) instructions).
  set (reply := chat_completions_create env (trace s) prompt userMsg).
  set (k := fun chatResp =>
              bind (first_content chatResp)
                   (fun rawAiText =>
                      bind (log (LogAgentSays (trim rawAiText)))
                           (fun _ =>
                              bind (parseOpFromCodeBlock rawAiText)
                                   (fun op =>
                                      match op with
                                      | None => ret false
                                      | Some op =>
                                          bind (run_steps env fuel (steps op) wallet)
                                               (fun _ => ret true)
                                      end)))).
  assert (Hstart : runAiScenario env fuel instructions userMsg wallet s =
            match reply with
            | Resolved chatResp => k chatResp (emit s [EvChat prompt userMsg reply])
            | Rejected => (Throw PromiseRejected, emit s [EvChat prompt userMsg reply])
            end).
  { unfold runAiScenario, buildSystemPrompt.
    unfold bind at 1, bind at 1, get_data, ret.
    fold (system_prompt (earnAgentData s) instructions). fold prompt.
    unfold bind at 1, openai_chat. fold reply.
    destruct reply; reflexivity. }
  rewrite Hstart. exists reply.
  destruct reply as [chatResp |]; [| now exists []].
  assert (Hk : grows (k chatResp)).
  { unfold k, first_content, parseOpFromCodeBlock.
    repeat first
      [ solve [ auto with grows ]
      | apply grows_run_steps
      | apply grows_bind; [| intros ]
      | match goal with
        | |- grows (match ?x with _ => _ end) => destruct x
        | |- grows (if ?b then _ else _) => destruct b
        end ]. }
  destruct (Hk (emit s [EvChat prompt userMsg (Resolved chatResp)])) as [(evs & Hevs) _].
  exists evs. rewrite Hevs. cbn [trace emit]. now rewrite <- app_assoc.
Qed.

(** X22. The prompt is built from the account data at hand.  A chat turn
    does not refresh: it asks the reasoning service at once, with the data
    the last refresh left.  The interval check refreshes first and asks
    with the data of that refresh; when that refresh fails the check
    throws its error and the reasoning service is not asked. *)
Theorem prompt_is_built_from_the_data_at_hand (fuel : nat) (wallet : Wallet) :
  (forall userMsg s,
      exists reply evs,
        trace (snd (handleChat env fuel userMsg wallet s)) =
        trace s ++
        EvChat (system_prompt (earnAgentData s) CHAT_INSTRUCTIONS) userMsg reply :: evs) /\
  (forall s,
      match refreshEarnAgentData env (wallet_address wallet) (emit s [EvLog LogScanning]) with
      | (Ret _, s1) =>
          exists reply evs,
            trace (snd (earnAgentIntervalCheck env fuel wallet s)) =
            trace s1 ++
            EvChat (system_prompt (earnAgentData s1) INTERVAL_INSTRUCTIONS)
                   INTERVAL_QUESTION reply :: evs
      | (Throw e, s1) => earnAgentIntervalCheck env fuel wallet s = (Throw e, s1)
      | (OutOfFuel, s1) => earnAgentIntervalCheck env fuel wallet s = (OutOfFuel, s1)
      end).
Proof.
  assert (Hthen : forall instructions userMsg s,
            snd (bind (runAiScenario env fuel instructions userMsg wallet)
                      (fun _ => ret tt) s) =
            snd (runAiScenario env fuel instructions userMsg wallet s)).
  { intros instructions userMsg s. unfold bind.
    destruct (runAiScenario env fuel instructions userMsg wallet s) as [[b | e |] s1];
      reflexivity. }
  split.
  - intros userMsg s. unfold handleChat. rewrite Hthen. apply runAiScenario_asks_first.
  - intros s.
    assert (Heq : earnAgentIntervalCheck env fuel wallet s =
              match refreshEarnAgentData env (wallet_address wallet)
                                         (emit s [EvLog LogScanning]) with
              | (Ret _, s1) =>
                  bind (runAiScenario env fuel INTERVAL_INSTRUCTIONS INTERVAL_QUESTION wallet)
                       (fun _ => ret tt) s1
              | (Throw e, s1) => (Throw e, s1)
              | (OutOfFuel, s1) => (OutOfFuel, s1)
              end).
    { unfold earnAgentIntervalCheck. unfold bind at 1, log. unfold bind at 1.
      destruct (refreshEarnAgentData env (wallet_address wallet)
                                     (emit s [EvLog LogScanning])) as [[[] | e |] s1];
        reflexivity. }
    rewrite Heq.
    destruct (refreshEarnAgentData env (wallet_address wallet)
                                   (emit s [EvLog LogScanning])) as [[[] | e |] s1];
      [| reflexivity | reflexivity].
    rewrite Hthen. apply runAiScenario_asks_first.
Qed.
End Prompts.

(** ** Only what was signed is submitted *)

Section Chains.
Context {B : Builtins}.

Lemma chained_quiet (evs : list Event) :
  Forall not_submit evs -> forall p2 p1, chained p2 p1 evs.
Proof.
  induction 1 as [| e evs He _ IH]; intros p2 p1; cbn [chained]; [exact I |].
  split; [| apply IH]. destruct e as [[] reply | | | |]; try exact I. destruct He.
Qed.

Lemma chained_app (a b : list Event) :
  forall p2 p1,
    chained p2 p1 a ->
    chained (fst (slide p2 p1 a)) (snd (slide p2 p1 a)) b ->
    chained p2 p1 (a ++ b).
Proof.
  induction a as [| e a IH]; intros p2 p1 Ha Hb; [exact Hb |].
  cbn [app chained slide] in *. destruct Ha as [He Ha]. split; [exact He |].
  now apply IH.
Qed.

Lemma slide_snoc (a : list Event) (e : Event) :
  forall p2 p1, slide p2 p1 (a ++ [e]) = (snd (slide p2 p1 a), Some e).
Proof. induction a as [| x a IH]; intros p2 p1; [reflexivity | apply IH]. Qed.

Lemma slide_last_two (pre : list Event) (c g : Event) :
  slide None None pre = (Some c, Some g) -> exists pre', pre = pre' ++ [c; g].
Proof.
  destruct pre as [| x1 pre1] using rev_ind; [discriminate |].
  rewrite slide_snoc. intros H. injection H as H1 H2. subst x1.
  destruct pre1 as [| x2 pre2] using rev_ind; [discriminate |].
  rewrite slide_snoc in H1. injection H1 as ->.
  exists pre2. now rewrite <- app_assoc.
Qed.

Lemma chained_at (pre post : list Event) (e : Event) :
  forall p2 p1,
    chained p2 p1 (pre ++ e :: post) ->
    link (fst (slide p2 p1 pre)) (snd (slide p2 p1 pre)) e.
Proof.
  induction pre as [| x pre IH]; intros p2 p1 H; cbn [app chained slide] in *.
  - exact (proj1 H).
  - apply IH. exact (proj2 H).
Qed.

Lemma chained_signed (evs : list Event) :
  chained None None evs -> submissions_are_signed evs.
Proof.
  intros H pre t signed reply post ->.
  apply chained_at in H. cbn [link] in H.
  destruct H as (u & payload & H2 & Hparse & H1).
  destruct (slide_last_two pre (EvFetch (ConstructTx t) (Ok (Some u)))
                           (EvSign payload (Resolved signed))) as (pre' & ->).
  { destruct (slide None None pre) as [q2 q1]. simpl in H2, H1. now subst. }
  now exists pre', u, payload.
Qed.
End Chains.

Lemma ConstructTrace_quiet txId n i evs u :
  ConstructTrace txId n i evs u -> Forall not_submit evs.
Proof.
  induction 1 as [i | n i body | n i reply evs u Hf Hrun IH].
  - constructor.
  - repeat constructor.
  - unfold failed_attempt. cbn [app]. repeat constructor. exact IH.
Qed.

Lemma ConstructTrace_last txId n i evs u0 :
  ConstructTrace txId n i evs (Some u0) ->
  exists pre, evs = pre ++ [EvFetch (ConstructTx txId) (Ok (Some u0))].
Proof.
  remember (Some u0) as u eqn:Eu.
  induction 1 as [i | n i body | n i reply evs u Hf Hrun IH].
  - discriminate.
  - subst body. now exists [].
  - destruct (IH Eu) as (pre & ->).
    exists (failed_attempt txId i reply ++ pre). now rewrite <- app_assoc.
Qed.

Section SignedSubmissions.
Context {B : Builtins}.
Variable env : Env.

Lemma sign_submit_poll_chained (fuel : nat) (tx : Transaction) (wallet : Wallet)
      (u : UnsignedTx) (s : State) :
  exists evs,
    trace (snd (sign_submit_poll env fuel tx wallet u s)) = trace s ++ evs /\
    forall p2,
      chained p2 (Some (EvFetch (ConstructTx (tx_id tx)) (Ok (Some u)))) evs.
Proof.
  unfold sign_submit_poll, json_parse.
  destruct (JSON_parse (unsignedTransaction u)) as [payload |] eqn:Eparse.
  2:{ exists []. split; [simpl; now rewrite app_nil_r | intros; exact I]. }
  unfold bind at 1, ret. unfold bind at 1, wallet_signTransaction.
  destruct (signTransaction env (trace s) wallet payload) as [signed |] eqn:Esign.
  2:{ exists [EvSign payload Rejected]. split; [reflexivity |].
      intros p2. cbn. auto. }
  set (s1 := emit s [EvSign payload (Resolved signed)]).
  unfold bind at 1, request.
  set (req := SubmitTx (tx_id tx) signed).
  assert (Hlink : forall p2 reply tail,
            Forall not_submit tail ->
            chained p2 (Some (EvFetch (ConstructTx (tx_id tx)) (Ok (Some u))))
                    (EvSign payload (Resolved signed) :: EvFetch req reply :: tail)).
  { intros p2 reply tail Htail. cbn [chained]. split; [exact I |]. split.
    - cbn [link req]. now exists u, payload.
    - now apply chained_quiet. }
  destruct (fetch env (trace s1) req) as [result | code |] eqn:Ereply.
  - pose proof (emits_bind not_submit (log (LogSubmitted result))
                  (fun _ => poll_status env fuel (tx_id tx))) as Htail.
    destruct (Htail (emits_log not_submit _ I)
                    (fun _ => emits_poll_status env not_submit (tx_id tx)
                                (fun _ => I) (fun _ => I) (fun _ => I) fuel)
                    (emit s1 [EvFetch req (Ok result)])) as (tail & Ht & Hq).
    exists (EvSign payload (Resolved signed) :: EvFetch req (Ok result) :: tail).
    split; [| intros p2; now apply Hlink].
    etransitivity; [exact Ht |]. unfold s1. cbn [trace emit].
    now rewrite <- !app_assoc.
  - exists [EvSign payload (Resolved signed); EvFetch req (NotOk code)].
    split; [unfold s1; cbn [trace emit snd]; now rewrite <- app_assoc |].
    intros p2. apply Hlink. constructor.
  - exists [EvSign payload (Resolved signed); EvFetch req Unreachable].
    split; [unfold s1; cbn [trace emit snd]; now rewrite <- app_assoc |].
    intros p2. apply Hlink. constructor.
Qed.

Lemma processTransactions_chained (fuel : nat) (wallet : Wallet) (txs : list Transaction) :
  forall s,
    exists evs,
      trace (snd (processTransactions env fuel txs wallet s)) = trace s ++ evs /\
      forall p2 p1, chained p2 p1 evs.
Proof.
  induction txs as [| tx rest IH]; intros s.
  - exists []. split; [simpl; now rewrite app_nil_r | intros; exact I].
  - destruct (tx_status tx =? "SKIPPED") eqn:Eskip.
    { cbn [processTransactions]. rewrite Eskip. apply IH. }
    rewrite (processTransactions_cons env fuel tx rest wallet s Eskip).
    set (s0 := emit s [EvLog (LogTx (tx_type tx))]).
    destruct (construct_loop_trace env (tx_id tx) 3 0 s0) as (cevs & u & Hrun & Htr).
    rewrite Hrun.
    pose proof (ConstructTrace_quiet _ _ _ _ _ Htr) as Hquiet.
    assert (Hhead : Forall not_submit (EvLog (LogTx (tx_type tx)) :: cevs))
      by (constructor; [exact I | exact Hquiet]).
    destruct u as [u |].
    + destruct (ConstructTrace_last _ _ _ _ _ Htr) as (pre & Hpre).
      destruct (sign_submit_poll_chained fuel tx wallet u (emit s0 cevs))
        as (sevs & Hs & Hchain).
      assert (Hpiece : forall p2 p1,
                chained p2 p1 ((EvLog (LogTx (tx_type tx)) :: cevs) ++ sevs)).
      { intros p2 p1. apply chained_app; [now apply chained_quiet |].
        rewrite Hpre, app_comm_cons, slide_snoc. cbn [fst snd]. apply Hchain. }
      destruct (sign_submit_poll env fuel tx wallet u (emit s0 cevs))
        as [[[] | e |] s2] eqn:Essp; cbn [snd] in Hs.
      * destruct (IH s2) as (revs & Hr & Hrest).
        exists (((EvLog (LogTx (tx_type tx)) :: cevs) ++ sevs) ++ revs). split.
        -- rewrite Hr, Hs. unfold s0. cbn [trace emit]. now rewrite <- !app_assoc.
        -- intros p2 p1. apply chained_app; [apply Hpiece | apply Hrest].
      * exists ((EvLog (LogTx (tx_type tx)) :: cevs) ++ sevs). split; [| exact Hpiece].
        cbn [snd]. rewrite Hs. unfold s0. cbn [trace emit]. now rewrite <- !app_assoc.
      * exists ((EvLog (LogTx (tx_type tx)) :: cevs) ++ sevs). split; [| exact Hpiece].
        cbn [snd]. rewrite Hs. unfold s0. cbn [trace emit]. now rewrite <- !app_assoc.
    + destruct (IH (emit (emit s0 cevs) [EvLog LogCannotConstruct])) as (revs & Hr & Hrest).
      exists ((EvLog (LogTx (tx_type tx)) :: cevs ++ [EvLog LogCannotConstruct]) ++ revs).
      split.
      * rewrite Hr. unfold s0. cbn [trace emit]. rewrite <- !app_assoc. cbn [app].
        now rewrite <- !app_assoc.
      * intros p2 p1. apply chained_app; [| apply Hrest].
        apply chained_quiet. constructor; [exact I |].
        apply Forall_app. split; [exact Hquiet | repeat constructor].
Qed.

(** X23. Whatever the outcome of a batch, nothing is submitted that the
    wallet has not just signed: every submission carries the signature
    returned by the call right before it, and that call signed the parsed
    payload that the request right before it constructed for the same
    transaction. *)
Theorem only_what_was_signed_is_submitted
        (fuel : nat) (txs : list Transaction) (wallet : Wallet) (s : State) :
  exists evs,
    trace (snd (processTransactions env fuel txs wallet s)) = trace s ++ evs /\
    submissions_are_signed evs.
Proof.
  destruct (processTransactions_chained fuel wallet txs s) as (evs & Ht & Hc).
  exists evs. split; [exact Ht |]. apply chained_signed, Hc.
Qed.
End SignedSubmissions.

(** ** The further properties at concrete runs *)

(** One yield with a stake of 50: one query of one entry, one position. *)
Lemma positions_are_the_answered_items_with_stake_witness :
  exists evs,
    trace (emit initialState
             [EvFetch (PositionBalances [("0xA11CE", "Y1")])
                      (Ok [mkYieldBalances "Y1" [mkBalance "staked" "50"]])]) =
      trace initialState ++ evs /\
    [mkPosition "Y1" "50"] =
      flat_map (position_of (B := reference_builtins)) (position_answers evs) /\
    Forall (fun p => gt0 (parseFloat (Builtins := reference_builtins) (pos_amount p)) = true)
           [mkPosition "Y1" "50"].
Proof.
  apply (positions_are_the_answered_items_with_stake
           (B := reference_builtins) (scripted calm) [demo_yield] "0xA11CE" initialState).
  reflexivity.
Defined.

(** A batch whose first construction request is answered with an empty
    body: one request, then the second transaction. *)
Lemma empty_construction_answer_is_not_retried_witness :
  processTransactions (B := reference_builtins) (scripted empty_construction) 5
                      [demo_tx "tx1"; demo_tx "tx2"] demo_wallet initialState =
  processTransactions (B := reference_builtins) (scripted empty_construction) 5
                      [demo_tx "tx2"] demo_wallet
    (emit initialState
       [EvLog (LogTx "STAKE");
        EvFetch (ConstructTx "tx1") (Ok None);
        EvLog LogCannotConstruct]).
Proof.
  apply (empty_construction_answer_is_not_retried
           (B := reference_builtins) (scripted empty_construction) 5
           (demo_tx "tx1") [demo_tx "tx2"] demo_wallet initialState eq_refl eq_refl).
Defined.



(** A step whose only transaction is constructed but refused by the
    signer: the step throws, nothing follows the signing attempt, and the
    account data are still the initial ones. *)
Lemma step_that_fails_in_its_batch_is_not_refreshed_witness :
  let req := ActionSession "enter" Y1 "0xA11CE" (Some (JStr "5")) in
  let session := mkSession [demo_tx "tx1"] in
  let sb :=
    emit initialState
         [EvFetch req (Ok session);
          EvLog (LogTx "STAKE");
          EvFetch (ConstructTx "tx1") (Ok (Some demo_unsigned));
          EvSign (JObj []) Rejected] in
  execute_step (B := reference_builtins) (scripted signer_refuses) 7 ENTER Y1 demo_wallet
               (Some (JStr "5")) initialState = (Throw PromiseRejected, sb) /\
  earnAgentData sb = earnAgentData initialState /\
  exists evs,
    trace sb = trace initialState ++ EvFetch req (Ok session) :: evs /\
    Forall (lifecycle_of (live_ids (transactions session))) evs.
Proof.
  apply (step_that_fails_in_its_batch_is_not_refreshed
           (B := reference_builtins) (scripted signer_refuses) 7 ENTER Y1
           (Some (JStr "5")) demo_wallet initialState _ (mkSession [demo_tx "tx1"])
           PromiseRejected eq_refl eq_refl).
Defined.
